(** * Priority-flood pit filling and channel chi index (landlab components)

    Shallow embedding of
      - [landlab/components/sink_fill/pit_fill_pf.py]  (class [PitFiller])
      - [landlab/components/chi_index/channel_chi.py]  (class [ChiFinder])

    numpy arrays are lists read and written through Python's index rule
    (a negative index counts from the end, anything else out of range raises
    [IndexError]).  Elevations are only compared and copied by the filler, so
    they are held in [Z].  The floats of ChiFinder are exact rationals with
    the infinities and NaN (module [Chi]).

    Layout: the embedding of both components, the predicates and invariants
    the statements use, the example inputs; then the proofs, the filler
    first. *)

From Stdlib Require Import ZArith Lia Bool QArith Qcanon.
From stdpp Require Import base numbers list.

Local Open Scope Z_scope.

(** ** Python indexing *)

Inductive error := IndexError | ValueError | AssertionError | QueueFull | OutOfFuel.

(** [a[i]] on an array of length [len]: the position that is read. *)
Definition py_index (len : nat) (i : Z) : option nat :=
  if (0 <=? i) && (i <? Z.of_nat len) then Some (Z.to_nat i)
  else if (- Z.of_nat len <=? i) && (i <? 0) then Some (Z.to_nat (i + Z.of_nat len))
  else None.

Definition py_get {A} (a : list A) (i : Z) : option A :=
  match py_index (length a) i with
  | Some k => a !! k
  | None => None
  end.

Definition py_set {A} (a : list A) (i : Z) (x : A) : option (list A) :=
  match py_index (length a) i with
  | Some k => Some (<[k := x]> a)
  | None => None
  end.

(** [np.where(p(a))]: the positions whose entry satisfies [p], ascending. *)
Fixpoint np_where_from {A} (p : A -> bool) (k : nat) (a : list A) : list Z :=
  match a with
  | [] => []
  | x :: a' => if p x then Z.of_nat k :: np_where_from p (S k) a'
               else np_where_from p (S k) a'
  end.

Definition np_where {A} (p : A -> bool) (a : list A) : list Z := np_where_from p 0 a.

(** ** The grid, as far as the filler reads it *)

Record Grid := mkGrid {
  status_at_node : list Z;
  topographic__elevation : list Z;
  neighbors_at_node : list (list Z);
  diagonals_at_node : list (list Z)
}.

Definition number_of_nodes (g : Grid) : nat := length (status_at_node g).

Definition set_elevation (g : Grid) (z : list Z) : Grid :=
  mkGrid (status_at_node g) z (neighbors_at_node g) (diagonals_at_node g).

(** ** PitFiller *)

Record PitFiller := mkPitFiller {
  _grid : Grid;
  _dem : list Z;
  _n : nat;
  _boundary : list Z;
  _open_boundary : list Z;
  _neighbors : list (list Z)
}.

(** [np.concatenate((a, b), axis=1)] of two 2-d arrays. *)
Fixpoint concatenate_axis1 (a b : list (list Z)) : option (list (list Z)) :=
  match a, b with
  | [], [] => Some []
  | ra :: a', rb :: b' =>
      match concatenate_axis1 a' b' with
      | Some r => Some ((ra ++ rb) :: r)
      | None => None
      end
  | _, _ => None
  end.

Section Filler.

(** The grid's no-neighbour marker, [landlab.grid.base.BAD_INDEX_VALUE]. *)
Variable BAD_INDEX_VALUE : Z.

Definition mask_bad (rows : list (list Z)) : list (list Z) :=
  map (map (fun k => if k =? BAD_INDEX_VALUE then -1 else k)) rows.

(** [PitFiller.__init__] *)
Definition PitFiller_init (input_grid : Grid) : error + PitFiller :=
  match concatenate_axis1 (neighbors_at_node input_grid) (diagonals_at_node input_grid) with
  | None => inl ValueError
  | Some nb =>
      inr (mkPitFiller input_grid
             (topographic__elevation input_grid)
             (number_of_nodes input_grid)
             (np_where (fun s => negb (s =? 0)) (status_at_node input_grid))
             (np_where (fun s => (s =? 1) || (s =? 2)) (status_at_node input_grid))
             (mask_bad nb))
  end.

End Filler.

(** The working state of one [pit_fill] call. [raised_node] is the FIFO
    queue, [priority_queue] the heap of [(elevation, node)] pairs. *)
Record state := mkState {
  dem : list Z;
  closed : list bool;
  raised_node : list Z;
  priority_queue : list (Z * Z)
}.

Inductive outcome := Ok (s : state) | Raise (e : error) (s : state).

Definition bind (m : outcome) (f : state -> outcome) : outcome :=
  match m with
  | Ok s => f s
  | Raise e s => Raise e s
  end.

(** [Queue.put] on a queue built with [maxsize]: a full queue blocks, which
    in this single-threaded code never returns. [maxsize = 0] is unbounded. *)
Definition queue_full {A} (maxsize : nat) (q : list A) : bool :=
  (0 <? maxsize)%nat && (maxsize <=? length q)%nat.

(** Tuple order of [(elevation, node)]. *)
Definition pair_leb (a b : Z * Z) : bool :=
  (fst a <? fst b) || ((fst a =? fst b) && (snd a <=? snd b)).

(** [PriorityQueue.get]: the least pair and the rest. *)
Fixpoint pq_min (x : Z * Z) (q : list (Z * Z)) : Z * Z :=
  match q with
  | [] => x
  | y :: q' => if pair_leb x y then pq_min x q' else pq_min y q'
  end.

Fixpoint pq_remove (x : Z * Z) (q : list (Z * Z)) : list (Z * Z) :=
  match q with
  | [] => []
  | y :: q' => if (fst x =? fst y) && (snd x =? snd y) then q' else y :: pq_remove x q'
  end.

Definition priority_get (q : list (Z * Z)) : option ((Z * Z) * list (Z * Z)) :=
  match q with
  | [] => None
  | x :: q' => let m := pq_min x q' in Some (m, pq_remove m q)
  end.

(** Lines 52-61: one pass of the body of [for neighbor_node in ...]. *)
Definition visit (n : nat) (node : Z) (st : state) (neighbor_node : Z) : outcome :=
  if neighbor_node =? -1 then Ok st
  else
    match py_get (closed st) neighbor_node with
    | None => Raise IndexError st
    | Some true => Ok st
    | Some false =>
        match py_set (closed st) neighbor_node true with
        | None => Raise IndexError st
        | Some closed' =>
            let st1 := mkState (dem st) closed' (raised_node st) (priority_queue st) in
            match py_get (dem st1) neighbor_node, py_get (dem st1) node with
            | Some zn, Some zc =>
                if zn <=? zc then
                  match py_set (dem st1) neighbor_node zc with
                  | None => Raise IndexError st1
                  | Some dem' =>
                      let st2 := mkState dem' closed' (raised_node st) (priority_queue st) in
                      if queue_full n (raised_node st2) then Raise QueueFull st2
                      else Ok (mkState dem' closed' (raised_node st ++ [neighbor_node])
                                 (priority_queue st))
                  end
                else
                  if queue_full n (priority_queue st1) then Raise QueueFull st1
                  else Ok (mkState (dem st1) closed' (raised_node st)
                             (priority_queue st ++ [(zn, neighbor_node)]))
            | _, _ => Raise IndexError st1
            end
        end
    end.

Fixpoint visit_all (n : nat) (node : Z) (row : list Z) (st : state) : outcome :=
  match row with
  | [] => Ok st
  | k :: row' => bind (visit n node st k) (visit_all n node row')
  end.

(** Lines 47-50: which node the next turn of the [while] loop handles. *)
Definition next_node (st : state) : option (Z * state) :=
  match raised_node st with
  | node :: r' => Some (node, mkState (dem st) (closed st) r' (priority_queue st))
  | [] =>
      match priority_get (priority_queue st) with
      | Some ((_, node), q') => Some (node, mkState (dem st) (closed st) [] q')
      | None => None
      end
  end.

(** Lines 46-61: the [while] loop, with a bound on its number of turns. *)
Fixpoint flood (fuel : nat) (n : nat) (nbrs : list (list Z)) (st : state) : outcome :=
  match next_node st with
  | None => Ok st
  | Some (node, st') =>
      match fuel with
      | O => Raise OutOfFuel st
      | S fuel' =>
          match py_get nbrs node with
          | None => Raise IndexError st'
          | Some row => bind (visit_all n node row st') (flood fuel' n nbrs)
          end
      end
  end.

(** Lines 42-44: seeding with the open boundary. *)
Definition seed (n : nat) (st : state) (i : Z) : outcome :=
  match py_get (dem st) i with
  | None => Raise IndexError st
  | Some zi =>
      if queue_full n (priority_queue st) then Raise QueueFull st
      else
        let st1 := mkState (dem st) (closed st) (raised_node st)
                     (priority_queue st ++ [(zi, i)]) in
        match py_set (closed st1) i true with
        | None => Raise IndexError st1
        | Some closed' => Ok (mkState (dem st) closed' (raised_node st) (priority_queue st1))
        end
  end.

Fixpoint seed_all (n : nat) (l : list Z) (st : state) : outcome :=
  match l with
  | [] => Ok st
  | i :: l' => bind (seed n st i) (seed_all n l')
  end.

Definition initial_state (pf : PitFiller) : state :=
  mkState (_dem pf) (replicate (_n pf) false) [] [].

(** The body of [pit_fill] up to line 61. Every node enters a queue at most
    once, so [_n] turns of the loop are enough (see [flood_fuel_enough]). *)
Definition pit_fill_run (pf : PitFiller) : outcome :=
  bind (seed_all (_n pf) (_open_boundary pf) (initial_state pf))
       (flood (_n pf) (_n pf) (_neighbors pf)).

Definition with_dem (pf : PitFiller) (g : Grid) (z : list Z) : PitFiller :=
  mkPitFiller g z (_n pf) (_boundary pf) (_open_boundary pf) (_neighbors pf).

(** [PitFiller.pit_fill]: the component after the call, and the exception
    if one was raised. [self._dem] is updated in place as the loop runs; the
    grid's field is replaced only by line 63. *)
Definition pit_fill (pf : PitFiller) : PitFiller * option error :=
  match pit_fill_run pf with
  | Ok s => (with_dem pf (set_elevation (_grid pf) (dem s)) (dem s), None)
  | Raise e s => (with_dem pf (_grid pf) (dem s), Some e)
  end.

(** ** Vocabulary for the filler's properties *)

Definition outcome_state (o : outcome) : state :=
  match o with Ok s => s | Raise _ s => s end.

(** [u] lists [v] among its neighbours. *)
Definition edge (n : nat) (nbrs : list (list Z)) (u v : nat) : Prop :=
  exists row k, nbrs !! u = Some row /\ k ∈ row /\ k <> -1 /\ py_index n k = Some v.

Definition is_seed (n : nat) (opens : list Z) (v : nat) : Prop :=
  exists i, i ∈ opens /\ py_index n i = Some v.

(** Open boundary: status 1 (fixed value) or 2 (fixed gradient). *)
Definition open_boundary (g : Grid) (v : nat) : Prop :=
  exists s, status_at_node g !! v = Some s /\ (s = 1 \/ s = 2).

Definition le_at (z : list Z) (u v : nat) : Prop :=
  exists zu zv, z !! u = Some zu /\ z !! v = Some zv /\ zu <= zv.

(** [descends n nbrs z v p o]: from [v] one walks through the nodes of [p]
    to [o]; each node walked to lists the previous one as a neighbour and is
    not higher than it. *)
Fixpoint descends (n : nat) (nbrs : list (list Z)) (z : list Z)
    (v : nat) (p : list nat) (o : nat) : Prop :=
  match p with
  | [] => v = o
  | u :: p' => edge n nbrs u v /\ le_at z u v /\ descends n nbrs z u p' o
  end.

(** The grid's node fields all have one entry per node, and the adjacency
    one row per node. *)
Definition grid_sized (g : Grid) : Prop :=
  length (topographic__elevation g) = number_of_nodes g /\
  length (neighbors_at_node g) = number_of_nodes g.

(** Entries only rise. *)
Definition raised_from (z0 z : list Z) : Prop := Forall2 Z.le z0 z.

(** Every entry of the adjacency is the no-neighbour mark or names a node. *)
Definition adjacency_ok (n : nat) (nbrs : list (list Z)) : Prop :=
  length nbrs = n /\
  forall row k, row ∈ nbrs -> k ∈ row -> k = -1 \/ is_Some (py_index n k).

(** The grid is shared: [self._grid] is the caller's grid object, so a write
    by the caller to its elevation field is seen through [_grid]. [_dem] was
    copied at construction and is not touched by such a write. *)
Definition grid_write (pf : PitFiller) (z : list Z) : PitFiller :=
  mkPitFiller (set_elevation (_grid pf) z) (_dem pf) (_n pf)
              (_boundary pf) (_open_boundary pf) (_neighbors pf).

(** An adjacency entry that is neither a node id nor the no-neighbour mark. *)
Definition dangling (n : nat) (k : Z) : Prop := k <> -1 /\ ~ (0 <= k < Z.of_nat n).

Definition malformed (n : nat) (nbrs : list (list Z)) : Prop :=
  exists row k, row ∈ nbrs /\ k ∈ row /\ dangling n k.

(** ** Invariants of the flood *)

(** Nodes not yet closed. *)
Fixpoint count_open (c : list bool) : nat :=
  match c with
  | [] => 0
  | b :: c' => (if b then 0 else 1) + count_open c'
  end.

(** What is still to be handled: queued nodes and nodes never reached. *)
Definition measure (st : state) : nat :=
  (length (raised_node st) + length (priority_queue st) + count_open (closed st))%nat.

Definition is_closed (st : state) (v : nat) : Prop := closed st !! v = Some true.

Definition queued (n : nat) (st : state) (v : nat) : Prop :=
  (exists k, k ∈ raised_node st /\ py_index n k = Some v) \/
  (exists e k, (e, k) ∈ priority_queue st /\ py_index n k = Some v).

(** Shape of a state in a run on [n] nodes: arrays of the right size, every
    queued id names a closed node, heap keys are the nodes' elevations. *)
Record state_ok (n : nat) (st : state) : Prop := {
  ok_closed : length (closed st) = n;
  ok_dem : length (dem st) = n;
  ok_raised : forall k, k ∈ raised_node st -> exists v, py_index n k = Some v /\ is_closed st v;
  ok_pq : forall e k, (e, k) ∈ priority_queue st ->
          exists v, py_index n k = Some v /\ is_closed st v /\ dem st !! v = Some e
}.

(** [rising n nbrs opens st v]: [v] is reached from a seed through closed
    nodes, each listed by the one before it and not lower than it. *)
Inductive rising (n : nat) (nbrs : list (list Z)) (opens : list Z) (st : state) : nat -> Prop :=
  | rising_seed v : is_seed n opens v -> is_closed st v -> rising n nbrs opens st v
  | rising_step u v :
      rising n nbrs opens st u -> edge n nbrs u v -> is_closed st v ->
      le_at (dem st) u v -> rising n nbrs opens st v.

Definition all_rising (n : nat) (nbrs : list (list Z)) (opens : list Z) (st : state) : Prop :=
  forall v, is_closed st v -> rising n nbrs opens st v.

(** The two ways a visit changes the state: the neighbour is raised to the
    flood level and joins the FIFO queue, or it joins the heap as it is. *)
Definition raise_to (st : state) (k : Z) (m : nat) (zc : Z) : state :=
  mkState (<[m := zc]> (dem st)) (<[m := true]> (closed st))
          (raised_node st ++ [k]) (priority_queue st).

Definition defer (st : state) (k : Z) (m : nat) (zn : Z) : state :=
  mkState (dem st) (<[m := true]> (closed st))
          (raised_node st) (priority_queue st ++ [(zn, k)]).

(** Reached from a seed along neighbour lists, whatever the elevations. *)
Inductive graph_reach (n : nat) (nbrs : list (list Z)) (opens : list Z) : nat -> Prop :=
  | reach_seed v : is_seed n opens v -> graph_reach n nbrs opens v
  | reach_step u v : graph_reach n nbrs opens u -> edge n nbrs u v -> graph_reach n nbrs opens v.

(** Reached from a seed along neighbour lists without ever stepping down. *)
Inductive surface_rising (n : nat) (nbrs : list (list Z)) (opens : list Z) (z : list Z) : nat -> Prop :=
  | srising_seed v : is_seed n opens v -> surface_rising n nbrs opens z v
  | srising_step u v :
      surface_rising n nbrs opens z u -> edge n nbrs u v -> le_at z u v ->
      surface_rising n nbrs opens z v.

(** An id numpy rejects as an index into an array of [n] entries. *)
Definition out_of_range (n : nat) (k : Z) : Prop := k < - Z.of_nat n \/ Z.of_nat n <= k.

(** The flood comes to an id numpy rejects: the row of a node reached from
    the open boundary lists an id that is not the no-neighbour mark and is
    out of range. *)
Definition reaches_bad_id (n : nat) (nbrs : list (list Z)) (opens : list Z) : Prop :=
  exists v row k, graph_reach n nbrs opens v /\ nbrs !! v = Some row /\
    k ∈ row /\ k <> -1 /\ out_of_range n k.

(** A surface the flood has nothing to do on. *)
Definition filled (n : nat) (nbrs : list (list Z)) (opens : list Z) (z : list Z) : Prop :=
  forall v, graph_reach n nbrs opens v -> surface_rising n nbrs opens z v.

Definition in_raised (n : nat) (st : state) (v : nat) : Prop :=
  exists k, k ∈ raised_node st /\ py_index n k = Some v.

(** The row of [v] has been walked: each entry other than the no-neighbour
    mark names a node, and that node is closed. *)
Definition done (n : nat) (nbrs : list (list Z)) (st : state) (v : nat) : Prop :=
  exists row, nbrs !! v = Some row /\
    forall k, k ∈ row -> k <> -1 -> exists m, py_index n k = Some m /\ is_closed st m.

(** Between two turns of the [while] loop. *)
Record flood_between (n : nat) (nbrs : list (list Z)) (opens : list Z) (st : state) : Prop := {
  fb_seeds : forall v, is_seed n opens v -> is_closed st v;
  fb_reach : forall v, is_closed st v -> graph_reach n nbrs opens v;
  fb_front : forall v, is_closed st v -> queued n st v \/ done n nbrs st v;
  fb_level : forall r v, in_raised n st r -> queued n st v -> le_at (dem st) r v
}.

(** While the neighbours of the popped node [c] are being visited. *)
Record flood_during (n : nat) (nbrs : list (list Z)) (opens : list Z) (c : nat) (st : state) : Prop := {
  fd_seeds : forall v, is_seed n opens v -> is_closed st v;
  fd_reach : forall v, is_closed st v -> graph_reach n nbrs opens v;
  fd_front : forall v, is_closed st v -> queued n st v \/ v = c \/ done n nbrs st v;
  fd_cur : is_closed st c;
  fd_above : forall v, queued n st v -> le_at (dem st) c v;
  fd_level : forall r, in_raised n st r -> le_at (dem st) r c
}.

(** ** The water level *)

(** [flood_level n nbrs opens z0 v L]: some walk from a seed to [v] along
    neighbour lists has [L] as its highest input elevation. *)
Inductive flood_level (n : nat) (nbrs : list (list Z)) (opens : list Z) (z0 : list Z) :
    nat -> Z -> Prop :=
  | level_seed v e : is_seed n opens v -> z0 !! v = Some e -> flood_level n nbrs opens z0 v e
  | level_step u v L e :
      flood_level n nbrs opens z0 u L -> edge n nbrs u v -> z0 !! v = Some e ->
      flood_level n nbrs opens z0 v (Z.max L e).

(** [v] still has its input elevation. *)
Definition keeps (z0 : list Z) (st : state) (v : nat) : Prop :=
  exists e, z0 !! v = Some e /\ dem st !! v = Some e.

(** [w] is no higher than the higher of [v] and its own input elevation. *)
Definition le_max (z0 : list Z) (st : state) (v w : nat) : Prop :=
  exists zv zw ew, dem st !! v = Some zv /\ dem st !! w = Some zw /\ z0 !! w = Some ew /\
    zw <= Z.max zv ew.

Definition edge_ok (n : nat) (nbrs : list (list Z)) (z0 : list Z) (st : state) (v : nat) : Prop :=
  forall w, edge n nbrs v w -> is_closed st w /\ le_max z0 st v w.

(** Elevations between two turns of the [while] loop, for a run started on
    the surface [z0]. *)
Record levels_between (n : nat) (nbrs : list (list Z)) (opens : list Z) (z0 : list Z)
    (st : state) : Prop := {
  lb_open : forall v, closed st !! v = Some false -> dem st !! v = z0 !! v;
  lb_seed : forall v, is_seed n opens v -> dem st !! v = z0 !! v;
  lb_attained : forall v, is_closed st v ->
      exists e, dem st !! v = Some e /\ flood_level n nbrs opens z0 v e;
  lb_edges : forall v, is_closed st v -> queued n st v \/ edge_ok n nbrs z0 st v;
  lb_bound : forall w, is_closed st w ->
      keeps z0 st w \/ forall v, queued n st v -> le_at (dem st) w v
}.

(** The same while the neighbours of the popped node [c] are visited. *)
Record levels_during (n : nat) (nbrs : list (list Z)) (opens : list Z) (z0 : list Z)
    (c : nat) (st : state) : Prop := {
  ld_open : forall v, closed st !! v = Some false -> dem st !! v = z0 !! v;
  ld_seed : forall v, is_seed n opens v -> dem st !! v = z0 !! v;
  ld_attained : forall v, is_closed st v ->
      exists e, dem st !! v = Some e /\ flood_level n nbrs opens z0 v e;
  ld_edges : forall v, is_closed st v -> queued n st v \/ v = c \/ edge_ok n nbrs z0 st v;
  ld_bound : forall w, is_closed st w -> keeps z0 st w \/ le_at (dem st) w c
}.

(** ** Concrete grids used to exercise the statements *)

(** The value the examples use for the no-neighbour marker. *)
Definition example_bad : Z := 2147483647.

(** A 3 x 3 raster: rows of [neighbors_at_node] are east, north, west, south,
    rows of [diagonals_at_node] the four corners. Node 3 is a fixed-value
    boundary at elevation 2, node 4 is the core node, a pit at elevation 1;
    the rest of the rim is closed boundary at elevation 5. *)
Definition raster3 (status elev : list Z) : Grid :=
  let b := example_bad in
  mkGrid status elev
    [[1; 3; b; b]; [2; 4; 0; b]; [b; 5; 1; b];
     [4; 6; b; 0]; [5; 7; 3; 1]; [b; 8; 4; 2];
     [7; b; b; 3]; [8; b; 6; 4]; [b; b; 7; 5]]
    [[4; b; b; b]; [5; 3; b; b]; [b; 4; b; b];
     [7; b; b; 1]; [8; 6; 0; 2]; [b; 7; 1; b];
     [b; b; b; 4]; [b; b; 3; 5]; [b; b; 4; b]].

Definition pit_grid : Grid := raster3 [4; 4; 4; 1; 0; 4; 4; 4; 4] [5; 5; 5; 2; 1; 5; 5; 5; 5].

Definition force_filler (r : error + PitFiller) : PitFiller :=
  match r with
  | inr pf => pf
  | inl _ => mkPitFiller (mkGrid [] [] [] []) [] 0 [] [] []
  end.

Definition pit_filler : PitFiller := force_filler (PitFiller_init example_bad pit_grid).

(** Three nodes; node 0 is a fixed-value boundary at elevation 5 whose only
    adjacency entry is the dangling id [-2]. *)
Definition wrap_grid : Grid :=
  mkGrid [1; 0; 0] [5; 0; 1] [[-2]; [example_bad]; [example_bad]] [[]; []; []].

Definition wrap_filler : PitFiller := force_filler (PitFiller_init example_bad wrap_grid).

(** The same, with the dangling id [7]. *)
Definition beyond_grid : Grid :=
  mkGrid [1; 0; 0] [5; 0; 1] [[1; 7]; [example_bad; example_bad]; [example_bad; example_bad]]
         [[]; []; []].

Definition beyond_filler : PitFiller := force_filler (PitFiller_init example_bad beyond_grid).

(** The example raster with every node at elevation 7, and a surface that
    lies above the pit example everywhere. *)
Definition flat_grid : Grid := raster3 [4; 4; 4; 1; 0; 4; 4; 4; 4] (replicate 9 7).

Definition flat_filler : PitFiller := force_filler (PitFiller_init example_bad flat_grid).

Definition higher_surface : list Z := [5; 6; 5; 3; 1; 5; 5; 8; 5].

(** The example raster with no open boundary: the rim is closed. *)
Definition sealed_grid : Grid := raster3 [4; 4; 4; 4; 0; 4; 4; 4; 4] [5; 5; 5; 2; 1; 5; 5; 5; 5].

Definition sealed_filler : PitFiller := force_filler (PitFiller_init example_bad sealed_grid).

(** * ChiFinder

    numpy's floats are modelled by exact rationals together with the two
    infinities and NaN that division by zero and the mean of an empty array
    produce. Rounding is not modelled, zero carries no sign, and [**] is a
    parameter.

    A binary64 sum, product or quotient is the exact one, rounded. The
    statements about ChiFinder are therefore kept to what rounding leaves
    alone: which operation the code applies to which entries and in which
    order, what is zero, NaN or of which sign, and the order between finite
    values. None rests on a law of exact arithmetic that rounding breaks,
    such as distributing a product over a sum or the mean of equal numbers
    being that number. The one identity used, [0.5*a + 0.5*b = 0.5*(a + b)]
    (lemma [half_distr]), holds in binary64 short of overflow and underflow,
    halving being exact there. *)

Module Chi.

Inductive num := Fin (q : Qc) | PInf | NInf | NaN.

#[global] Instance num_eq_dec : EqDecision num.
Proof. solve_decision. Defined.

Definition zero : num := Fin 0%Qc.
Definition half : num := Fin (Q2Qc (1 # 2)).

Definition sign (q : Qc) : comparison := (q ?= 0)%Qc.

Definition inf_of (c : comparison) : num :=
  match c with Gt => PInf | Lt => NInf | Eq => NaN end.

Definition sign_mul (a b : comparison) : comparison :=
  match a, b with
  | Eq, _ | _, Eq => Eq
  | Gt, c | c, Gt => c
  | Lt, Lt => Gt
  end.

Definition nsign (a : num) : comparison :=
  match a with Fin q => sign q | PInf => Gt | NInf => Lt | NaN => Eq end.

Definition nadd (a b : num) : num :=
  match a, b with
  | NaN, _ | _, NaN => NaN
  | Fin x, Fin y => Fin (x + y)%Qc
  | PInf, NInf | NInf, PInf => NaN
  | PInf, _ | _, PInf => PInf
  | NInf, _ | _, NInf => NInf
  end.

Definition nmul (a b : num) : num :=
  match a, b with
  | NaN, _ | _, NaN => NaN
  | Fin x, Fin y => Fin (x * y)%Qc
  | _, _ => inf_of (sign_mul (nsign a) (nsign b))
  end.

Definition ndiv (a b : num) : num :=
  match a, b with
  | NaN, _ | _, NaN => NaN
  | Fin x, Fin y => if Qc_eq_dec y 0%Qc then inf_of (sign x) else Fin (x / y)%Qc
  | Fin _, _ => zero
  | _, Fin y => inf_of (sign_mul (nsign a) (if Qc_eq_dec y 0%Qc then Gt else sign y))
  | _, _ => NaN
  end.

(** [a >= b]; any comparison with NaN is false. *)
Definition nge (a b : num) : bool :=
  match a, b with
  | NaN, _ | _, NaN => false
  | Fin x, Fin y => match (y ?= x)%Qc with Gt => false | _ => true end
  | PInf, _ | _, NInf => true
  | _, _ => false
  end.

Definition ngt (a b : num) : bool := nge a b && negb (nge b a).

Definition nsum (l : list num) : num := foldr nadd zero l.

(** [a.mean()]: the mean of an empty array is NaN. *)
Definition mean (l : list num) : num := ndiv (nsum l) (Fin (Qc_of_Z (Z.of_nat (length l)))).

(** ** numpy indexing with arrays *)

(** [a[idx]] for an integer array [idx]. *)
Fixpoint take {A} (a : list A) (idx : list Z) : error + list A :=
  match idx with
  | [] => inr []
  | i :: idx' =>
      match py_get a i, take a idx' with
      | Some x, inr r => inr (x :: r)
      | _, _ => inl IndexError
      end
  end.

(** [a[mask]] for a boolean array [mask] of the length of [a]. *)
Fixpoint select {A} (mask : list bool) (a : list A) : list A :=
  match mask, a with
  | b :: mask', x :: a' => if b then x :: select mask' a' else select mask' a'
  | _, _ => []
  end.

(** [a[idx] = vals], one value per index. *)
Fixpoint put_each {A} (a : list A) (idx : list Z) (vals : list A) : error + list A :=
  match idx, vals with
  | i :: idx', x :: vals' =>
      match py_set a i x with
      | Some a' => put_each a' idx' vals'
      | None => inl IndexError
      end
  | _, _ => inr a
  end.

(** [a[idx] = x]. *)
Fixpoint put_const {A} (a : list A) (idx : list Z) (x : A) : error + list A :=
  match idx with
  | [] => inr a
  | i :: idx' =>
      match py_set a i x with
      | Some a' => put_const a' idx' x
      | None => inl IndexError
      end
  end.

(** [a[mask] = x] for a boolean array [mask]; the lengths must agree. *)
Definition stamp {A} (a : list A) (mask : list bool) (x : A) : error + list A :=
  if (length a =? length mask)%nat
  then inr (zip_with (fun (b : bool) y => if b then x else y) mask a)
  else inl IndexError.

(** ** The grid, as far as ChiFinder reads it *)

Record Grid := mkGrid {
  status_at_node : list Z;
  drainage_area : list num;
  flow_receiver : list Z;
  upstream_node_order : list Z;
  links_to_flow_receiver : list Z;
  link_length : list num;
  cell_area_at_node : list num;
  core_nodes : list Z
}.

Definition number_of_nodes (g : Grid) : nat := length (status_at_node g).

Record ChiFinder := mkChiFinder {
  _grid : Grid;
  _reftheta : num;
  min_drainage : num;
  _A0 : num;
  use_true_dx : bool;
  chi : list num;
  _mask : list bool
}.

(** The keyword arguments of [calculate_chi]; [None] is a key that was not
    passed. [reference_area] may be passed as Python's [None]. *)
Record Kwds := mkKwds {
  kw_reference_concavity : option num;
  kw_min_drainage_area : option num;
  kw_reference_area : option (option num);
  kw_use_true_dx : option bool
}.

Definition no_kwds : Kwds := mkKwds None None None None.

Definition bindE {A B} (m : error + A) (f : A -> error + B) : error + B :=
  match m with
  | inl e => inl e
  | inr a => f a
  end.

Section Component.

(** Constants of [landlab] and the power function of the floats. *)
Variable BAD_INDEX_VALUE : Z.
Variable CLOSED_BOUNDARY : Z.
Variable power : num -> num -> num.

(** Lines 161-165 and 194-197: the mean cell area of the core nodes, unless
    [cell_area_at_node] converts to a single float. *)
Definition default_reference_area (g : Grid) : error + num :=
  match cell_area_at_node g with
  | [a] => inr a
  | areas => bindE (take areas (core_nodes g)) (fun l => inr (mean l))
  end.

(** [ChiFinder.__init__] *)
Definition ChiFinder_init (grid : Grid) (reference_concavity min_drainage_area : num)
    (reference_area : option num) (use_true_dx : bool) : error + ChiFinder :=
  bindE (match reference_area with
         | None => default_reference_area grid
         | Some a => if ngt a zero then inr a else inl AssertionError
         end)
    (fun A0 =>
       inr (mkChiFinder grid reference_concavity min_drainage_area A0 use_true_dx
              (replicate (number_of_nodes grid) zero)
              (replicate (number_of_nodes grid) true))).

(** [mean_channel_node_spacing] *)
Definition mean_channel_node_spacing (g : Grid) (ch_nodes : list Z) : error + num :=
  bindE (take (links_to_flow_receiver g) ch_nodes) (fun ch_links =>
  let ch_links_valid := filter (fun l => l <> BAD_INDEX_VALUE) ch_links in
  bindE (take (link_length g) ch_links_valid) (fun valid_link_lengths =>
  inr (mean valid_link_lengths))).

(** Lines 270-272: the loop of [integrate_chi_avg_dx]. *)
Fixpoint integrate_chi_avg_dx_loop (receivers : list Z) (pairs : list (Z * num))
    (chi_array : list num) : error + list num :=
  match pairs with
  | [] => inr chi_array
  | (node, integrand) :: pairs' =>
      match py_get receivers node with
      | None => inl IndexError
      | Some dstr_node =>
          match py_get chi_array dstr_node with
          | None => inl IndexError
          | Some c =>
              match py_set chi_array node (nadd c integrand) with
              | None => inl IndexError
              | Some chi_array' => integrate_chi_avg_dx_loop receivers pairs' chi_array'
              end
          end
      end
  end.

(** [integrate_chi_avg_dx] *)
Definition integrate_chi_avg_dx (g : Grid) (valid_upstr_order : list Z)
    (chi_integrand : list num) (chi_array : list num) (mean_dx : num) : error + list num :=
  bindE (integrate_chi_avg_dx_loop (flow_receiver g)
           (zip valid_upstr_order chi_integrand) chi_array)
    (fun chi_array' => inr (map (fun c => nmul c mean_dx) chi_array')).

(** Lines 358-367: the loop of [integrate_chi_each_dx]. *)
Fixpoint integrate_chi_each_dx_loop (g : Grid) (half_integrand : list num)
    (order : list Z) (chi_array : list num) : error + list num :=
  match order with
  | [] => inr chi_array
  | node :: order' =>
      match py_get (flow_receiver g) node, py_get (links_to_flow_receiver g) node with
      | Some dstr_node, Some dstr_link =>
          if dstr_link =? BAD_INDEX_VALUE
          then integrate_chi_each_dx_loop g half_integrand order' chi_array
          else
            match py_get (link_length g) dstr_link,
                  py_get half_integrand node, py_get half_integrand dstr_node,
                  py_get chi_array dstr_node with
            | Some dstr_length, Some half_head_val, Some half_tail_val, Some c =>
                let mean_val := nadd half_head_val half_tail_val in
                let chi_to_add := nmul mean_val dstr_length in
                match py_set chi_array node (nadd c chi_to_add) with
                | None => inl IndexError
                | Some chi_array' =>
                    integrate_chi_each_dx_loop g half_integrand order' chi_array'
                end
            | _, _, _, _ => inl IndexError
            end
      | _, _ => inl IndexError
      end
  end.

(** [integrate_chi_each_dx] *)
Definition integrate_chi_each_dx (g : Grid) (valid_upstr_order : list Z)
    (chi_integrand_at_nodes : list num) (chi_array : list num) : error + list num :=
  let half_integrand := map (nmul half) chi_integrand_at_nodes in
  integrate_chi_each_dx_loop g half_integrand valid_upstr_order chi_array.

(** Lines 190-199: the parameters in force for one call (the locals
    [reftheta], [min_drainage], [A0], [use_true_dx]). *)
Definition resolve (cf : ChiFinder) (kwds : Kwds) : error + (num * num * num * bool) :=
  bindE (match default (Some (_A0 cf)) (kw_reference_area kwds) with
         | None => default_reference_area (_grid cf)
         | Some a => inr a
         end)
    (fun A0 =>
       if ngt A0 zero
       then inr (default (_reftheta cf) (kw_reference_concavity kwds),
                 default (min_drainage cf) (kw_min_drainage_area kwds),
                 A0,
                 default (use_true_dx cf) (kw_use_true_dx kwds))
       else inl AssertionError).

(** Lines 201-206: the nodes whose drainage area reaches the threshold, in
    upstream order. *)
Definition valid_nodes (g : Grid) (min_area : num) : error + list Z :=
  bindE (take (drainage_area g) (upstream_node_order g)) (fun areas =>
  inr (select (map (fun a => nge a min_area) areas) (upstream_node_order g))).

(** Lines 187-188 and 201-220: the body of [calculate_chi] once the
    parameters are known. *)
Definition calculate_chi_with (cf : ChiFinder) (reftheta min_area A0 : num)
    (true_dx : bool) : error + ChiFinder :=
  let g := _grid cf in
  let mask0 := replicate (length (_mask cf)) true in
  let chi0 := replicate (length (chi cf)) zero in
  bindE (valid_nodes g min_area) (fun valid_upstr_order =>
  bindE (take (drainage_area g) valid_upstr_order) (fun valid_upstr_areas =>
  let values := map (fun a => power (ndiv A0 a) reftheta) valid_upstr_areas in
  bindE (if true_dx
         then
           bindE (put_each (replicate (number_of_nodes g) zero) valid_upstr_order values)
             (fun chi_integrand => integrate_chi_each_dx g valid_upstr_order chi_integrand chi0)
         else
           bindE (mean_channel_node_spacing g valid_upstr_order) (fun mean_dx =>
           integrate_chi_avg_dx g valid_upstr_order values chi0 mean_dx))
    (fun chi1 =>
  bindE (stamp chi1 (map (fun s => s =? CLOSED_BOUNDARY) (status_at_node g)) zero) (fun chi2 =>
  bindE (put_const mask0 valid_upstr_order false) (fun mask1 =>
  inr (mkChiFinder g (_reftheta cf) (min_drainage cf) (_A0 cf) (use_true_dx cf) chi2 mask1)))))).

(** [ChiFinder.calculate_chi] *)
Definition calculate_chi (cf : ChiFinder) (kwds : Kwds) : error + ChiFinder :=
  bindE (resolve cf kwds) (fun '(reftheta, min_area, A0, true_dx) =>
  calculate_chi_with cf reftheta min_area A0 true_dx).

End Component.

End Chi.

(** ** The spec's account of the two integration modes

    These follow the words of the specification, node by node, with total
    array reads ([at_]) and writes ([set_]); the theorems below compare them
    with the code. *)

Module ChiSpec.
Import Chi.

Definition at_ {A} (d : A) (a : list A) (i : Z) : A := default d (py_get a i).
Definition set_ {A} (a : list A) (i : Z) (x : A) : list A := default a (py_set a i x).

Section Spec.

Variable BAD_INDEX_VALUE : Z.
Variable CLOSED_BOUNDARY : Z.
Variable power : num -> num -> num.
Variable g : Grid.

Definition area (node : Z) : num := at_ NaN (drainage_area g) node.
Definition receiver (node : Z) : Z := at_ 0 (flow_receiver g) node.
Definition link (node : Z) : Z := at_ BAD_INDEX_VALUE (links_to_flow_receiver g) node.
Definition linkLength (node : Z) : num := at_ NaN (link_length g) (link node).

(** "the subsequence of nodes whose drainage area >= minDrainageArea" *)
Definition valid (minDrainageArea : num) : list Z :=
  filter (fun node => nge (area node) minDrainageArea = true) (upstream_node_order g).

(** "average length, over all valid nodes' links-to-receiver that are
    non-sentinel, of that link's length" *)
Definition meanSpacing (nodes : list Z) : num :=
  mean (map linkLength (filter (fun node => link node <> BAD_INDEX_VALUE) nodes)).

(** "chi[node] = chi[receiver(node)] + (A0/area(node))^theta" *)
Definition uniformStep (A0 theta : num) (chi : list num) (node : Z) : list num :=
  set_ chi node (nadd (at_ NaN chi (receiver node)) (power (ndiv A0 (area node)) theta)).

(** "after processing all valid nodes, multiply every chi value by the mean
    spacing" *)
Definition uniformChi (A0 theta minDrainageArea : num) : list num :=
  let nodes := valid minDrainageArea in
  map (fun c => nmul c (meanSpacing nodes))
      (foldl (uniformStep A0 theta) (replicate (number_of_nodes g) zero) nodes).

(** "integrand(node) = (A0/area(node))^theta only at valid nodes (zero
    elsewhere)"; [v] is a position in the node arrays. *)
Definition integrandAt (A0 theta : num) (nodes : list Z) (v : nat) : num :=
  if decide (Exists (fun node => py_index (number_of_nodes g) node = Some v) nodes)
  then power (ndiv A0 (area (Z.of_nat v))) theta
  else zero.

Definition integrand (A0 theta : num) (nodes : list Z) (node : Z) : num :=
  match py_index (number_of_nodes g) node with
  | Some v => integrandAt A0 theta nodes v
  | None => NaN
  end.

(** "if it has a non-sentinel link to its receiver: chi[node] =
    chi[receiver(node)] + 0.5 * (integrand(node) + integrand(receiver(node)))
    * linkLength(node->receiver)"; otherwise the entry is left as it is. *)
Definition exactStep (A0 theta : num) (nodes : list Z) (chi : list num) (node : Z) : list num :=
  if link node =? BAD_INDEX_VALUE then chi
  else set_ chi node
         (nadd (at_ NaN chi (receiver node))
               (nmul (nmul half (nadd (integrand A0 theta nodes node)
                                      (integrand A0 theta nodes (receiver node))))
                     (linkLength node))).

Definition exactChi (A0 theta minDrainageArea : num) : list num :=
  let nodes := valid minDrainageArea in
  foldl (exactStep A0 theta nodes) (replicate (number_of_nodes g) zero) nodes.

(** "Force chi[node] = 0 for every node classified as closed boundary" *)
Definition closedToZero (chi : list num) : list num :=
  zip_with (fun s c => if s =? CLOSED_BOUNDARY then zero else c) (status_at_node g) chi.

(** "isOutsideChannel[node] = false for every valid node, true otherwise" *)
Definition outsideChannel (nodes : list Z) : list bool :=
  foldl (fun m node => set_ m node false) (replicate (number_of_nodes g) true) nodes.

(** Finite and not negative; finite and positive; [a <= b] between finite
    values. *)
Definition nonneg (a : num) : Prop := exists q, a = Fin q /\ (0 <= q)%Qc.
Definition positive (a : num) : Prop := exists q, a = Fin q /\ (0 < q)%Qc.
Definition num_le (a b : num) : Prop := exists x y, a = Fin x /\ b = Fin y /\ (x <= y)%Qc.

(** The position in the node arrays that a node id names. *)
Definition idx (node : Z) : option nat := py_index (number_of_nodes g) node.

(** "every node is listed strictly after all nodes downstream of it": a
    later entry names neither an earlier node nor an earlier node's
    receiver. *)
Definition upstream_ordered (nodes : list Z) : Prop :=
  forall i j a b, nodes !! i = Some a -> nodes !! j = Some b -> (i < j)%nat ->
    idx b <> idx a /\ idx b <> idx (receiver a).

(** The shape both integrations share: a node is passed over, or gets its
    receiver's entry plus an increment. *)
Definition gstep (skip : Z -> bool) (inc : Z -> num) (chi : list num) (node : Z) : list num :=
  if skip node then chi
  else set_ chi node (nadd (at_ NaN chi (receiver node)) (inc node)).

(** The flow network the specification assumes: every node array has one
    entry per node, the ids in the upstream order and the receivers name
    nodes, and every link id other than the no-link marker names a link. *)
Record network_ok : Prop := {
  net_area : length (drainage_area g) = number_of_nodes g;
  net_receiver : length (flow_receiver g) = number_of_nodes g;
  net_links : length (links_to_flow_receiver g) = number_of_nodes g;
  net_order : forall node, node ∈ upstream_node_order g ->
      is_Some (py_index (number_of_nodes g) node);
  net_receivers : forall r, r ∈ flow_receiver g -> is_Some (py_index (number_of_nodes g) r);
  net_link_ids : forall l, l ∈ links_to_flow_receiver g -> l <> BAD_INDEX_VALUE ->
      is_Some (py_index (length (link_length g)) l)
}.

End Spec.

(** The component's two output arrays have one entry per node. *)
Definition finder_sized (cf : ChiFinder) : Prop :=
  length (chi cf) = number_of_nodes (_grid cf) /\
  length (_mask cf) = number_of_nodes (_grid cf).

End ChiSpec.

(** ** Concrete networks used to exercise the statements about ChiFinder *)

Module ChiExamples.
Import Chi.

Definition example_closed : Z := 4.

(** A power function for the examples: exact for exponents 0, 1, 2, ... *)
Definition power_example (x t : num) : num :=
  match t with
  | Fin q =>
      if (Zpos (Qden q) =? 1) && (0 <=? Qnum q)
      then Nat.iter (Z.to_nat (Qnum q)) (nmul x) (Fin 1%Qc)
      else NaN
  | _ => NaN
  end.

Definition num_of_Z (k : Z) : num := Fin (Qc_of_Z k).

(** A straight channel 2 -> 1 -> 0 with outlet 0, node 1 draining through
    link 0 and node 2 through link 1; the outlet has no link. *)
Definition channel_with (status areas : list Z) (len0 len1 : Z) : Grid :=
  mkGrid status (map num_of_Z areas)
    [0; 0; 1] [0; 1; 2] [example_bad; 0; 1]
    [num_of_Z len0; num_of_Z len1]
    [num_of_Z 1; num_of_Z 1; num_of_Z 1] [1].

(** The same with drainage area 3 at every node. *)
Definition channel (status : list Z) (len0 len1 : Z) : Grid :=
  channel_with status [3; 3; 3] len0 len1.

Definition force_finder (r : error + ChiFinder) : ChiFinder :=
  match r with
  | inr cf => cf
  | inl _ => mkChiFinder (mkGrid [] [] [] [] [] [] [] []) NaN NaN NaN false [] []
  end.

(** [ChiFinder(grid, reference_concavity=1., min_drainage_area=m,
    reference_area=3., use_true_dx=dx)] *)
Definition finder (g : Grid) (m : Z) (dx : bool) : ChiFinder :=
  force_finder (ChiFinder_init g (num_of_Z 1) (num_of_Z m) (Some (num_of_Z 3)) dx).

Definition run (cf : ChiFinder) (kwds : Kwds) : error + ChiFinder :=
  calculate_chi example_bad example_closed power_example cf kwds.

(** The channel with an upstream order that names a node that does not
    exist. *)
Definition broken_order : Grid :=
  mkGrid [1; 0; 0] [num_of_Z 3; num_of_Z 3; num_of_Z 3]
    [0; 0; 1] [0; 1; 7] [example_bad; 0; 1]
    [num_of_Z 1; num_of_Z 1]
    [num_of_Z 1; num_of_Z 1; num_of_Z 1] [1].

(** The channel on a grid that has no core node. *)
Definition no_core : Grid :=
  mkGrid [1; 4; 4] [num_of_Z 3; num_of_Z 3; num_of_Z 3]
    [0; 0; 1] [0; 1; 2] [example_bad; 0; 1]
    [num_of_Z 1; num_of_Z 1]
    [num_of_Z 1; num_of_Z 1; num_of_Z 1] [].

(** A component whose output arrays hold something left from before. *)
Definition stale (cf : ChiFinder) : ChiFinder :=
  mkChiFinder (_grid cf) (_reftheta cf) (min_drainage cf) (_A0 cf) (use_true_dx cf)
    (map (fun _ => NaN) (chi cf)) (map negb (_mask cf)).

End ChiExamples.

(* ================================================================== *)
(** * Proofs: the filler *)

Lemma py_index_lt len i k : py_index len i = Some k -> (k < len)%nat.
Proof.
  unfold py_index. intros H.
  destruct (_ && _) eqn:E1 in H.
  - injection H as <-. apply andb_true_iff in E1 as [? ?]. lia.
  - destruct (_ && _) eqn:E2 in H; [|discriminate].
    injection H as <-. apply andb_true_iff in E2 as [? ?]. lia.
Qed.

Lemma py_index_of_nat len k : (k < len)%nat -> py_index len (Z.of_nat k) = Some k.
Proof.
  intros H. unfold py_index.
  replace ((0 <=? Z.of_nat k) && (Z.of_nat k <? Z.of_nat len)) with true.
  - by rewrite Nat2Z.id.
  - symmetry. apply andb_true_iff. split; lia.
Qed.

Lemma py_get_Some {A} (a : list A) i x :
  py_get a i = Some x <-> exists k, py_index (length a) i = Some k /\ a !! k = Some x.
Proof.
  unfold py_get. destruct (py_index _ _) as [k|]; split.
  - eauto.
  - by intros (k' & [= ->] & ?).
  - done.
  - by intros (k' & ? & ?).
Qed.

Lemma py_get_None {A} (a : list A) i :
  py_get a i = None <-> py_index (length a) i = None.
Proof.
  unfold py_get. destruct (py_index _ _) as [k|] eqn:E; split; try done.
  intros H. apply py_index_lt in E. apply lookup_lt_is_Some_2 in E as [x Hx]. congruence.
Qed.

Lemma py_set_Some {A} (a : list A) i x a' :
  py_set a i x = Some a' <-> exists k, py_index (length a) i = Some k /\ a' = <[k := x]> a.
Proof.
  unfold py_set. destruct (py_index _ _) as [k|]; split.
  - intros [= <-]. eauto.
  - by intros (k' & [= ->] & ->).
  - done.
  - by intros (k' & ? & ?).
Qed.

Lemma raised_from_refl z : raised_from z z.
Proof. apply Forall2_same_length_lookup. split; [done|]. intros i x y ? ?. simplify_eq. lia. Qed.

Lemma raised_from_trans z0 z1 z2 : raised_from z0 z1 -> raised_from z1 z2 -> raised_from z0 z2.
Proof.
  unfold raised_from. intros H1 H2. revert z2 H2.
  induction H1; intros z2 H2; inversion H2; subst; constructor; eauto; lia.
Qed.

Lemma raised_from_insert z k a b :
  z !! k = Some a -> a <= b -> raised_from z (<[k := b]> z).
Proof.
  intros Hk Hab. apply Forall2_same_length_lookup. split; [by rewrite length_insert|].
  intros i x y Hx Hy. destruct (decide (i = k)) as [->|Hne].
  - rewrite list_lookup_insert_eq in Hy by (by eapply lookup_lt_Some). simplify_eq. done.
  - rewrite list_lookup_insert_ne in Hy by done. simplify_eq. lia.
Qed.

Lemma visit_raised n node st k :
  raised_from (dem st) (dem (outcome_state (visit n node st k))).
Proof.
  unfold visit. destruct (k =? -1); [apply raised_from_refl|].
  destruct (py_get (closed st) k) as [[|]|]; try apply raised_from_refl.
  destruct (py_set (closed st) k true) as [c'|]; [|apply raised_from_refl]. simpl.
  destruct (py_get (dem st) k) as [zn|] eqn:Hn; [|apply raised_from_refl].
  destruct (py_get (dem st) node) as [zc|] eqn:Hc; [|apply raised_from_refl].
  destruct (zn <=? zc) eqn:Hle.
  - destruct (py_set (dem st) k zc) as [d'|] eqn:Hs; [|apply raised_from_refl].
    apply py_set_Some in Hs as (j & Hj & ->). apply py_get_Some in Hn as (j' & Hj' & Hz).
    rewrite Hj in Hj'. injection Hj' as <-.
    assert (raised_from (dem st) (<[j:=zc]> (dem st))) by (eapply raised_from_insert; eauto; lia).
    by destruct (queue_full _ _).
  - destruct (queue_full _ _); apply raised_from_refl.
Qed.

Lemma visit_all_raised n node row st :
  raised_from (dem st) (dem (outcome_state (visit_all n node row st))).
Proof.
  revert st. induction row as [|k row IH]; intros st; simpl; [apply raised_from_refl|].
  pose proof (visit_raised n node st k) as H.
  destruct (visit n node st k) as [s|e s]; simpl in *; [|done].
  eapply raised_from_trans; eauto.
Qed.

Lemma next_node_dem st node st' : next_node st = Some (node, st') -> dem st' = dem st.
Proof.
  unfold next_node. destruct (raised_node st); [|by intros [= <- <-]].
  destruct (priority_get _) as [[[? ?] ?]|]; [|done]. by intros [= <- <-].
Qed.

Lemma flood_raised fuel n nbrs st :
  raised_from (dem st) (dem (outcome_state (flood fuel n nbrs st))).
Proof.
  revert st. induction fuel as [|fuel IH]; intros st; simpl.
  - destruct (next_node st) as [[node st']|]; apply raised_from_refl.
  - destruct (next_node st) as [[node st']|] eqn:Hn; [|apply raised_from_refl].
    apply next_node_dem in Hn. rewrite <- Hn.
    destruct (py_get nbrs node) as [row|]; [|apply raised_from_refl].
    pose proof (visit_all_raised n node row st') as H.
    destruct (visit_all n node row st') as [s|e s]; simpl in *; [|done].
    eapply raised_from_trans; eauto.
Qed.

Lemma seed_dem n st i : dem (outcome_state (seed n st i)) = dem st.
Proof.
  unfold seed. destruct (py_get _ _); [|done]. destruct (queue_full _ _); [done|].
  simpl. by destruct (py_set _ _ _).
Qed.

Lemma seed_all_dem n l st : dem (outcome_state (seed_all n l st)) = dem st.
Proof.
  revert st. induction l as [|i l IH]; intros st; simpl; [done|].
  pose proof (seed_dem n st i) as H.
  destruct (seed n st i) as [s|e s]; simpl in *; [|done]. by rewrite IH.
Qed.

Lemma pit_fill_run_raised pf :
  raised_from (_dem pf) (dem (outcome_state (pit_fill_run pf))).
Proof.
  unfold pit_fill_run.
  pose proof (seed_all_dem (_n pf) (_open_boundary pf) (initial_state pf)) as H.
  destruct (seed_all _ _ _) as [s|e s]; simpl in *.
  - rewrite <- H. apply flood_raised.
  - rewrite H. apply raised_from_refl.
Qed.

(** *** One neighbour visit, case by case *)

Lemma visit_Ok n node st k s' :
  state_ok n st -> visit n node st k = Ok s' ->
  (k = -1 /\ s' = st) \/
  (exists m, k <> -1 /\ py_index n k = Some m /\ is_closed st m /\ s' = st) \/
  (exists m c zn zc,
      k <> -1 /\ py_index n k = Some m /\ closed st !! m = Some false /\
      py_index n node = Some c /\ dem st !! m = Some zn /\ dem st !! c = Some zc /\
      ((zn <= zc /\ s' = raise_to st k m zc) \/ (zc < zn /\ s' = defer st k m zn))).
Proof.
  intros [Hc Hd _ _] H. unfold visit in H.
  destruct (k =? -1) eqn:Ek.
  { left. injection H as <-. split; [lia|done]. }
  right. assert (k <> -1) as Hk by lia.
  destruct (py_get (closed st) k) as [b|] eqn:Eg; [|done].
  apply py_get_Some in Eg as (m & Hm & Hb). rewrite Hc in Hm.
  destruct b.
  { left. injection H as <-. by exists m. }
  right.
  destruct (py_set (closed st) k true) as [c'|] eqn:Es; [|done].
  apply py_set_Some in Es as (m' & Hm' & ->). rewrite Hc, Hm in Hm'. injection Hm' as <-.
  simpl in H.
  destruct (py_get (dem st) k) as [zn|] eqn:En; [|done].
  apply py_get_Some in En as (m' & Hm' & Hzn). rewrite Hd, Hm in Hm'. injection Hm' as <-.
  destruct (py_get (dem st) node) as [zc|] eqn:Ec; [|done].
  apply py_get_Some in Ec as (c & Hcn & Hzc). rewrite Hd in Hcn.
  exists m, c, zn, zc. repeat (split; [done|]).
  destruct (zn <=? zc) eqn:Hle.
  - left. split; [lia|].
    destruct (py_set (dem st) k zc) as [d'|] eqn:Es; [|done].
    apply py_set_Some in Es as (m' & Hm' & ->). rewrite Hd, Hm in Hm'. injection Hm' as <-.
    destruct (queue_full _ _); [done|]. by injection H as <-.
  - right. split; [lia|].
    destruct (queue_full _ _); [done|]. by injection H as <-.
Qed.

Lemma is_closed_insert st m v :
  closed st !! v = Some true -> (<[m := true]> (closed st)) !! v = Some true.
Proof.
  intros H. destruct (decide (v = m)) as [->|Hne].
  - rewrite list_lookup_insert_eq; [done|]. by eapply lookup_lt_Some.
  - by rewrite list_lookup_insert_ne.
Qed.

Lemma raise_to_ok n st k m zc zn :
  state_ok n st -> py_index n k = Some m -> closed st !! m = Some false ->
  dem st !! m = Some zn -> state_ok n (raise_to st k m zc).
Proof.
  intros [Hc Hd Hr Hq] Hm Hcl Hzn.
  assert (forall v, is_closed st v -> is_closed (raise_to st k m zc) v) as Hmono.
  { intros v Hv. by apply (is_closed_insert st m v). }
  assert (forall v e, is_closed st v -> dem st !! v = Some e ->
                      dem (raise_to st k m zc) !! v = Some e) as Hkeep.
  { intros v e Hv He. simpl. rewrite list_lookup_insert_ne; [done|].
    intros ->. unfold is_closed in Hv. congruence. }
  split; simpl.
  - by rewrite length_insert.
  - by rewrite length_insert.
  - intros k' [Hk'|Hk']%elem_of_app.
    + destruct (Hr k' Hk') as (v & ? & ?). eauto.
    + apply list_elem_of_singleton in Hk' as ->. exists m. split; [done|].
      unfold is_closed. simpl. rewrite list_lookup_insert_eq; [done|].
      by eapply lookup_lt_Some.
  - intros e k' Hk'. destruct (Hq e k' Hk') as (v & ? & ? & ?). exists v. eauto.
Qed.

Lemma defer_ok n st k m zn :
  state_ok n st -> py_index n k = Some m -> closed st !! m = Some false ->
  dem st !! m = Some zn -> state_ok n (defer st k m zn).
Proof.
  intros [Hc Hd Hr Hq] Hm Hcl Hzn.
  assert (forall v, is_closed st v -> is_closed (defer st k m zn) v) as Hmono.
  { intros v Hv. by apply (is_closed_insert st m v). }
  split; simpl.
  - by rewrite length_insert.
  - done.
  - intros k' Hk'. destruct (Hr k' Hk') as (v & ? & ?). eauto.
  - intros e k' [Hk'|Hk']%elem_of_app.
    + destruct (Hq e k' Hk') as (v & ? & ? & ?). exists v. eauto.
    + apply list_elem_of_singleton in Hk'. injection Hk' as -> ->. exists m.
      split; [done|]. split; [|done].
      unfold is_closed. simpl. rewrite list_lookup_insert_eq; [done|].
      by eapply lookup_lt_Some.
Qed.

Lemma visit_state_ok n node st k s' :
  state_ok n st -> visit n node st k = Ok s' -> state_ok n s'.
Proof.
  intros Hok H. destruct (visit_Ok _ _ _ _ _ Hok H)
    as [[_ ->]|[(m & _ & _ & _ & ->)|(m & c & zn & zc & _ & Hm & Hcl & _ & Hzn & _ & [[_ ->]|[_ ->]])]];
    eauto using raise_to_ok, defer_ok.
Qed.

Lemma count_open_insert (c : list bool) m :
  c !! m = Some false -> (count_open (<[m := true]> c) + 1 = count_open c)%nat.
Proof.
  revert m. induction c as [|b c IH]; intros [|m] H; simpl in *; try done.
  - injection H as ->. lia.
  - specialize (IH m H). lia.
Qed.

Lemma visit_measure n node st k s' :
  state_ok n st -> visit n node st k = Ok s' -> measure s' = measure st.
Proof.
  intros Hok H. destruct (visit_Ok _ _ _ _ _ Hok H)
    as [[_ ->]|[(m & _ & _ & _ & ->)|(m & c & zn & zc & _ & Hm & Hcl & _ & Hzn & _ & [[_ ->]|[_ ->]])]];
    try done; unfold measure; simpl; rewrite length_app; simpl;
    pose proof (count_open_insert _ _ Hcl); lia.
Qed.

Lemma count_open_pos (c : list bool) m : c !! m = Some false -> (1 <= count_open c)%nat.
Proof. intros H. pose proof (count_open_insert _ _ H). lia. Qed.

Lemma queue_full_false {A} n (q : list A) : (length q < n)%nat -> queue_full n q = false.
Proof.
  intros H. unfold queue_full. apply andb_false_iff. right. apply Nat.leb_gt. lia.
Qed.

(** A visit raises nothing when the ids it touches are nodes. *)
Lemma visit_total n node st k :
  state_ok n st -> (measure st <= n)%nat ->
  k = -1 \/ is_Some (py_index n k) -> is_Some (py_index n node) ->
  exists s', visit n node st k = Ok s'.
Proof.
  intros [Hc Hd Hr Hq] Hmeas Hk [c Hnode]. unfold visit.
  destruct (k =? -1) eqn:Ek; [eauto|].
  destruct Hk as [->|[m Hm]]; [done|].
  destruct (lookup_lt_is_Some_2 (closed st) m) as [b Hb].
  { rewrite Hc. by eapply py_index_lt. }
  assert (py_get (closed st) k = Some b) as ->.
  { apply py_get_Some. exists m. by rewrite Hc. }
  destruct b; [eauto|].
  assert (py_set (closed st) k true = Some (<[m := true]> (closed st))) as ->.
  { apply py_set_Some. exists m. by rewrite Hc. }
  simpl.
  destruct (lookup_lt_is_Some_2 (dem st) m) as [zn Hzn].
  { rewrite Hd. by eapply py_index_lt. }
  destruct (lookup_lt_is_Some_2 (dem st) c) as [zc Hzc].
  { rewrite Hd. by eapply py_index_lt. }
  assert (py_get (dem st) k = Some zn) as ->.
  { apply py_get_Some. exists m. by rewrite Hd. }
  assert (py_get (dem st) node = Some zc) as ->.
  { apply py_get_Some. exists c. by rewrite Hd. }
  pose proof (count_open_pos _ _ Hb) as Hpos. unfold measure in Hmeas.
  destruct (zn <=? zc).
  - assert (py_set (dem st) k zc = Some (<[m := zc]> (dem st))) as ->.
    { apply py_set_Some. exists m. by rewrite Hd. }
    rewrite queue_full_false by lia. eauto.
  - rewrite queue_full_false by lia. eauto.
Qed.

Lemma visit_all_state_ok n node row st s' :
  state_ok n st -> visit_all n node row st = Ok s' ->
  state_ok n s' /\ measure s' = measure st.
Proof.
  revert st. induction row as [|k row IH]; intros st Hok H; simpl in H.
  - by injection H as <-.
  - destruct (visit n node st k) as [s|e s] eqn:Hv; simpl in H; [|done].
    pose proof (visit_state_ok _ _ _ _ _ Hok Hv) as Hok'.
    pose proof (visit_measure _ _ _ _ _ Hok Hv) as Hm'.
    destruct (IH s Hok' H) as [? ?]. split; [done|congruence].
Qed.

Lemma visit_all_total n node row st :
  state_ok n st -> (measure st <= n)%nat ->
  (forall k, k ∈ row -> k = -1 \/ is_Some (py_index n k)) ->
  is_Some (py_index n node) ->
  exists s', visit_all n node row st = Ok s'.
Proof.
  revert st. induction row as [|k row IH]; intros st Hok Hm Hrow Hnode; simpl; [eauto|].
  destruct (visit_total n node st k Hok Hm) as [s Hs]; [apply Hrow; by left|done|].
  rewrite Hs. simpl. apply IH; [by eapply visit_state_ok| |intros; apply Hrow; by right|done].
  erewrite visit_measure; eauto.
Qed.

(** *** The heap *)

Lemma pair_leb_refl x : pair_leb x x = true.
Proof. unfold pair_leb. apply orb_true_iff. right. apply andb_true_iff. split; lia. Qed.

Lemma pair_leb_trans x y z : pair_leb x y = true -> pair_leb y z = true -> pair_leb x z = true.
Proof.
  unfold pair_leb. rewrite !orb_true_iff, !andb_true_iff. intros H1 H2.
  destruct (Z.lt_trichotomy (fst x) (fst z)) as [?|[?|?]]; [left; lia| |lia].
  right. split; lia.
Qed.

Lemma pair_leb_total x y : pair_leb x y = false -> pair_leb y x = true.
Proof.
  unfold pair_leb. rewrite orb_false_iff, andb_false_iff, orb_true_iff, andb_true_iff.
  intros [H1 H2]. destruct (Z.lt_trichotomy (fst x) (fst y)) as [?|[?|?]]; [lia| |left; lia].
  right. split; lia.
Qed.

Lemma pq_min_in x q : pq_min x q ∈ x :: q.
Proof.
  revert x. induction q as [|y q IH]; intros x; simpl; [by left|].
  destruct (pair_leb x y).
  - specialize (IH x). apply elem_of_cons in IH as [->|?]; [by left|by right; right].
  - right. apply IH.
Qed.

Lemma pq_min_least x q y : y ∈ x :: q -> pair_leb (pq_min x q) y = true.
Proof.
  revert x y. induction q as [|z q IH]; intros x y Hy; simpl.
  - apply list_elem_of_singleton in Hy as ->. apply pair_leb_refl.
  - destruct (pair_leb x z) eqn:E.
    + apply elem_of_cons in Hy as [->|[->|Hy]%elem_of_cons].
      * apply IH. by left.
      * eapply pair_leb_trans; [|exact E]. apply IH. by left.
      * apply IH. by right.
    + apply elem_of_cons in Hy as [->|[->|Hy]%elem_of_cons].
      * eapply pair_leb_trans; [|apply pair_leb_total, E]. apply IH. by left.
      * apply IH. by left.
      * apply IH. by right.
Qed.

Lemma pq_remove_spec m q :
  m ∈ q ->
  (length (pq_remove m q) + 1 = length q)%nat /\
  (forall y, y ∈ pq_remove m q -> y ∈ q) /\
  (forall y, y ∈ q -> y = m \/ y ∈ pq_remove m q).
Proof.
  induction q as [|y q IH]; intros Hm; [by apply elem_of_nil in Hm|]. simpl.
  destruct ((fst m =? fst y) && (snd m =? snd y)) eqn:E.
  - apply andb_true_iff in E as [E1 E2].
    assert (y = m) as -> by (destruct m, y; simpl in *; f_equal; lia).
    split; [lia|]. split; [intros; by right|].
    intros z [->|?]%elem_of_cons; eauto.
  - apply elem_of_cons in Hm as [->|Hm].
    { apply andb_false_iff in E as [E|E]; lia. }
    destruct (IH Hm) as (Hl & Hs & Hc). simpl. split; [lia|]. split.
    + intros z [->|?]%elem_of_cons; [by left|right; eauto].
    + intros z [->|Hz]%elem_of_cons; [right; by left|].
      destruct (Hc z Hz); [by left|right; by right].
Qed.

Lemma priority_get_spec q m q' :
  priority_get q = Some (m, q') ->
  m ∈ q /\ (length q' + 1 = length q)%nat /\
  (forall y, y ∈ q' -> y ∈ q) /\ (forall y, y ∈ q -> y = m \/ y ∈ q') /\
  (forall y, y ∈ q -> fst m <= fst y).
Proof.
  destruct q as [|x q0]; [done|]. unfold priority_get. intros [= <- <-].
  pose proof (pq_min_in x q0) as Hin.
  destruct (pq_remove_spec _ _ Hin) as (Hl & Hs & Hc).
  repeat split; try done.
  intros y Hy. pose proof (pq_min_least x q0 y Hy) as Hle.
  unfold pair_leb in Hle. apply orb_true_iff in Hle as [?|[? _]%andb_true_iff]; lia.
Qed.

(** *** Loop invariants, generically *)

Lemma visit_all_inv (P : state -> Prop) n node row st s' :
  (forall s k s1, k ∈ row -> state_ok n s -> P s -> visit n node s k = Ok s1 -> P s1) ->
  state_ok n st -> P st -> visit_all n node row st = Ok s' -> P s'.
Proof.
  revert st. induction row as [|k row IH]; intros st Hstep Hok HP H; simpl in H.
  - by injection H as <-.
  - destruct (visit n node st k) as [s|e s] eqn:Hv; simpl in H; [|done].
    apply (IH s); [| |eapply Hstep; eauto; by left|done].
    + intros s0 k0 s1 Hk0. apply Hstep. by right.
    + by eapply visit_state_ok.
Qed.

Lemma flood_inv (P : state -> Prop) fuel n nbrs st s' :
  (forall s node s1 row s2,
      state_ok n s -> P s -> next_node s = Some (node, s1) ->
      py_get nbrs node = Some row -> visit_all n node row s1 = Ok s2 ->
      state_ok n s1 /\ P s2) ->
  state_ok n st -> P st -> flood fuel n nbrs st = Ok s' ->
  state_ok n s' /\ P s' /\ next_node s' = None.
Proof.
  intros Hstep. revert st. induction fuel as [|fuel IH]; intros st Hok HP H; simpl in H.
  - destruct (next_node st) as [[node st1]|] eqn:Hn; [done|]. by injection H as <-.
  - destruct (next_node st) as [[node st1]|] eqn:Hn; [|by injection H as <-].
    destruct (py_get nbrs node) as [row|] eqn:Hrow; [|done].
    destruct (visit_all n node row st1) as [s2|e s2] eqn:Hv; simpl in H; [|done].
    destruct (Hstep _ _ _ _ _ Hok HP Hn Hrow Hv) as [Hok1 HP2].
    apply (IH s2); [|done|done].
    by eapply visit_all_state_ok.
Qed.

Lemma next_node_spec n st node st' :
  state_ok n st -> next_node st = Some (node, st') ->
  state_ok n st' /\ (measure st' + 1 = measure st)%nat /\
  closed st' = closed st /\ dem st' = dem st /\
  (exists c, py_index n node = Some c /\ is_closed st c) /\
  (forall v, queued n st' v -> queued n st v) /\
  (forall v, queued n st v -> queued n st' v \/ py_index n node = Some v).
Proof.
  intros [Hc Hd Hr Hq] H. unfold next_node in H.
  destruct (raised_node st) as [|r rs] eqn:Er.
  - destruct (priority_get (priority_queue st)) as [[[e k] q']|] eqn:Eg; [|done].
    injection H as <- <-.
    destruct (priority_get_spec _ _ _ Eg) as (Hin & Hlen & Hsub & Hcov & _).
    split.
    { split; simpl; [done|done| |].
      - intros k' Hk'. by apply elem_of_nil in Hk'.
      - intros e' k' Hk'. apply Hq. by apply Hsub. }
    split; [unfold measure; simpl; rewrite Er; simpl; lia|].
    split; [done|]. split; [done|]. split.
    { destruct (Hq _ _ Hin) as (v & ? & ? & ?). eauto. }
    split.
    + intros v [(k' & Hk' & _)|(e' & k' & Hk' & Hv)]; [by apply elem_of_nil in Hk'|].
      right. exists e', k'. split; [by apply Hsub|done].
    + intros v [(k' & Hk' & _)|(e' & k' & Hk' & Hv)].
      { rewrite Er in Hk'. by apply elem_of_nil in Hk'. }
      destruct (Hcov _ Hk') as [[= -> ->]|?]; [by right|].
      left. right. by exists e', k'.
  - injection H as <- <-.
    split.
    { split; simpl; [done|done| |done].
      intros k' Hk'. apply Hr. by right. }
    split; [unfold measure; simpl; rewrite Er; simpl; lia|].
    split; [done|]. split; [done|]. split.
    { destruct (Hr r) as (v & ? & ?); [by left|]. eauto. }
    split.
    + intros v [(k' & Hk' & Hv)|(e' & k' & Hk' & Hv)].
      * left. exists k'. rewrite Er. split; [by right|done].
      * right. by exists e', k'.
    + intros v [(k' & Hk' & Hv)|(e' & k' & Hk' & Hv)].
      * rewrite Er in Hk'. apply elem_of_cons in Hk' as [->|Hk']; [by right|].
        left. left. by exists k'.
      * left. right. by exists e', k'.
Qed.

(** *** Seeding *)

Lemma np_where_from_spec {A} (p : A -> bool) k (a : list A) :
  exists js, np_where_from p k a = map Z.of_nat js /\ NoDup js /\
    forall j, j ∈ js <-> (k <= j)%nat /\ exists x, a !! (j - k)%nat = Some x /\ p x = true.
Proof.
  revert k. induction a as [|x a IH]; intros k; simpl.
  - exists []. split; [done|]. split; [constructor|].
    intros j. split; [by intros ?%elem_of_nil|]. by intros (_ & y & ? & _).
  - destruct (IH (S k)) as (js & -> & Hnd & Hjs).
    assert (forall j, (S k <= j)%nat -> (x :: a) !! (j - k)%nat = a !! (j - S k)%nat) as Hshift.
    { intros j Hj. replace (j - k)%nat with (S (j - S k)) by lia. done. }
    destruct (p x) eqn:Hp.
    + exists (k :: js). split; [done|]. split.
      * constructor; [|done]. intros Hk. apply Hjs in Hk as [? _]. lia.
      * intros j. rewrite elem_of_cons, Hjs. split.
        -- intros [->|[Hj (y & Hy & Hpy)]].
           ++ split; [lia|]. exists x. by rewrite Nat.sub_diag.
           ++ split; [lia|]. exists y. by rewrite Hshift.
        -- intros [Hj (y & Hy & Hpy)]. destruct (decide (j = k)) as [->|Hne]; [by left|].
           right. split; [lia|]. exists y. by rewrite <- Hshift by lia.
    + exists js. split; [done|]. split; [done|].
      intros j. rewrite Hjs. split.
      * intros [Hj (y & Hy & Hpy)]. split; [lia|]. exists y. by rewrite Hshift.
      * intros [Hj (y & Hy & Hpy)]. destruct (decide (j = k)) as [->|Hne].
        { rewrite Nat.sub_diag in Hy. simpl in Hy. congruence. }
        split; [lia|]. exists y. by rewrite <- Hshift by lia.
Qed.

Lemma np_where_spec {A} (p : A -> bool) (a : list A) :
  exists js, np_where p a = map Z.of_nat js /\ NoDup js /\
    forall j, j ∈ js <-> exists x, a !! j = Some x /\ p x = true.
Proof.
  destruct (np_where_from_spec p 0 a) as (js & H & Hnd & Hjs).
  exists js. split; [done|]. split; [done|].
  intros j. rewrite Hjs, Nat.sub_0_r. split; [by intros [_ ?]|]. intros ?. split; [lia|done].
Qed.

Lemma seed_spec n st j :
  state_ok n st -> (measure st <= n)%nat -> (j < n)%nat -> closed st !! j = Some false ->
  exists zj s, dem st !! j = Some zj /\ seed n st (Z.of_nat j) = Ok s /\
    s = mkState (dem st) (<[j := true]> (closed st)) (raised_node st)
                (priority_queue st ++ [(zj, Z.of_nat j)]).
Proof.
  intros [Hc Hd Hr Hq] Hm Hj Hcl. unfold seed.
  destruct (lookup_lt_is_Some_2 (dem st) j) as [zj Hzj]; [lia|].
  exists zj. eexists. split; [done|].
  assert (py_get (dem st) (Z.of_nat j) = Some zj) as ->.
  { apply py_get_Some. exists j. split; [|done]. apply py_index_of_nat. lia. }
  pose proof (count_open_pos _ _ Hcl). unfold measure in Hm.
  rewrite queue_full_false by lia. simpl.
  assert (py_set (closed st) (Z.of_nat j) true = Some (<[j := true]> (closed st))) as ->.
  { apply py_set_Some. exists j. split; [|done]. apply py_index_of_nat. lia. }
  done.
Qed.

Lemma seed_all_spec n js st :
  NoDup js -> (forall j, j ∈ js -> (j < n)%nat /\ closed st !! j = Some false) ->
  state_ok n st -> (measure st <= n)%nat ->
  exists s, seed_all n (map Z.of_nat js) st = Ok s /\ state_ok n s /\
    measure s = measure st /\ dem s = dem st /\ raised_node s = raised_node st /\
    (forall v, is_closed s v <-> is_closed st v \/ v ∈ js) /\
    (forall v, queued n st v \/ v ∈ js -> queued n s v).
Proof.
  revert st. induction js as [|j js IH]; intros st Hnd Hjs Hok Hm; simpl.
  - exists st. split; [done|]. split; [done|]. split; [done|]. split; [done|].
    split; [done|]. split.
    + intros v. split; [by left|]. by intros [?|?%elem_of_nil].
    + by intros v [?|?%elem_of_nil].
  - apply NoDup_cons in Hnd as [Hj Hnd].
    destruct (Hjs j) as [Hjn Hcl]; [by left|].
    destruct (seed_spec n st j Hok Hm Hjn Hcl) as (zj & s1 & Hzj & -> & Hs1). simpl.
    assert (state_ok n s1) as Hok1.
    { subst s1. change (state_ok n (defer st (Z.of_nat j) j zj)).
      eapply defer_ok; eauto. by apply py_index_of_nat. }
    assert (measure s1 = measure st) as Hm1.
    { subst s1. unfold measure. simpl. rewrite length_app. simpl.
      pose proof (count_open_insert _ _ Hcl). lia. }
    destruct (IH s1) as (s & Hs & Hoks & Hms & Hds & Hrs & Hcs & Hqs); [done| |done|lia|].
    { intros j' Hj'. destruct (Hjs j') as [? ?]; [by right|]. split; [done|].
      subst s1. simpl. rewrite list_lookup_insert_ne; [done|]. by intros ->. }
    exists s. split; [done|]. split; [done|]. split; [lia|].
    split; [by rewrite Hds, Hs1|]. split; [by rewrite Hrs, Hs1|]. split.
    + intros v. rewrite Hcs, elem_of_cons. unfold is_closed. subst s1. simpl.
      destruct (decide (v = j)) as [->|Hne].
      * rewrite list_lookup_insert_eq by (by eapply lookup_lt_Some).
        split; [intros _; right; by left|tauto].
      * rewrite list_lookup_insert_ne by done. tauto.
    + intros v Hv. apply Hqs. rewrite elem_of_cons in Hv.
      destruct Hv as [[(k & ? & ?)|(e & k & ? & ?)]|[->|?]]; [| | |by right].
      * left. left. exists k. by subst s1.
      * left. right. exists e, k. subst s1. simpl. split; [|done].
        apply elem_of_app. by left.
      * left. right. exists zj, (Z.of_nat j). subst s1. simpl. split.
        -- apply elem_of_app. right. by left.
        -- by apply py_index_of_nat.
Qed.

(** *** The loop ends within its bound *)

Lemma flood_fuel_enough fuel n nbrs st e s :
  state_ok n st -> (measure st <= fuel)%nat ->
  flood fuel n nbrs st = Raise e s -> e <> OutOfFuel.
Proof.
  revert st. induction fuel as [|fuel IH]; intros st Hok Hm H; simpl in H.
  - destruct (next_node st) as [[node st1]|] eqn:Hn; [|done].
    destruct (next_node_spec _ _ _ _ Hok Hn) as (_ & Hm1 & _). lia.
  - destruct (next_node st) as [[node st1]|] eqn:Hn; [|done].
    destruct (next_node_spec _ _ _ _ Hok Hn) as (Hok1 & Hm1 & _).
    destruct (py_get nbrs node) as [row|]; [|by injection H as <- _].
    destruct (visit_all n node row st1) as [s2|e2 s2] eqn:Hv; simpl in H.
    + destruct (visit_all_state_ok _ _ _ _ _ Hok1 Hv) as [Hok2 Hm2].
      apply (IH s2); [done|lia|done].
    + injection H as <- _. clear IH Hn Hm Hm1 Hok.
      revert st1 Hok1 Hv. induction row as [|k row IHr]; intros st1 Hok1 Hv; simpl in Hv; [done|].
      destruct (visit n node st1 k) as [s3|e3 s3] eqn:Hv1; simpl in Hv.
      * apply (IHr s3); [by eapply visit_state_ok|done].
      * injection Hv as <- _. unfold visit in Hv1.
        repeat match type of Hv1 with
               | (if ?b then _ else _) = _ => destruct b
               | match ?x with _ => _ end = _ => destruct x
               end; simpl in *; congruence.
Qed.

Lemma flood_total fuel n nbrs st :
  adjacency_ok n nbrs -> state_ok n st -> (measure st <= fuel)%nat -> (measure st <= n)%nat ->
  exists s', flood fuel n nbrs st = Ok s'.
Proof.
  intros [Hlen Hadj]. revert st. induction fuel as [|fuel IH]; intros st Hok Hm Hmn; simpl.
  - destruct (next_node st) as [[node st1]|] eqn:Hn; [|eauto].
    destruct (next_node_spec _ _ _ _ Hok Hn) as (_ & Hm1 & _). lia.
  - destruct (next_node st) as [[node st1]|] eqn:Hn; [|eauto].
    destruct (next_node_spec _ _ _ _ Hok Hn) as (Hok1 & Hm1 & _ & _ & (c & Hc & _) & _).
    destruct (lookup_lt_is_Some_2 nbrs c) as [row Hrow].
    { rewrite Hlen. by eapply py_index_lt. }
    assert (py_get nbrs node = Some row) as ->.
    { apply py_get_Some. exists c. by rewrite Hlen. }
    destruct (visit_all_total n node row st1) as [s2 Hs2]; [done|lia| |by exists c|].
    { intros k Hk. eapply Hadj; [|done]. by eapply list_elem_of_lookup_2. }
    rewrite Hs2. simpl.
    destruct (visit_all_state_ok _ _ _ _ _ Hok1 Hs2) as [Hok2 Hm2].
    apply IH; [done|lia|lia].
Qed.

(** *** The filler as constructed *)

Lemma count_open_replicate n : count_open (replicate n false) = n.
Proof. induction n; simpl; lia. Qed.

Lemma concatenate_axis1_length a b r :
  concatenate_axis1 a b = Some r -> length r = length a.
Proof.
  revert b r. induction a as [|ra a IH]; intros [|rb b] r H; simpl in H; try done.
  - by injection H as <-.
  - destruct (concatenate_axis1 a b) as [r'|] eqn:E; [|done].
    injection H as <-. simpl. f_equal. eauto.
Qed.

Lemma PitFiller_init_fields BAD g pf :
  PitFiller_init BAD g = inr pf ->
  _grid pf = g /\ _dem pf = topographic__elevation g /\ _n pf = number_of_nodes g /\
  _open_boundary pf = np_where (fun s => (s =? 1) || (s =? 2)) (status_at_node g) /\
  length (_neighbors pf) = length (neighbors_at_node g).
Proof.
  unfold PitFiller_init. destruct (concatenate_axis1 _ _) as [nb|] eqn:E; [|done].
  intros [= <-]. simpl. repeat split.
  unfold mask_bad. rewrite length_map. by eapply concatenate_axis1_length.
Qed.

Lemma initial_state_ok pf :
  length (_dem pf) = _n pf ->
  state_ok (_n pf) (initial_state pf) /\ measure (initial_state pf) = _n pf.
Proof.
  intros Hd. split.
  - split; simpl; [by rewrite length_replicate|done| |];
      intros; by match goal with H : _ ∈ [] |- _ => apply elem_of_nil in H end.
  - unfold measure. simpl. apply count_open_replicate.
Qed.

(** After seeding a filler built by [PitFiller_init]. *)
Lemma seeded BAD g pf :
  PitFiller_init BAD g = inr pf -> length (topographic__elevation g) = number_of_nodes g ->
  exists s, seed_all (_n pf) (_open_boundary pf) (initial_state pf) = Ok s /\
    state_ok (_n pf) s /\ measure s = _n pf /\ dem s = _dem pf /\ raised_node s = [] /\
    (forall v, is_closed s v <-> open_boundary g v) /\
    (forall v, is_closed s v -> queued (_n pf) s v) /\
    (forall v, is_seed (_n pf) (_open_boundary pf) v <-> open_boundary g v).
Proof.
  intros Hinit Hlen.
  destruct (PitFiller_init_fields _ _ _ Hinit) as (Hg & Hd & Hn & Ho & _).
  destruct (np_where_spec (fun s => (s =? 1) || (s =? 2)) (status_at_node g))
    as (js & Hjs & Hnd & Hmem).
  assert (forall v, v ∈ js <-> open_boundary g v) as Hopen.
  { intros v. rewrite Hmem. unfold open_boundary. split; intros (x & Hx & Hp); exists x.
    - split; [done|]. apply orb_true_iff in Hp. lia.
    - split; [done|]. apply orb_true_iff. lia. }
  destruct (initial_state_ok pf) as [Hok Hm]; [congruence|].
  destruct (seed_all_spec (_n pf) js (initial_state pf)) as
    (s & Hs & Hoks & Hms & Hds & Hrs & Hcs & Hqs); [done| |done|lia|].
  { intros j Hj. apply Hmem in Hj as (x & Hx & _). apply lookup_lt_Some in Hx.
    split; [rewrite Hn; exact Hx|]. simpl. apply lookup_replicate. split; [done|].
    rewrite Hn. exact Hx. }
  assert (forall v, is_closed s v <-> v ∈ js) as Hcl.
  { intros v. rewrite Hcs. split; [|by right]. intros [Hv|?]; [|done].
    unfold is_closed in Hv. simpl in Hv. by apply lookup_replicate in Hv as [? _]. }
  exists s. rewrite Ho, Hjs. split; [done|]. split; [done|]. split; [lia|].
  split; [done|]. split; [done|]. split; [intros v; by rewrite Hcl|]. split.
  - intros v Hv. apply Hqs. right. by apply Hcl.
  - intros v. rewrite <- Hopen. unfold is_seed. split.
    + intros (i & Hi & Hv). apply list_elem_of_fmap in Hi as (j & -> & Hj).
      assert (j < _n pf)%nat.
      { apply Hmem in Hj as (x & Hx & _). apply lookup_lt_Some in Hx. by rewrite Hn. }
      rewrite py_index_of_nat in Hv by done. by injection Hv as <-.
    + intros Hv. exists (Z.of_nat v). split; [by apply list_elem_of_fmap_2|].
      apply py_index_of_nat. apply Hmem in Hv as (x & Hx & _).
      apply lookup_lt_Some in Hx. by rewrite Hn.
Qed.

Lemma pit_fill_run_total BAD g pf :
  PitFiller_init BAD g = inr pf -> grid_sized g ->
  adjacency_ok (_n pf) (_neighbors pf) ->
  exists s, pit_fill_run pf = Ok s.
Proof.
  intros Hinit [Hlen _] Hadj.
  destruct (seeded _ _ _ Hinit Hlen) as (s0 & Hs0 & Hok & Hm & _).
  unfold pit_fill_run. rewrite Hs0. simpl. apply flood_total; [done|done|lia|lia].
Qed.

(** *** Closed nodes drain to the open boundary *)

Lemma rising_closed n nbrs opens st v : rising n nbrs opens st v -> is_closed st v.
Proof. by intros [? ? ?|? ? ? ? ? ?]. Qed.

Lemma rising_keep n nbrs opens st st' v :
  (forall w, is_closed st w -> is_closed st' w) ->
  (forall w e, is_closed st w -> dem st !! w = Some e -> dem st' !! w = Some e) ->
  rising n nbrs opens st v -> rising n nbrs opens st' v.
Proof.
  intros Hc Hd. induction 1 as [v Hs Hv|u v Hu IH He Hv (zu & zv & Hzu & Hzv & Hle)].
  - apply rising_seed; eauto.
  - eapply rising_step; eauto. exists zu, zv.
    split; [apply Hd; [by eapply rising_closed|done]|]. split; [by apply Hd|done].
Qed.

Lemma visit_rising n nbrs opens node c row st k s' :
  state_ok n st -> all_rising n nbrs opens st /\ is_closed st c ->
  py_index n node = Some c -> nbrs !! c = Some row -> k ∈ row ->
  visit n node st k = Ok s' ->
  all_rising n nbrs opens s' /\ is_closed s' c.
Proof.
  intros Hok [Hall Hc] Hnode Hrow Hk Hv.
  destruct (visit_Ok _ _ _ _ _ Hok Hv)
    as [[_ ->]|[(m & _ & _ & _ & ->)|(m & c' & zn & zc & Hk1 & Hm & Hcl & Hc' & Hzn & Hzc & Hcase)]];
    [done|done|].
  rewrite Hnode in Hc'. injection Hc' as <-.
  assert (c <> m) as Hcm by (intros ->; unfold is_closed in Hc; congruence).
  assert (edge n nbrs c m) as Hedge by (exists row, k; done).
  assert (m < length (closed st))%nat as Hmlt by (by eapply lookup_lt_Some).
  assert (m < length (dem st))%nat as Hmlt' by (by eapply lookup_lt_Some).
  assert (forall s1, closed s1 = <[m := true]> (closed st) ->
            (forall w e, is_closed st w -> dem st !! w = Some e -> dem s1 !! w = Some e) ->
            le_at (dem s1) c m ->
            all_rising n nbrs opens s1 /\ is_closed s1 c) as Hgen.
  { intros s1 Hcs Hds Hle.
    assert (forall w, is_closed st w -> is_closed s1 w) as Hmono.
    { intros w Hw. unfold is_closed. rewrite Hcs. by apply (is_closed_insert st m w). }
    split; [|by apply Hmono].
    intros v Hv1. destruct (decide (v = m)) as [->|Hne].
    - eapply rising_step; [|exact Hedge|done|done].
      eapply rising_keep; [exact Hmono|exact Hds|by apply Hall].
    - eapply rising_keep; [exact Hmono|exact Hds|]. apply Hall.
      unfold is_closed in *. rewrite Hcs in Hv1. by rewrite list_lookup_insert_ne in Hv1. }
  destruct Hcase as [[Hle ->]|[Hlt ->]]; apply Hgen; simpl; try done.
  - intros w e Hw He. rewrite list_lookup_insert_ne; [done|].
    intros <-. unfold is_closed in Hw. congruence.
  - exists zc, zc. rewrite list_lookup_insert_ne by done.
    rewrite list_lookup_insert_eq by done. split; [done|]. split; [done|lia].
  - exists zc, zn. split; [done|]. split; [done|lia].
Qed.

Lemma flood_rising fuel n nbrs opens st s' :
  length nbrs = n -> state_ok n st -> all_rising n nbrs opens st ->
  flood fuel n nbrs st = Ok s' ->
  state_ok n s' /\ all_rising n nbrs opens s' /\ next_node s' = None.
Proof.
  intros Hlen. apply flood_inv.
  intros s node s1 row s2 Hok Hall Hn Hrow Hv.
  destruct (next_node_spec _ _ _ _ Hok Hn) as (Hok1 & _ & Hc1 & Hd1 & (c & Hc & Hcc) & _).
  split; [done|].
  apply py_get_Some in Hrow as (c' & Hc' & Hrow). rewrite Hlen, Hc in Hc'. injection Hc' as <-.
  assert (forall w, is_closed s w -> is_closed s1 w) as Hmono.
  { intros w. unfold is_closed. by rewrite Hc1. }
  eapply (visit_all_inv (fun x => all_rising n nbrs opens x /\ is_closed x c)); [|done| |done].
  - intros x k x1 Hk Hokx Hx Hvx. eapply visit_rising; eauto.
  - split; [|by apply Hmono]. intros v Hv1. eapply rising_keep; [exact Hmono| |].
    + intros w e _. by rewrite Hd1.
    + apply Hall. unfold is_closed in *. by rewrite <- Hc1.
Qed.

Lemma rising_descends n nbrs opens st v :
  rising n nbrs opens st v ->
  exists p o, is_seed n opens o /\ descends n nbrs (dem st) v p o.
Proof.
  induction 1 as [v Hs Hv|u v Hu (p & o & Ho & Hp) He Hv Hle].
  - by exists [], v.
  - exists (u :: p), o. by split.
Qed.

Lemma pit_fill_run_rising BAD g pf s :
  PitFiller_init BAD g = inr pf -> grid_sized g -> pit_fill_run pf = Ok s ->
  state_ok (_n pf) s /\ all_rising (_n pf) (_neighbors pf) (_open_boundary pf) s /\
  next_node s = None.
Proof.
  intros Hinit [Hlen Hrows] Hrun.
  destruct (seeded _ _ _ Hinit Hlen) as (s0 & Hs0 & Hok & Hm & _ & _ & Hcl & _ & Hseed).
  destruct (PitFiller_init_fields _ _ _ Hinit) as (_ & _ & Hn & _ & Hnb).
  unfold pit_fill_run in Hrun. rewrite Hs0 in Hrun. simpl in Hrun.
  eapply flood_rising; [congruence|done| |done].
  intros v Hv. apply rising_seed; [|done]. apply Hseed. by apply Hcl.
Qed.

(** ** C3: the filler never lowers an elevation *)

(** C3. For a filler constructed on any grid, the elevation field the grid
    holds after [pit_fill] has the same length as the field the filler was
    constructed on and is, node by node, at least as high: whether the call
    returns or raises. *)
Theorem pit_fill_never_lowers BAD g pf :
  PitFiller_init BAD g = inr pf ->
  raised_from (topographic__elevation g)
              (topographic__elevation (_grid (fst (pit_fill pf)))).
Proof.
  intros Hinit. destruct (PitFiller_init_fields _ _ _ Hinit) as (Hg & Hd & _).
  pose proof (pit_fill_run_raised pf) as H. unfold pit_fill.
  destruct (pit_fill_run pf) as [s|e s]; simpl in *.
  - by rewrite <- Hd.
  - rewrite Hg. apply raised_from_refl.
Qed.

Lemma pit_fill_never_lowers_witness :
  raised_from [5; 5; 5; 2; 1; 5; 5; 5; 5]
              (topographic__elevation (_grid (fst (pit_fill pit_filler)))).
Proof. apply (pit_fill_never_lowers example_bad pit_grid pit_filler). reflexivity. Defined.

(** ** C4: every visited node drains to the open boundary *)

(** C4. After a [pit_fill] that returns, on a grid whose fields have one
    entry per node: the grid holds the filled surface; from every visited
    (closed) node a walk leads to an open-boundary node, each node walked to
    listing the previous one as a neighbour and being no higher than it; and
    when the adjacency is symmetric, every visited node that is not an open
    boundary has a neighbour that is no higher than itself, so it is not
    strictly below all of its neighbours. *)
Theorem pit_fill_drains BAD g pf s v :
  PitFiller_init BAD g = inr pf -> grid_sized g ->
  pit_fill_run pf = Ok s -> is_closed s v ->
  topographic__elevation (_grid (fst (pit_fill pf))) = dem s /\
  (exists p o, open_boundary g o /\ descends (_n pf) (_neighbors pf) (dem s) v p o) /\
  ((forall a b, edge (_n pf) (_neighbors pf) a b -> edge (_n pf) (_neighbors pf) b a) ->
   ~ open_boundary g v ->
   exists u, edge (_n pf) (_neighbors pf) v u /\ le_at (dem s) u v).
Proof.
  intros Hinit Hsized Hrun Hv.
  destruct (pit_fill_run_rising _ _ _ _ Hinit Hsized Hrun) as (Hok & Hall & _).
  destruct Hsized as [Hlen _].
  destruct (seeded _ _ _ Hinit Hlen) as (_ & _ & _ & _ & _ & _ & _ & _ & Hseed).
  split; [unfold pit_fill; by rewrite Hrun|]. split.
  - destruct (rising_descends _ _ _ _ _ (Hall v Hv)) as (p & o & Ho & Hp).
    exists p, o. split; [by apply Hseed|done].
  - intros Hsym Hnot. destruct (Hall v Hv) as [v Hs _|u v _ He _ Hle].
    + by apply Hseed in Hs.
    + exists u. split; [by apply Hsym|done].
Qed.

(** The adjacency of the example raster is symmetric, and its node 4 is not
    an open boundary. *)
Lemma pit_grid_symmetric a b :
  edge 9 (_neighbors pit_filler) a b -> edge 9 (_neighbors pit_filler) b a.
Proof.
  intros (row & k & Hrow & Hk & Hk1 & Hb).
  do 9 (destruct a as [|a];
        [vm_compute in Hrow; injection Hrow as <-;
         rewrite !elem_of_cons, elem_of_nil in Hk; destruct_or!; subst k; try done;
         vm_compute in Hb; injection Hb as <-;
         match goal with
         | |- edge _ ?nb ?u ?v =>
             exists (default [] (nb !! u)), (Z.of_nat v);
             split; [reflexivity|split; [compute_done|split; [done|reflexivity]]]
         end|]).
  vm_compute in Hrow. discriminate.
Qed.

Lemma pit_grid_core : ~ open_boundary pit_grid 4%nat.
Proof. intros (s & Hs & Hs'). vm_compute in Hs. injection Hs as <-. lia. Qed.

Lemma pit_fill_drains_witness :
  topographic__elevation (_grid (fst (pit_fill pit_filler))) = [5; 5; 5; 2; 2; 5; 5; 5; 5] /\
  (exists p o, open_boundary pit_grid o /\
     descends 9 (_neighbors pit_filler) [5; 5; 5; 2; 2; 5; 5; 5; 5] 4%nat p o) /\
  (exists u, edge 9 (_neighbors pit_filler) 4%nat u /\ le_at [5; 5; 5; 2; 2; 5; 5; 5; 5] u 4%nat).
Proof.
  destruct (pit_fill_drains example_bad pit_grid pit_filler
              (mkState [5; 5; 5; 2; 2; 5; 5; 5; 5] (replicate 9 true) [] []) 4%nat)
    as (Hout & Hpath & Hmin).
  - reflexivity.
  - split; reflexivity.
  - vm_compute. reflexivity.
  - reflexivity.
  - split; [exact Hout|]. split; [exact Hpath|].
    exact (Hmin pit_grid_symmetric pit_grid_core).
Defined.

(** *** The flood front *)

Lemma le_at_trans z a b c : le_at z a b -> le_at z b c -> le_at z a c.
Proof.
  intros (za & zb & Ha & Hb & Hab) (zb' & zc & Hb' & Hc & Hbc).
  exists za, zc. split; [done|]. split; [done|]. rewrite Hb in Hb'. injection Hb' as <-. lia.
Qed.

Lemma le_at_refl z a : is_Some (z !! a) -> le_at z a a.
Proof. intros [x Hx]. exists x, x. split; [done|]. split; [done|lia]. Qed.

Lemma le_at_insert_ne z m x a b :
  a <> m -> b <> m -> le_at z a b -> le_at (<[m := x]> z) a b.
Proof.
  intros Ha Hb (za & zb & ? & ? & ?). exists za, zb.
  rewrite !list_lookup_insert_ne by done. done.
Qed.

Lemma state_ok_queued_closed n st v : state_ok n st -> queued n st v -> is_closed st v.
Proof.
  intros [_ _ Hr Hq] [(k & Hk & Hv)|(e & k & Hk & Hv)].
  - destruct (Hr k Hk) as (v' & Hv' & ?). congruence.
  - destruct (Hq e k Hk) as (v' & Hv' & ? & ?). congruence.
Qed.

Lemma in_raised_queued n st v : in_raised n st v -> queued n st v.
Proof. intros ?. by left. Qed.

Lemma done_mono n nbrs st st' v :
  (forall w, is_closed st w -> is_closed st' w) -> done n nbrs st v -> done n nbrs st' v.
Proof.
  intros Hmono (row & Hrow & Hall). exists row. split; [done|].
  intros k Hk Hk1. destruct (Hall k Hk Hk1) as (m & ? & ?). exists m. eauto.
Qed.

Lemma done_edge n nbrs st v w : done n nbrs st v -> edge n nbrs v w -> is_closed st w.
Proof.
  intros (row & Hrow & Hall) (row' & k & Hrow' & Hk & Hk1 & Hw).
  rewrite Hrow in Hrow'. injection Hrow' as <-.
  destruct (Hall k Hk Hk1) as (m & Hm & Hcl). congruence.
Qed.

Lemma next_node_level n st node st' c :
  state_ok n st -> next_node st = Some (node, st') -> py_index n node = Some c ->
  (forall r, in_raised n st' r -> in_raised n st r) /\
  (in_raised n st c \/ (raised_node st = [] /\ forall v, queued n st v -> le_at (dem st) c v)).
Proof.
  intros [Hc Hd Hr Hq] H Hnode. unfold next_node in H.
  destruct (raised_node st) as [|r rs] eqn:Er.
  - destruct (priority_get (priority_queue st)) as [[[e k] q']|] eqn:Eg; [|done].
    injection H as <- <-.
    destruct (priority_get_spec _ _ _ Eg) as (Hin & _ & _ & _ & Hmin).
    split.
    { intros r (k' & Hk' & _). by apply elem_of_nil in Hk'. }
    right. split; [done|].
    intros v [(k' & Hk' & _)|(e' & k' & Hk' & Hv)].
    { rewrite Er in Hk'. by apply elem_of_nil in Hk'. }
    destruct (Hq _ _ Hin) as (c' & Hc' & _ & Hzc). rewrite Hnode in Hc'. injection Hc' as <-.
    destruct (Hq _ _ Hk') as (v' & Hv' & _ & Hzv). rewrite Hv in Hv'. injection Hv' as <-.
    exists e, e'. split; [done|]. split; [done|]. apply (Hmin _ Hk').
  - injection H as <- <-. split.
    + intros r' (k' & Hk' & Hv). exists k'. rewrite Er. split; [by right|done].
    + left. exists r. rewrite Er. split; [by left|done].
Qed.

Lemma flood_pop n nbrs opens st node st' :
  state_ok n st -> flood_between n nbrs opens st -> next_node st = Some (node, st') ->
  exists c, py_index n node = Some c /\ flood_during n nbrs opens c st'.
Proof.
  intros Hok [Hs Hr Hf Hl] Hn.
  destruct (next_node_spec _ _ _ _ Hok Hn) as (Hok1 & _ & Hc1 & Hd1 & (c & Hc & Hcc) & Hq1 & Hq2).
  destruct (next_node_level _ _ _ _ _ Hok Hn Hc) as (Hr1 & Hlev).
  assert (forall w, is_closed st' w <-> is_closed st w) as Hcl.
  { intros w. unfold is_closed. by rewrite Hc1. }
  exists c. split; [done|]. split.
  - intros v Hv. apply Hcl. eauto.
  - intros v Hv. apply Hr. by apply Hcl.
  - intros v Hv. apply Hcl in Hv. destruct (Hf v Hv) as [Hqv|Hdv].
    + destruct (Hq2 v Hqv) as [?|Hvc]; [by left|].
      right. left. congruence.
    + right. right. eapply done_mono; [|exact Hdv]. intros w. by apply Hcl.
  - by apply Hcl.
  - intros v Hv. rewrite Hd1. apply Hq1 in Hv. destruct Hlev as [Hrc|[_ Hmin]]; eauto.
  - intros r Hr'. rewrite Hd1. apply Hr1 in Hr'.
    destruct Hlev as [Hrc|[He _]].
    + apply Hl; [done|]. by apply in_raised_queued.
    + destruct Hr' as (k & Hk & _). rewrite He in Hk. by apply elem_of_nil in Hk.
Qed.

Lemma visit_closed_mono n node st k s' v :
  state_ok n st -> visit n node st k = Ok s' -> is_closed st v -> is_closed s' v.
Proof.
  intros Hok H Hv. destruct (visit_Ok _ _ _ _ _ Hok H)
    as [[_ ->]|[(m & _ & _ & _ & ->)|(m & c & zn & zc & _ & _ & _ & _ & _ & _ & [[_ ->]|[_ ->]])]];
    try done; by apply (is_closed_insert st m v).
Qed.

Lemma visit_closes n node st k s' :
  state_ok n st -> visit n node st k = Ok s' -> k <> -1 ->
  exists m, py_index n k = Some m /\ is_closed s' m.
Proof.
  intros Hok H Hk. destruct (visit_Ok _ _ _ _ _ Hok H)
    as [[? _]|[(m & _ & Hm & Hcl & ->)|(m & c & zn & zc & _ & Hm & Hcl & _ & _ & _ & [[_ ->]|[_ ->]])]];
    [done|by exists m| |]; exists m; (split; [done|]); unfold is_closed; simpl;
    apply list_lookup_insert_eq; by eapply lookup_lt_Some.
Qed.

Lemma visit_all_closed_mono n node row st s' v :
  state_ok n st -> visit_all n node row st = Ok s' -> is_closed st v -> is_closed s' v.
Proof.
  intros Hok H Hv.
  apply (visit_all_inv (fun x => is_closed x v) n node row st s'); try done.
  intros s k s1 _ Hoks Hs Hv1. by eapply visit_closed_mono.
Qed.

Lemma visit_all_closes n node row st s' k :
  state_ok n st -> visit_all n node row st = Ok s' -> k ∈ row -> k <> -1 ->
  exists m, py_index n k = Some m /\ is_closed s' m.
Proof.
  revert st. induction row as [|k0 row IH]; intros st Hok H Hk Hk1; simpl in H.
  { by apply elem_of_nil in Hk. }
  destruct (visit n node st k0) as [s|e s] eqn:Hv; simpl in H; [|done].
  pose proof (visit_state_ok _ _ _ _ _ Hok Hv) as Hok'.
  apply elem_of_cons in Hk as [->|Hk].
  - destruct (visit_closes _ _ _ _ _ Hok Hv Hk1) as (m & Hm & Hcl).
    exists m. split; [done|]. by eapply visit_all_closed_mono.
  - by apply (IH s).
Qed.

Lemma close_during n nbrs opens c st m s1 :
  state_ok n st -> flood_during n nbrs opens c st ->
  closed st !! m = Some false -> closed s1 = <[m := true]> (closed st) ->
  (forall w e, w <> m -> dem st !! w = Some e -> dem s1 !! w = Some e) ->
  (forall v, queued n st v -> queued n s1 v) -> queued n s1 m ->
  (forall v, queued n s1 v -> queued n st v \/ v = m) ->
  (forall r, in_raised n s1 r -> in_raised n st r \/ (r = m /\ le_at (dem s1) m c)) ->
  le_at (dem s1) c m -> edge n nbrs c m ->
  flood_during n nbrs opens c s1.
Proof.
  intros Hok [Hs Hr Hf Hcur Hab Hlev] Hm Hcs Hds Hq1 Hqm Hq2 Hr2 Hle Hedge.
  assert (forall w, is_closed st w -> is_closed s1 w) as Hmono.
  { intros w Hw. unfold is_closed. rewrite Hcs. by apply (is_closed_insert st m w). }
  assert (forall w, is_closed s1 w -> is_closed st w \/ w = m) as Hinv.
  { intros w Hw. destruct (decide (w = m)) as [->|Hne]; [by right|left].
    unfold is_closed in *. rewrite Hcs in Hw. by rewrite list_lookup_insert_ne in Hw. }
  assert (forall w, is_closed st w -> w <> m) as Hne.
  { intros w Hw ->. unfold is_closed in Hw. congruence. }
  assert (forall a b, is_closed st a -> is_closed st b -> le_at (dem st) a b -> le_at (dem s1) a b)
    as Hkeep.
  { intros a b Ha Hb (za & zb & ? & ? & ?). exists za, zb.
    split; [apply Hds; eauto|]. split; [apply Hds; eauto|done]. }
  split.
  - eauto.
  - intros v [Hv| ->]%Hinv; [eauto|]. eapply reach_step; [|exact Hedge]. eauto.
  - intros v [Hv| ->]%Hinv; [|by left].
    destruct (Hf v Hv) as [?|[?|Hd]]; [left; eauto|right; by left|].
    right. right. by eapply done_mono.
  - eauto.
  - intros v [Hv| ->]%Hq2; [|done].
    apply Hkeep; [done|by eapply state_ok_queued_closed|eauto].
  - intros r [Hr'|[-> ?]]%Hr2; [|done].
    apply Hkeep; [eapply state_ok_queued_closed; [done|by apply in_raised_queued]|done|eauto].
Qed.

Lemma visit_during n nbrs opens node c row st k s' :
  state_ok n st -> flood_during n nbrs opens c st ->
  py_index n node = Some c -> nbrs !! c = Some row -> k ∈ row ->
  visit n node st k = Ok s' -> flood_during n nbrs opens c s'.
Proof.
  intros Hok Hfd Hnode Hrow Hk Hv.
  destruct (visit_Ok _ _ _ _ _ Hok Hv)
    as [[_ ->]|[(m & _ & _ & _ & ->)|(m & c' & zn & zc & Hk1 & Hm & Hcl & Hc' & Hzn & Hzc & Hcase)]];
    [done|done|].
  rewrite Hnode in Hc'. injection Hc' as <-.
  assert (c <> m) as Hcm.
  { intros ->. pose proof (fd_cur _ _ _ _ _ Hfd) as Hc. unfold is_closed in Hc. congruence. }
  assert (edge n nbrs c m) as Hedge by (exists row, k; done).
  assert (m < length (dem st))%nat as Hmlt by (by eapply lookup_lt_Some).
  destruct Hcase as [[Hle ->]|[Hlt ->]];
    eapply close_during; try exact Hfd; try exact Hcl; try done; simpl.
  - intros w e Hw He. by rewrite list_lookup_insert_ne.
  - intros v [(k' & Hk' & Hv')|(e' & k' & Hk' & Hv')].
    + left. exists k'. split; [apply elem_of_app; by left|done].
    + right. by exists e', k'.
  - left. exists k. split; [apply elem_of_app; right; by left|done].
  - intros v [(k' & Hk' & Hv')|(e' & k' & Hk' & Hv')].
    + simpl in Hk'. apply elem_of_app in Hk' as [Hk'|Hk'].
      * left. left. by exists k'.
      * apply list_elem_of_singleton in Hk' as ->. right. congruence.
    + left. right. by exists e', k'.
  - intros r (k' & Hk' & Hv'). simpl in Hk'. apply elem_of_app in Hk' as [Hk'|Hk'].
    + left. by exists k'.
    + apply list_elem_of_singleton in Hk' as ->. right.
      assert (r = m) as -> by congruence. split; [done|].
      exists zc, zc. rewrite list_lookup_insert_eq by done.
      rewrite list_lookup_insert_ne by done. split; [done|]. split; [done|lia].
  - exists zc, zc. rewrite list_lookup_insert_ne by done.
    rewrite list_lookup_insert_eq by done. split; [done|]. split; [done|lia].
  - intros v [(k' & Hk' & Hv')|(e' & k' & Hk' & Hv')].
    + left. by exists k'.
    + right. exists e', k'. split; [apply elem_of_app; by left|done].
  - right. exists zn, k. split; [apply elem_of_app; right; by left|done].
  - intros v [(k' & Hk' & Hv')|(e' & k' & Hk' & Hv')].
    + left. left. by exists k'.
    + simpl in Hk'. apply elem_of_app in Hk' as [Hk'|Hk'].
      * left. right. by exists e', k'.
      * apply list_elem_of_singleton in Hk'. injection Hk' as -> ->. right. congruence.
  - intros r (k' & Hk' & Hv'). left. by exists k'.
  - exists zc, zn. split; [done|]. split; [done|lia].
Qed.

Lemma row_done n nbrs opens c row st :
  flood_during n nbrs opens c st -> nbrs !! c = Some row ->
  (forall k, k ∈ row -> k <> -1 -> exists m, py_index n k = Some m /\ is_closed st m) ->
  flood_between n nbrs opens st.
Proof.
  intros [Hs Hr Hf Hcur Hab Hlev] Hrow Hall. split; [done|done| |].
  - intros v Hv. destruct (Hf v Hv) as [?|[->|?]]; [by left| |by right].
    right. by exists row.
  - intros r v Hr' Hv. eapply le_at_trans; eauto.
Qed.

Lemma flood_turn n nbrs opens st node st1 row s2 :
  length nbrs = n -> state_ok n st -> flood_between n nbrs opens st ->
  next_node st = Some (node, st1) -> py_get nbrs node = Some row ->
  visit_all n node row st1 = Ok s2 ->
  exists c, py_index n node = Some c /\ nbrs !! c = Some row /\ state_ok n st1 /\
    flood_during n nbrs opens c st1 /\ flood_during n nbrs opens c s2 /\
    flood_between n nbrs opens s2.
Proof.
  intros Hlen Hok Hfb Hn Hrow Hv.
  destruct (next_node_spec _ _ _ _ Hok Hn) as (Hok1 & _).
  destruct (flood_pop _ _ _ _ _ _ Hok Hfb Hn) as (c & Hc & Hfd).
  apply py_get_Some in Hrow as (c' & Hc' & Hrow). rewrite Hlen, Hc in Hc'. injection Hc' as <-.
  assert (flood_during n nbrs opens c s2) as Hfd2.
  { eapply (visit_all_inv (flood_during n nbrs opens c)); [|exact Hok1|done|exact Hv].
    intros x k x1 Hk Hokx Hx Hvx. eapply visit_during; eauto. }
  exists c. repeat (split; [done|]).
  eapply row_done; [done|done|].
  intros k Hk Hk1. eapply visit_all_closes; eauto.
Qed.

Lemma flood_front fuel n nbrs opens st s' :
  length nbrs = n -> state_ok n st -> flood_between n nbrs opens st ->
  flood fuel n nbrs st = Ok s' ->
  state_ok n s' /\ flood_between n nbrs opens s' /\ next_node s' = None.
Proof.
  intros Hlen. apply flood_inv.
  intros s node s1 row s2 Hok Hfb Hn Hrow Hv.
  destruct (flood_turn _ _ _ _ _ _ _ _ Hlen Hok Hfb Hn Hrow Hv) as (c & _ & _ & ? & _ & _ & ?).
  done.
Qed.

(** *** A filled surface is left alone *)

Lemma next_node_None n st v : next_node st = None -> ~ queued n st v.
Proof.
  unfold next_node. destruct (raised_node st) as [|r rs] eqn:Er; [|done].
  destruct (priority_queue st) as [|x q] eqn:Eq;
    [|unfold priority_get; by destruct (pq_min x q)].
  intros _ [(k & Hk & _)|(e & k & Hk & _)].
  - rewrite Er in Hk. by apply elem_of_nil in Hk.
  - rewrite Eq in Hk. by apply elem_of_nil in Hk.
Qed.

Lemma seeded_between BAD g pf s :
  PitFiller_init BAD g = inr pf -> length (topographic__elevation g) = number_of_nodes g ->
  seed_all (_n pf) (_open_boundary pf) (initial_state pf) = Ok s ->
  flood_between (_n pf) (_neighbors pf) (_open_boundary pf) s.
Proof.
  intros Hinit Hlen Hs.
  destruct (seeded _ _ _ Hinit Hlen) as (s0 & Hs0 & Hok & Hm & _ & Hr & Hcl & Hq & Hseed).
  rewrite Hs in Hs0. injection Hs0 as <-. split.
  - intros v Hv. apply Hcl. by apply Hseed.
  - intros v Hv. apply reach_seed. apply Hseed. by apply Hcl.
  - intros v Hv. left. by apply Hq.
  - intros r v (k & Hk & _). rewrite Hr in Hk. by apply elem_of_nil in Hk.
Qed.

(** Once both queues are empty, everything reachable is closed and walked. *)
Lemma drained_closed n nbrs opens st v :
  flood_between n nbrs opens st -> next_node st = None ->
  graph_reach n nbrs opens v -> is_closed st v /\ done n nbrs st v.
Proof.
  intros [Hs Hr Hf Hl] Hn.
  assert (forall w, is_closed st w -> done n nbrs st w) as Hd.
  { intros w Hw. destruct (Hf w Hw) as [Hq|?]; [|done]. by apply (next_node_None n) in Hq. }
  induction 1 as [v Hv|u v Hu [IHc IHd] He].
  - split; [|apply Hd]; by apply Hs.
  - assert (is_closed st v) by (by eapply done_edge). eauto.
Qed.

Lemma rising_surface n nbrs opens st v :
  rising n nbrs opens st v -> surface_rising n nbrs opens (dem st) v.
Proof.
  induction 1 as [v Hs Hv|u v Hu IH He Hv Hle].
  - by apply srising_seed.
  - by eapply srising_step.
Qed.

(** In front of the flood nothing is lower than the node being handled. *)
Lemma front_above n nbrs opens c st v :
  state_ok n st -> flood_during n nbrs opens c st ->
  surface_rising n nbrs opens (dem st) v ->
  is_closed st v \/ le_at (dem st) c v.
Proof.
  intros Hok [Hs Hr Hf Hcur Hab Hlev].
  induction 1 as [v Hv|u v Hu [IH|IH] He Hle].
  - left. by apply Hs.
  - destruct (Hf u IH) as [Hq|[->|Hd]].
    + right. eapply le_at_trans; [|exact Hle]. by apply Hab.
    + by right.
    + left. by eapply done_edge.
  - right. by eapply le_at_trans.
Qed.

Lemma visit_filled n nbrs opens node c row st k s' z :
  filled n nbrs opens z ->
  state_ok n st -> flood_during n nbrs opens c st /\ dem st = z ->
  py_index n node = Some c -> nbrs !! c = Some row -> k ∈ row ->
  visit n node st k = Ok s' ->
  flood_during n nbrs opens c s' /\ dem s' = z.
Proof.
  intros Hfill Hok [Hfd Hz] Hnode Hrow Hk Hv.
  split; [by eapply visit_during|].
  destruct (visit_Ok _ _ _ _ _ Hok Hv)
    as [[_ ->]|[(m & _ & _ & _ & ->)|(m & c' & zn & zc & Hk1 & Hm & Hcl & Hc' & Hzn & Hzc & Hcase)]];
    [done|done|].
  rewrite Hnode in Hc'. injection Hc' as <-.
  destruct Hcase as [[Hle ->]|[Hlt ->]]; [|done]. simpl. rewrite <- Hz.
  assert (edge n nbrs c m) as Hedge by (exists row, k; done).
  assert (graph_reach n nbrs opens m) as Hreach.
  { eapply reach_step; [|exact Hedge]. apply (fd_reach _ _ _ _ _ Hfd). apply (fd_cur _ _ _ _ _ Hfd). }
  apply Hfill in Hreach. rewrite <- Hz in Hreach.
  destruct (front_above _ _ _ _ _ _ Hok Hfd Hreach) as [Hc|(zc' & zn' & Hzc' & Hzn' & Hge)].
  { unfold is_closed in Hc. congruence. }
  rewrite Hzc in Hzc'. injection Hzc' as <-. rewrite Hzn in Hzn'. injection Hzn' as <-.
  assert (zn = zc) as -> by lia. by apply list_insert_id.
Qed.

Lemma flood_filled fuel n nbrs opens z st :
  length nbrs = n -> filled n nbrs opens z ->
  (forall v, graph_reach n nbrs opens v ->
     exists row, nbrs !! v = Some row /\ forall k, k ∈ row -> k = -1 \/ is_Some (py_index n k)) ->
  state_ok n st -> flood_between n nbrs opens st -> dem st = z ->
  (measure st <= fuel)%nat -> (measure st <= n)%nat ->
  exists s', flood fuel n nbrs st = Ok s' /\ dem s' = z.
Proof.
  intros Hlen Hfill Hrows. revert st.
  induction fuel as [|fuel IH]; intros st Hok Hfb Hz Hm Hmn; simpl.
  - destruct (next_node st) as [[node st1]|] eqn:Hn; [|eauto].
    destruct (next_node_spec _ _ _ _ Hok Hn) as (_ & Hm1 & _). lia.
  - destruct (next_node st) as [[node st1]|] eqn:Hn; [|eauto].
    destruct (next_node_spec _ _ _ _ Hok Hn) as (Hok1 & Hm1 & _ & Hd1 & (c & Hc & Hcc) & _).
    destruct (Hrows c) as (row & Hrow & Hgood); [by apply (fb_reach _ _ _ _ Hfb)|].
    assert (py_get nbrs node = Some row) as Hget.
    { apply py_get_Some. exists c. by rewrite Hlen. }
    rewrite Hget.
    destruct (visit_all_total n node row st1) as [s2 Hs2]; [done|lia|done|by exists c|].
    rewrite Hs2. simpl.
    destruct (visit_all_state_ok _ _ _ _ _ Hok1 Hs2) as [Hok2 Hm2].
    destruct (flood_turn _ _ _ _ _ _ _ _ Hlen Hok Hfb Hn Hget Hs2)
      as (c' & Hc' & _ & _ & Hfd1 & _ & Hfb2).
    rewrite Hc in Hc'. injection Hc' as <-.
    assert (flood_during n nbrs opens c s2 /\ dem s2 = z) as [_ Hz2].
    { eapply (visit_all_inv (fun x => flood_during n nbrs opens c x /\ dem x = z));
        [|exact Hok1| |exact Hs2].
      - intros x k x1 Hk Hokx Hx Hvx. eapply visit_filled; eauto.
      - split; [done|congruence]. }
    apply IH; [done|done|done|lia|lia].
Qed.

Lemma pit_fill_run_front BAD g pf s :
  PitFiller_init BAD g = inr pf -> grid_sized g -> pit_fill_run pf = Ok s ->
  flood_between (_n pf) (_neighbors pf) (_open_boundary pf) s /\ next_node s = None.
Proof.
  intros Hinit [Hlen Hrows] Hrun.
  destruct (seeded _ _ _ Hinit Hlen) as (s0 & Hs0 & Hok & _).
  destruct (PitFiller_init_fields _ _ _ Hinit) as (_ & _ & Hn & _ & Hnb).
  pose proof (seeded_between _ _ _ _ Hinit Hlen Hs0) as Hfb.
  unfold pit_fill_run in Hrun. rewrite Hs0 in Hrun. simpl in Hrun.
  eapply flood_front in Hrun as (_ & ? & ?); [done|congruence|done|done].
Qed.

Lemma PitFiller_init_refill BAD g pf z :
  PitFiller_init BAD g = inr pf ->
  PitFiller_init BAD (set_elevation g z) = inr (with_dem pf (set_elevation g z) z).
Proof.
  unfold PitFiller_init. simpl.
  destruct (concatenate_axis1 _ _) as [nb|]; [|done]. by intros [= <-].
Qed.

(** ** C8: filling twice is filling once *)

(** C8. When [pit_fill] returns on a grid whose fields have one entry per
    node, the component it leaves behind is the one [PitFiller] would
    construct on the filled grid (same adjacency and boundary statuses), and
    calling [pit_fill] on it returns too and changes nothing: the second fill
    yields exactly the surface of the first. *)
Theorem pit_fill_idempotent BAD g pf pf' :
  PitFiller_init BAD g = inr pf -> grid_sized g ->
  pit_fill pf = (pf', None) ->
  PitFiller_init BAD (_grid pf') = inr pf' /\ pit_fill pf' = (pf', None).
Proof.
  intros Hinit Hsized Hfill. unfold pit_fill in Hfill.
  destruct (pit_fill_run pf) as [s|e s] eqn:Hrun; [|done]. injection Hfill as <-.
  destruct (PitFiller_init_fields _ _ _ Hinit) as (Hg & Hd & Hn & Ho & Hnb).
  destruct (pit_fill_run_rising _ _ _ _ Hinit Hsized Hrun) as (Hok & Hall & _).
  destruct (pit_fill_run_front _ _ _ _ Hinit Hsized Hrun) as (Hfb & Hnone).
  destruct Hsized as [Hlen Hrows].
  set (z := dem s). set (g' := set_elevation (_grid pf) z).
  assert (PitFiller_init BAD g' = inr (with_dem pf g' z)) as Hinit'.
  { subst g'. rewrite Hg. by apply PitFiller_init_refill. }
  split; [exact Hinit'|].
  set (pf' := with_dem pf g' z) in *.
  assert (length (topographic__elevation g') = number_of_nodes g') as Hlen'.
  { subst g' z. simpl. rewrite (ok_dem _ _ Hok). rewrite Hg. exact Hn. }
  destruct (seeded _ _ _ Hinit' Hlen') as (s0 & Hs0 & Hok0 & Hm0 & Hd0 & _).
  pose proof (seeded_between _ _ _ _ Hinit' Hlen' Hs0) as Hfb0.
  destruct (flood_filled (_n pf) (_n pf) (_neighbors pf) (_open_boundary pf) z s0)
    as (s' & Hs' & Hz'); try done.
  - congruence.
  - intros v Hv. destruct (drained_closed _ _ _ _ _ Hfb Hnone Hv) as [Hc _].
    apply rising_surface. by apply Hall.
  - intros v Hv. destruct (drained_closed _ _ _ _ _ Hfb Hnone Hv) as [_ (row & Hrow & Hgood)].
    exists row. split; [done|]. intros k Hk.
    destruct (decide (k = -1)) as [?|Hne]; [by left|right].
    destruct (Hgood k Hk Hne) as (m & -> & _). done.
  - change (_n pf) with (_n pf'). lia.
  - change (_n pf) with (_n pf'). lia.
  - unfold pit_fill, pit_fill_run. rewrite Hs0. simpl.
    rewrite Hs'. rewrite Hz'. done.
Qed.

Lemma pit_fill_idempotent_witness :
  PitFiller_init example_bad (_grid (fst (pit_fill pit_filler))) = inr (fst (pit_fill pit_filler)) /\
  pit_fill (fst (pit_fill pit_filler)) = (fst (pit_fill pit_filler), None).
Proof.
  apply (pit_fill_idempotent example_bad pit_grid pit_filler (fst (pit_fill pit_filler))).
  - reflexivity.
  - split; reflexivity.
  - vm_compute. reflexivity.
Defined.

(** ** C10: the fill works on the snapshot taken at construction *)

Lemma pit_fill_run_grid_write pf z : pit_fill_run (grid_write pf z) = pit_fill_run pf.
Proof. reflexivity. Qed.

(** C10. Construct a filler on a grid, let the caller overwrite the grid's
    elevation field with any [z], then call [pit_fill]: if filling the
    construction-time elevations returns, the call after the write returns
    the very same component and grid, whose elevation field is that fill.
    What was written in between is gone. *)
Theorem pit_fill_uses_snapshot BAD g pf z pf1 :
  PitFiller_init BAD g = inr pf ->
  pit_fill pf = (pf1, None) ->
  pit_fill (grid_write pf z) = (pf1, None) /\
  topographic__elevation (_grid pf1) = _dem pf1 /\
  raised_from (topographic__elevation g) (topographic__elevation (_grid pf1)).
Proof.
  intros Hinit Hfill.
  pose proof (pit_fill_run_raised pf) as Hr.
  unfold pit_fill in *. rewrite pit_fill_run_grid_write.
  destruct (pit_fill_run pf) as [s|e s]; [|done].
  injection Hfill as <-. simpl in *. split; [done|]. split; [done|].
  destruct (PitFiller_init_fields _ _ _ Hinit) as (_ & <- & _). exact Hr.
Qed.

Lemma pit_fill_uses_snapshot_witness :
  pit_fill (grid_write pit_filler [9; 9; 9; 9; 9; 9; 9; 9; 9]) = (fst (pit_fill pit_filler), None) /\
  topographic__elevation (_grid (fst (pit_fill pit_filler))) = _dem (fst (pit_fill pit_filler)) /\
  raised_from [5; 5; 5; 2; 1; 5; 5; 5; 5]
              (topographic__elevation (_grid (fst (pit_fill pit_filler)))).
Proof.
  apply (pit_fill_uses_snapshot example_bad pit_grid pit_filler).
  - reflexivity.
  - vm_compute. reflexivity.
Defined.

(** *** What a run can raise *)

Lemma visit_raise_index n node st k e s :
  state_ok n st -> (measure st <= n)%nat -> visit n node st k = Raise e s -> e = IndexError.
Proof.
  intros [Hc Hd _ _] Hm H. unfold visit in H.
  destruct (k =? -1); [done|].
  destruct (py_get (closed st) k) as [[|]|] eqn:Eg; [done| |by injection H as <- _].
  apply py_get_Some in Eg as (m & _ & Hb). pose proof (count_open_pos _ _ Hb) as Hpos.
  unfold measure in Hm.
  destruct (py_set (closed st) k true) as [c'|]; [|by injection H as <- _]. simpl in H.
  destruct (py_get (dem st) k) as [zn|]; [|by injection H as <- _].
  destruct (py_get (dem st) node) as [zc|]; [|by injection H as <- _].
  destruct (zn <=? zc).
  - destruct (py_set (dem st) k zc) as [d'|]; [|by injection H as <- _].
    simpl in H. by rewrite queue_full_false in H by lia.
  - simpl in H. by rewrite queue_full_false in H by lia.
Qed.

Lemma visit_all_raise_index n node row st e s :
  state_ok n st -> (measure st <= n)%nat -> visit_all n node row st = Raise e s ->
  e = IndexError.
Proof.
  revert st. induction row as [|k row IH]; intros st Hok Hm H; simpl in H; [done|].
  destruct (visit n node st k) as [s1|e1 s1] eqn:Hv; simpl in H.
  - apply (IH s1); [by eapply visit_state_ok| |done]. by erewrite visit_measure.
  - injection H as <- _. by eapply visit_raise_index.
Qed.

Lemma flood_raise_index fuel n nbrs st e s :
  state_ok n st -> (measure st <= fuel)%nat -> (measure st <= n)%nat ->
  flood fuel n nbrs st = Raise e s -> e = IndexError.
Proof.
  revert st. induction fuel as [|fuel IH]; intros st Hok Hm Hmn H; simpl in H.
  - destruct (next_node st) as [[node st1]|] eqn:Hn; [|done].
    destruct (next_node_spec _ _ _ _ Hok Hn) as (_ & Hm1 & _). lia.
  - destruct (next_node st) as [[node st1]|] eqn:Hn; [|done].
    destruct (next_node_spec _ _ _ _ Hok Hn) as (Hok1 & Hm1 & _).
    destruct (py_get nbrs node) as [row|]; [|by injection H as <- _].
    destruct (visit_all n node row st1) as [s2|e2 s2] eqn:Hv; simpl in H.
    + destruct (visit_all_state_ok _ _ _ _ _ Hok1 Hv) as [Hok2 Hm2].
      apply (IH s2); [done|lia|lia|done].
    + injection H as <- _. eapply visit_all_raise_index; [exact Hok1|lia|exact Hv].
Qed.

Lemma py_index_in_range n k : - Z.of_nat n <= k < Z.of_nat n -> is_Some (py_index n k).
Proof.
  intros Hk. unfold py_index.
  destruct ((0 <=? k) && (k <? Z.of_nat n)) eqn:E1; [done|].
  destruct ((- Z.of_nat n <=? k) && (k <? 0)) eqn:E2; [done|].
  apply andb_false_iff in E1, E2. lia.
Qed.

(** ** C9: what a malformed adjacency does *)

Lemma py_index_None n k : py_index n k = None <-> out_of_range n k.
Proof.
  unfold py_index, out_of_range.
  destruct ((0 <=? k) && (k <? Z.of_nat n)) eqn:E1.
  { apply andb_true_iff in E1. split; [done|lia]. }
  destruct ((- Z.of_nat n <=? k) && (k <? 0)) eqn:E2.
  { apply andb_true_iff in E2. split; [done|lia]. }
  apply andb_false_iff in E1, E2. split; [lia|done].
Qed.

Lemma py_index_wrap n k :
  - Z.of_nat n <= k < 0 -> py_index n k = Some (Z.to_nat (k + Z.of_nat n)).
Proof.
  intros Hk. unfold py_index.
  destruct ((0 <=? k) && (k <? Z.of_nat n)) eqn:E1.
  { apply andb_true_iff in E1. lia. }
  destruct ((- Z.of_nat n <=? k) && (k <? 0)) eqn:E2; [done|].
  apply andb_false_iff in E2. lia.
Qed.

(** The only entries a visit raises on are those numpy rejects. *)
Lemma visit_raise_bad_id n node st k e s :
  state_ok n st -> (measure st <= n)%nat -> is_Some (py_index n node) ->
  visit n node st k = Raise e s -> k <> -1 /\ out_of_range n k.
Proof.
  intros Hok Hm Hnode H.
  destruct (decide (k = -1)) as [->|Hk].
  { destruct (visit_total n node st (-1) Hok Hm) as [s' Hs']; [by left|done|congruence]. }
  split; [done|]. apply py_index_None.
  destruct (py_index n k) as [m|] eqn:E; [|done].
  destruct (visit_total n node st k Hok Hm) as [s' Hs']; [right; by rewrite E|done|congruence].
Qed.

Lemma visit_all_raise_bad_id n node row st e s :
  state_ok n st -> (measure st <= n)%nat -> is_Some (py_index n node) ->
  visit_all n node row st = Raise e s ->
  exists k, k ∈ row /\ k <> -1 /\ out_of_range n k.
Proof.
  revert st. induction row as [|k row IH]; intros st Hok Hm Hnode H; simpl in H; [done|].
  destruct (visit n node st k) as [s1|e1 s1] eqn:Hv; simpl in H.
  - destruct (IH s1) as (k' & Hk' & Hbad);
      [by eapply visit_state_ok|by erewrite visit_measure|done|done|].
    exists k'. split; [by right|done].
  - exists k. split; [by left|]. by eapply visit_raise_bad_id.
Qed.

(** A flood that raises does so in the row of a node it has reached. *)
Lemma flood_raise_bad_id fuel n nbrs opens st e s :
  length nbrs = n -> state_ok n st -> flood_between n nbrs opens st ->
  (measure st <= fuel)%nat -> (measure st <= n)%nat ->
  flood fuel n nbrs st = Raise e s -> reaches_bad_id n nbrs opens.
Proof.
  intros Hlen. revert st.
  induction fuel as [|fuel IH]; intros st Hok Hfb Hm Hmn H; simpl in H.
  - destruct (next_node st) as [[node st1]|] eqn:Hn; [|done].
    destruct (next_node_spec _ _ _ _ Hok Hn) as (_ & Hm1 & _). lia.
  - destruct (next_node st) as [[node st1]|] eqn:Hn; [|done].
    destruct (next_node_spec _ _ _ _ Hok Hn) as (Hok1 & Hm1 & _).
    destruct (flood_pop _ _ _ _ _ _ Hok Hfb Hn) as (c & Hc & Hfd).
    destruct (lookup_lt_is_Some_2 nbrs c) as [row Hrow].
    { rewrite Hlen. by eapply py_index_lt. }
    assert (py_get nbrs node = Some row) as Hget.
    { apply py_get_Some. exists c. by rewrite Hlen. }
    rewrite Hget in H.
    destruct (visit_all n node row st1) as [s2|e2 s2] eqn:Hv; simpl in H.
    + destruct (visit_all_state_ok _ _ _ _ _ Hok1 Hv) as [Hok2 Hm2].
      destruct (flood_turn _ _ _ _ _ _ _ _ Hlen Hok Hfb Hn Hget Hv)
        as (c' & _ & _ & _ & _ & _ & Hfb2).
      apply (IH s2); [done|done|lia|lia|done].
    + assert (is_Some (py_index n node)) as Hnode by (by exists c).
      destruct (visit_all_raise_bad_id _ _ _ _ _ _ Hok1 ltac:(lia) Hnode Hv)
        as (k & Hk & Hk1 & Hbad).
      exists c, row, k. split; [|done].
      apply (fd_reach _ _ _ _ _ Hfd). apply (fd_cur _ _ _ _ _ Hfd).
Qed.

(** C9, as the code has it. The filler does not inspect the adjacency; the
    only failure is numpy's own. On a grid whose fields have one entry per
    node:
    (i) if [pit_fill] raises, it raises [IndexError] and the grid is the one
    the filler was built on, its elevation field as it was;
    (ii) [pit_fill] raises exactly when the flood comes to an id numpy
    rejects: the row of some node reached from the open boundary lists an id
    [>= n] or [< -n] (the no-neighbour mark [-1] apart); such an id in a row
    that is never walked goes unnoticed;
    (iii) a dangling id [k] between [-n] and [-2] is taken for node [n + k]:
    when the fill returns, that node has been visited from every walked row
    that lists [k];
    (iv) in particular, if every adjacency entry lies between [-n] and
    [n - 1], [pit_fill] returns without raising. *)
Theorem pit_fill_unvalidated BAD g pf :
  PitFiller_init BAD g = inr pf -> grid_sized g ->
  (forall e, snd (pit_fill pf) = Some e ->
     e = IndexError /\ _grid (fst (pit_fill pf)) = g) /\
  ((exists e, snd (pit_fill pf) = Some e) <->
   reaches_bad_id (_n pf) (_neighbors pf) (_open_boundary pf)) /\
  (forall s v row k,
     pit_fill_run pf = Ok s ->
     graph_reach (_n pf) (_neighbors pf) (_open_boundary pf) v ->
     _neighbors pf !! v = Some row -> k ∈ row ->
     - Z.of_nat (_n pf) <= k < -1 ->
     is_closed s (Z.to_nat (k + Z.of_nat (_n pf)))) /\
  ((forall row k, row ∈ _neighbors pf -> k ∈ row ->
      - Z.of_nat (_n pf) <= k < Z.of_nat (_n pf)) ->
   snd (pit_fill pf) = None).
Proof.
  intros Hinit Hsized.
  assert (forall s v row k,
            pit_fill_run pf = Ok s ->
            graph_reach (_n pf) (_neighbors pf) (_open_boundary pf) v ->
            _neighbors pf !! v = Some row -> k ∈ row -> k <> -1 ->
            exists m, py_index (_n pf) k = Some m /\ is_closed s m) as Hwalked.
  { intros s v row k Hrun Hreach Hrow Hk Hk1.
    destruct (pit_fill_run_front _ _ _ _ Hinit Hsized Hrun) as [Hfb Hnone].
    destruct (drained_closed _ _ _ _ _ Hfb Hnone Hreach) as [_ (row' & Hrow' & Hall)].
    rewrite Hrow in Hrow'. injection Hrow' as <-. by apply Hall. }
  split; [|split; [|split]].
  - intros e He. destruct Hsized as [Hlen _].
    destruct (seeded _ _ _ Hinit Hlen) as (s0 & Hs0 & Hok & Hm & _).
    destruct (PitFiller_init_fields _ _ _ Hinit) as (Hg & _).
    unfold pit_fill, pit_fill_run in *. rewrite Hs0 in *. simpl in *.
    destruct (flood _ _ _ s0) as [s|e' s] eqn:Hf; simpl in *; [done|].
    injection He as ->. split; [|done].
    eapply flood_raise_index; [exact Hok| | |exact Hf]; lia.
  - split.
    + intros [e He]. destruct Hsized as [Hlen Hrows].
      destruct (seeded _ _ _ Hinit Hlen) as (s0 & Hs0 & Hok & Hm & _).
      destruct (PitFiller_init_fields _ _ _ Hinit) as (_ & _ & Hn & _ & Hnb).
      pose proof (seeded_between _ _ _ _ Hinit Hlen Hs0) as Hfb.
      unfold pit_fill, pit_fill_run in He. rewrite Hs0 in He. simpl in He.
      destruct (flood _ _ _ s0) as [s|e' s] eqn:Hf; simpl in He; [done|].
      eapply flood_raise_bad_id; [|exact Hok|exact Hfb| | |exact Hf]; [congruence|lia|lia].
    + intros (v & row & k & Hreach & Hrow & Hk & Hk1 & Hbad).
      unfold pit_fill. destruct (pit_fill_run pf) as [s|e s] eqn:Hrun; [|by exists e].
      destruct (Hwalked s v row k eq_refl Hreach Hrow Hk Hk1) as (m & Hm & _).
      apply py_index_None in Hbad. congruence.
  - intros s v row k Hrun Hreach Hrow Hk Hrange.
    destruct (Hwalked s v row k Hrun Hreach Hrow Hk ltac:(lia)) as (m & Hm & Hcl).
    rewrite py_index_wrap in Hm by lia. by injection Hm as <-.
  - intros Hrange.
    destruct (pit_fill_run_total _ _ _ Hinit Hsized) as [s Hs].
    + destruct Hsized as [_ Hrows].
      destruct (PitFiller_init_fields _ _ _ Hinit) as (_ & _ & Hn & _ & Hnb).
      split; [congruence|]. intros row k Hrow Hk. right.
      apply py_index_in_range. eauto.
    + unfold pit_fill. by rewrite Hs.
Qed.

(** The statement on the two malformed examples: [beyond_grid], where node 0
    lists the id [7], and [wrap_grid], where it lists the id [-2]. *)
Lemma pit_fill_unvalidated_witness :
  ((forall e, snd (pit_fill beyond_filler) = Some e ->
      e = IndexError /\ _grid (fst (pit_fill beyond_filler)) = beyond_grid) /\
   ((exists e, snd (pit_fill beyond_filler) = Some e) <->
    reaches_bad_id (_n beyond_filler) (_neighbors beyond_filler)
      (_open_boundary beyond_filler)) /\
   (forall s v row k,
      pit_fill_run beyond_filler = Ok s ->
      graph_reach (_n beyond_filler) (_neighbors beyond_filler)
        (_open_boundary beyond_filler) v ->
      _neighbors beyond_filler !! v = Some row -> k ∈ row ->
      - Z.of_nat (_n beyond_filler) <= k < -1 ->
      is_closed s (Z.to_nat (k + Z.of_nat (_n beyond_filler)))) /\
   ((forall row k, row ∈ _neighbors beyond_filler -> k ∈ row ->
       - Z.of_nat (_n beyond_filler) <= k < Z.of_nat (_n beyond_filler)) ->
    snd (pit_fill beyond_filler) = None)) /\
  ((forall e, snd (pit_fill wrap_filler) = Some e ->
      e = IndexError /\ _grid (fst (pit_fill wrap_filler)) = wrap_grid) /\
   ((exists e, snd (pit_fill wrap_filler) = Some e) <->
    reaches_bad_id (_n wrap_filler) (_neighbors wrap_filler)
      (_open_boundary wrap_filler)) /\
   (forall s v row k,
      pit_fill_run wrap_filler = Ok s ->
      graph_reach (_n wrap_filler) (_neighbors wrap_filler)
        (_open_boundary wrap_filler) v ->
      _neighbors wrap_filler !! v = Some row -> k ∈ row ->
      - Z.of_nat (_n wrap_filler) <= k < -1 ->
      is_closed s (Z.to_nat (k + Z.of_nat (_n wrap_filler)))) /\
   ((forall row k, row ∈ _neighbors wrap_filler -> k ∈ row ->
       - Z.of_nat (_n wrap_filler) <= k < Z.of_nat (_n wrap_filler)) ->
    snd (pit_fill wrap_filler) = None)).
Proof.
  split.
  - apply (pit_fill_unvalidated example_bad beyond_grid beyond_filler).
    + reflexivity.
    + split; reflexivity.
  - apply (pit_fill_unvalidated example_bad wrap_grid wrap_filler).
    + reflexivity.
    + split; reflexivity.
Defined.

(** C9 as stated fails: the adjacency of [wrap_grid] is malformed (node 0
    lists the id [-2]), yet [pit_fill] returns without raising, having taken
    [-2] for node 1 and raised that node from 0 to 5. *)
Lemma dangling_id_goes_unnoticed :
  malformed (_n wrap_filler) (_neighbors wrap_filler) /\
  pit_fill wrap_filler =
    (with_dem wrap_filler (set_elevation wrap_grid [5; 5; 1]) [5; 5; 1], None) /\
  ~ (malformed (_n wrap_filler) (_neighbors wrap_filler) ->
     exists e, snd (pit_fill wrap_filler) = Some e).
Proof.
  assert (malformed (_n wrap_filler) (_neighbors wrap_filler)) as Hmal.
  { exists [-2], (-2). split; [by left|]. split; [by left|]. split; [lia|]. simpl. lia. }
  split; [exact Hmal|]. split; [vm_compute; reflexivity|].
  intros H. destruct (H Hmal) as [e He]. vm_compute in He. discriminate.
Qed.

(** A dangling id beyond the last node does raise, once its row is walked:
    node 0 of [beyond_grid] is an open boundary and lists the id [7]. The
    component's own copy has by then been raised at node 1, the grid's field
    has not. *)
Lemma dangling_id_beyond_raises :
  reaches_bad_id (_n beyond_filler) (_neighbors beyond_filler) (_open_boundary beyond_filler) /\
  pit_fill beyond_filler = (with_dem beyond_filler beyond_grid [5; 5; 1], Some IndexError).
Proof.
  split; [|vm_compute; reflexivity].
  exists 0%nat, [1; 7], 7. split.
  { apply reach_seed. exists 0. split; [by left|reflexivity]. }
  split; [reflexivity|]. split; [by right; left|]. split; [lia|]. right. change (3 <= 7). lia.
Qed.

(** A dangling id that wraps is walked like any neighbour: node 0 of
    [wrap_grid] lists the id [-2], and node [3 - 2 = 1] is visited and
    raised from 0 to 5. *)
Lemma dangling_id_wraps :
  pit_fill_run wrap_filler = Ok (mkState [5; 5; 1] [true; true; false] [] []) /\
  graph_reach (_n wrap_filler) (_neighbors wrap_filler) (_open_boundary wrap_filler) 0%nat /\
  _neighbors wrap_filler !! 0%nat = Some [-2] /\
  ~ reaches_bad_id (_n wrap_filler) (_neighbors wrap_filler) (_open_boundary wrap_filler).
Proof.
  split; [vm_compute; reflexivity|]. split.
  { apply reach_seed. exists 0. split; [by left|reflexivity]. }
  split; [reflexivity|].
  intros (v & row & k & _ & Hrow & Hk & Hk1 & Hbad).
  assert (row ∈ _neighbors wrap_filler) as Hin by (by eapply list_elem_of_lookup_2).
  change (_neighbors wrap_filler) with [[-2]; [-1]; [-1]] in Hin.
  unfold out_of_range in Hbad. change (_n wrap_filler) with 3%nat in Hbad.
  repeat (apply elem_of_cons in Hin as [->|Hin];
          [apply list_elem_of_singleton in Hk as ->; lia|]).
  by apply elem_of_nil in Hin.
Qed.

(** * More on the filler: the water level *)

Lemma next_node_queued n st node st' c :
  next_node st = Some (node, st') -> py_index n node = Some c -> queued n st c.
Proof.
  unfold next_node. intros H Hc. destruct (raised_node st) as [|r rs] eqn:Er.
  - destruct (priority_get (priority_queue st)) as [[[e k] q']|] eqn:Eg; [|done].
    injection H as <- <-. destruct (priority_get_spec _ _ _ Eg) as (Hin & _).
    right. by exists e, k.
  - injection H as <- <-. left. exists r. rewrite Er. split; [by left|done].
Qed.

Lemma levels_pop n nbrs opens z0 st node st' c :
  state_ok n st -> levels_between n nbrs opens z0 st ->
  next_node st = Some (node, st') -> py_index n node = Some c ->
  levels_during n nbrs opens z0 c st'.
Proof.
  intros Hok [Ho Hs Ha He Hb] Hn Hc.
  destruct (next_node_spec _ _ _ _ Hok Hn) as (_ & _ & Hc1 & Hd1 & _ & Hq1 & Hq2).
  pose proof (next_node_queued _ _ _ _ _ Hn Hc) as Hqc.
  assert (forall w, is_closed st' w <-> is_closed st w) as Hcl.
  { intros w. unfold is_closed. by rewrite Hc1. }
  assert (forall v w, le_max z0 st v w -> le_max z0 st' v w) as Hlm.
  { intros v w. unfold le_max. by rewrite Hd1. }
  split.
  - intros v Hv. rewrite Hd1. apply Ho. by rewrite <- Hc1.
  - intros v Hv. rewrite Hd1. by apply Hs.
  - intros v Hv. rewrite Hd1. apply Ha. by apply Hcl.
  - intros v Hv. apply Hcl in Hv. destruct (He v Hv) as [Hq|Hed].
    + destruct (Hq2 v Hq) as [?|Hvc]; [by left|]. right. left. congruence.
    + right. right. intros w Hw. destruct (Hed w Hw) as [? ?]. split; [by apply Hcl|eauto].
  - intros w Hw. apply Hcl in Hw. destruct (Hb w Hw) as [Hk|Hle].
    + left. unfold keeps. by rewrite Hd1.
    + right. rewrite Hd1. by apply Hle.
Qed.

Lemma close_levels n nbrs opens z0 c st m s1 zc zn :
  state_ok n st -> flood_during n nbrs opens c st -> levels_during n nbrs opens z0 c st ->
  closed st !! m = Some false -> closed s1 = <[m := true]> (closed st) ->
  dem st !! c = Some zc -> dem st !! m = Some zn ->
  dem s1 = <[m := Z.max zc zn]> (dem st) ->
  (forall v, queued n st v -> queued n s1 v) -> queued n s1 m ->
  edge n nbrs c m ->
  levels_during n nbrs opens z0 c s1.
Proof.
  intros Hok Hfd [Ho Hs Ha He Hb] Hm Hcs Hzc Hzn Hds Hq1 Hqm Hedge.
  assert (m < length (dem st))%nat as Hmlt by (by eapply lookup_lt_Some).
  assert (forall w, is_closed st w -> is_closed s1 w) as Hmono.
  { intros w Hw. unfold is_closed. rewrite Hcs. by apply (is_closed_insert st m w). }
  assert (forall w, is_closed s1 w -> is_closed st w \/ w = m) as Hinv.
  { intros w Hw. destruct (decide (w = m)) as [->|Hne]; [by right|left].
    unfold is_closed in *. rewrite Hcs in Hw. by rewrite list_lookup_insert_ne in Hw. }
  assert (forall w, is_closed st w -> w <> m) as Hne.
  { intros w Hw ->. unfold is_closed in Hw. congruence. }
  assert (forall w, w <> m -> dem s1 !! w = dem st !! w) as Hsame.
  { intros w Hw. rewrite Hds. by apply list_lookup_insert_ne. }
  assert (dem s1 !! m = Some (Z.max zc zn)) as Hnew.
  { rewrite Hds. by apply list_lookup_insert_eq. }
  assert (z0 !! m = Some zn) as Hz0 by (rewrite <- (Ho m Hm); done).
  assert (c <> m) as Hcm by (apply Hne, (fd_cur _ _ _ _ _ Hfd)).
  split.
  - intros v Hv. rewrite Hcs in Hv. destruct (decide (v = m)) as [->|Hvm].
    + rewrite list_lookup_insert_eq in Hv by (by eapply lookup_lt_Some). done.
    + rewrite list_lookup_insert_ne in Hv by done. rewrite Hsame by done. by apply Ho.
  - intros v Hv. rewrite Hsame; [by apply Hs|]. apply Hne. by apply (fd_seeds _ _ _ _ _ Hfd).
  - intros v [Hv| ->]%Hinv.
    + rewrite Hsame by (by apply Hne). by apply Ha.
    + exists (Z.max zc zn). split; [done|].
      destruct (Ha c (fd_cur _ _ _ _ _ Hfd)) as (zc' & Hzc' & Hlev).
      rewrite Hzc in Hzc'. injection Hzc' as <-. by eapply level_step.
  - intros v [Hv| ->]%Hinv; [|by left].
    destruct (He v Hv) as [?|[?|Hed]]; [left; eauto|right; by left|].
    right. right. intros w Hw. destruct (Hed w Hw) as [Hcw (zv & zw & ew & ? & ? & ? & ?)].
    split; [by apply Hmono|]. exists zv, zw, ew.
    rewrite !Hsame by (by apply Hne). done.
  - intros w [Hw| ->]%Hinv.
    + destruct (Hb w Hw) as [(e & ? & ?)|(zw & zc' & ? & ? & ?)].
      * left. exists e. rewrite Hsame by (by apply Hne). done.
      * right. exists zw, zc'. rewrite (Hsame w) by (by apply Hne).
        rewrite (Hsame c) by done. done.
    + destruct (Z.max_spec zc zn) as [[Hlt Hmax]|[Hle Hmax]].
      * left. exists zn. rewrite Hnew, Hmax. done.
      * right. exists zc, zc. rewrite Hnew, Hmax, Hsame by done.
        split; [done|]. split; [done|lia].
Qed.

Lemma visit_levels n nbrs opens z0 node c row st k s' :
  state_ok n st -> flood_during n nbrs opens c st -> levels_during n nbrs opens z0 c st ->
  py_index n node = Some c -> nbrs !! c = Some row -> k ∈ row ->
  visit n node st k = Ok s' -> levels_during n nbrs opens z0 c s'.
Proof.
  intros Hok Hfd Hld Hnode Hrow Hk Hv.
  destruct (visit_Ok _ _ _ _ _ Hok Hv)
    as [[_ ->]|[(m & _ & _ & _ & ->)|(m & c' & zn & zc & Hk1 & Hm & Hcl & Hc' & Hzn & Hzc & Hcase)]];
    [done|done|].
  rewrite Hnode in Hc'. injection Hc' as <-.
  assert (edge n nbrs c m) as Hedge by (exists row, k; done).
  destruct Hcase as [[Hle ->]|[Hlt ->]];
    eapply (close_levels n nbrs opens z0 c st m _ zc zn); try done; simpl.
  - by rewrite Z.max_l by lia.
  - intros v [(k' & Hk' & Hv')|(e' & k' & Hk' & Hv')].
    + left. exists k'. split; [apply elem_of_app; by left|done].
    + right. by exists e', k'.
  - left. exists k. split; [apply elem_of_app; right; by left|done].
  - rewrite Z.max_r by lia. symmetry. by apply list_insert_id.
  - intros v [(k' & Hk' & Hv')|(e' & k' & Hk' & Hv')].
    + left. by exists k'.
    + right. exists e', k'. split; [apply elem_of_app; by left|done].
  - right. exists zn, k. split; [apply elem_of_app; right; by left|done].
Qed.

Lemma levels_row_done n nbrs opens z0 c row st :
  state_ok n st -> length z0 = n ->
  flood_during n nbrs opens c st -> levels_during n nbrs opens z0 c st ->
  nbrs !! c = Some row ->
  (forall k, k ∈ row -> k <> -1 -> exists m, py_index n k = Some m /\ is_closed st m) ->
  levels_between n nbrs opens z0 st.
Proof.
  intros Hok Hz0 Hfd [Ho Hs Ha He Hb] Hrow Hall. split; [done|done|done| |].
  - intros v Hv. destruct (He v Hv) as [?|[->|?]]; [by left| |by right].
    right. intros w (row' & k & Hrow' & Hk & Hk1 & Hw).
    rewrite Hrow in Hrow'. injection Hrow' as <-.
    destruct (Hall k Hk Hk1) as (m & Hm & Hcl). rewrite Hw in Hm. injection Hm as <-.
    split; [done|].
    destruct (Ha c Hv) as (zc & Hzc & _).
    destruct (lookup_lt_is_Some_2 z0 w) as [ew Hew].
    { rewrite Hz0. by eapply py_index_lt. }
    destruct (Hb w Hcl) as [(e & He1 & He2)|(zw & zc' & Hzw & Hzc' & Hle)].
    + exists zc, e, ew. rewrite He1 in Hew. injection Hew as <-.
      repeat (split; [done|]). lia.
    + rewrite Hzc in Hzc'. injection Hzc' as <-. exists zc, zw, ew.
      repeat (split; [done|]). lia.
  - intros w Hw. destruct (Hb w Hw) as [?|Hle]; [by left|].
    right. intros v Hv. eapply le_at_trans; [exact Hle|]. by apply (fd_above _ _ _ _ _ Hfd).
Qed.

Lemma flood_levels fuel n nbrs opens z0 st s' :
  length nbrs = n -> length z0 = n -> state_ok n st ->
  flood_between n nbrs opens st /\ levels_between n nbrs opens z0 st ->
  flood fuel n nbrs st = Ok s' ->
  state_ok n s' /\ (flood_between n nbrs opens s' /\ levels_between n nbrs opens z0 s') /\
  next_node s' = None.
Proof.
  intros Hlen Hz0.
  apply (flood_inv (fun x => flood_between n nbrs opens x /\ levels_between n nbrs opens z0 x)).
  intros s node s1 row s2 Hok [Hfb Hlb] Hn Hrow Hv.
  destruct (flood_turn _ _ _ _ _ _ _ _ Hlen Hok Hfb Hn Hrow Hv)
    as (c & Hc & Hrowc & Hok1 & Hfd1 & Hfd2 & Hfb2).
  split; [done|]. split; [done|].
  pose proof (levels_pop _ _ _ _ _ _ _ _ Hok Hlb Hn Hc) as Hld1.
  assert (flood_during n nbrs opens c s2 /\ levels_during n nbrs opens z0 c s2) as [_ Hld2].
  { eapply (visit_all_inv (fun x => flood_during n nbrs opens c x /\
                                    levels_during n nbrs opens z0 c x));
      [|exact Hok1|by split|exact Hv].
    intros x k x1 Hk Hokx [Hx1 Hx2] Hvx. split.
    - eapply visit_during; eauto.
    - eapply visit_levels; eauto. }
  destruct (visit_all_state_ok _ _ _ _ _ Hok1 Hv) as [Hok2 _].
  apply (levels_row_done n nbrs opens z0 c row s2); [done..|].
  intros k Hk Hk1. exact (visit_all_closes _ _ _ _ _ _ Hok1 Hv Hk Hk1).
Qed.

Lemma pit_fill_run_levels BAD g pf s :
  PitFiller_init BAD g = inr pf -> grid_sized g -> pit_fill_run pf = Ok s ->
  state_ok (_n pf) s /\
  flood_between (_n pf) (_neighbors pf) (_open_boundary pf) s /\
  levels_between (_n pf) (_neighbors pf) (_open_boundary pf) (topographic__elevation g) s /\
  next_node s = None.
Proof.
  intros Hinit [Hlen Hrows] Hrun.
  destruct (seeded _ _ _ Hinit Hlen) as (s0 & Hs0 & Hok & Hm & Hd0 & _ & Hcl & Hq & Hseed).
  destruct (PitFiller_init_fields _ _ _ Hinit) as (_ & Hd & Hn & _ & Hnb).
  pose proof (seeded_between _ _ _ _ Hinit Hlen Hs0) as Hfb.
  unfold pit_fill_run in Hrun. rewrite Hs0 in Hrun. simpl in Hrun.
  rewrite Hd in Hd0.
  assert (forall v, is_closed s0 v -> exists e, topographic__elevation g !! v = Some e) as Hz.
  { intros v Hv. apply lookup_lt_is_Some_2. rewrite Hlen, <- Hn, <- (ok_closed _ _ Hok).
    by eapply lookup_lt_Some. }
  eapply flood_levels in Hrun as (? & [? ?] & ?); [done|congruence|congruence|done|].
  split; [done|]. split.
  - intros v _. by rewrite Hd0.
  - intros v _. by rewrite Hd0.
  - intros v Hv. destruct (Hz v Hv) as [e He]. exists e. rewrite Hd0. split; [done|].
    apply level_seed; [|done]. apply Hseed. by apply Hcl.
  - intros v Hv. left. by apply Hq.
  - intros v Hv. left. destruct (Hz v Hv) as [e He]. exists e. by rewrite Hd0.
Qed.

Lemma level_is_reached n nbrs opens z0 v L :
  flood_level n nbrs opens z0 v L -> graph_reach n nbrs opens v.
Proof.
  induction 1 as [v e Hs _|u v L e _ IH He _]; [by apply reach_seed|by eapply reach_step].
Qed.

(** At the end no walk from a seed stays below the level a node ends at. *)
Lemma drained_level n nbrs opens z0 st v L :
  flood_between n nbrs opens st -> levels_between n nbrs opens z0 st ->
  next_node st = None -> flood_level n nbrs opens z0 v L ->
  is_closed st v /\ exists e, dem st !! v = Some e /\ e <= L.
Proof.
  intros Hfb [Ho Hs Ha He Hb] Hn.
  induction 1 as [v e Hv Hz|u v L e Hu [IHc (eu & Heu & Hle)] Hedge Hz].
  - split; [by apply (fb_seeds _ _ _ _ Hfb)|]. exists e. rewrite (Hs v Hv). split; [done|lia].
  - destruct (He u IHc) as [Hq|Hed]; [by apply (next_node_None n) in Hq|].
    destruct (Hed v Hedge) as [Hcv (zu & zv & ev & Hzu & Hzv & Hev & Hmax)].
    split; [done|]. exists zv. split; [done|].
    rewrite Heu in Hzu. injection Hzu as <-. rewrite Hz in Hev. injection Hev as <-. lia.
Qed.

(** The filled elevation of a visited node is the lowest level over which
    water escapes: some walk from the open boundary to the node has that
    highest input elevation, and no walk has a lower one. *)
Theorem pit_fill_water_level BAD g pf s v :
  PitFiller_init BAD g = inr pf -> grid_sized g ->
  pit_fill_run pf = Ok s -> is_closed s v ->
  exists e,
    topographic__elevation (_grid (fst (pit_fill pf))) !! v = Some e /\
    flood_level (_n pf) (_neighbors pf) (_open_boundary pf) (topographic__elevation g) v e /\
    forall L, flood_level (_n pf) (_neighbors pf) (_open_boundary pf)
                (topographic__elevation g) v L -> e <= L.
Proof.
  intros Hinit Hsized Hrun Hv.
  destruct (pit_fill_run_levels _ _ _ _ Hinit Hsized Hrun) as (Hok & Hfb & Hlb & Hnone).
  destruct (lb_attained _ _ _ _ _ Hlb v Hv) as (e & He & Hlev).
  exists e. split; [unfold pit_fill; by rewrite Hrun|]. split; [done|].
  intros L HL. destruct (drained_level _ _ _ _ _ _ _ Hfb Hlb Hnone HL) as (_ & e' & He' & Hle).
  rewrite He in He'. injection He' as <-. done.
Qed.

Lemma pit_fill_water_level_witness :
  exists e,
    topographic__elevation (_grid (fst (pit_fill pit_filler))) !! 4%nat = Some e /\
    flood_level 9 (_neighbors pit_filler) (_open_boundary pit_filler)
      [5; 5; 5; 2; 1; 5; 5; 5; 5] 4%nat e /\
    forall L, flood_level 9 (_neighbors pit_filler) (_open_boundary pit_filler)
                [5; 5; 5; 2; 1; 5; 5; 5; 5] 4%nat L -> e <= L.
Proof.
  apply (pit_fill_water_level example_bad pit_grid pit_filler
           (mkState [5; 5; 5; 2; 2; 5; 5; 5; 5] (replicate 9 true) [] []) 4%nat).
  - reflexivity.
  - split; reflexivity.
  - vm_compute. reflexivity.
  - reflexivity.
Defined.

(** Open-boundary nodes keep their elevation, whether the call returns or
    raises. *)
Theorem pit_fill_keeps_open_boundary BAD g pf v :
  PitFiller_init BAD g = inr pf -> grid_sized g -> open_boundary g v ->
  topographic__elevation (_grid (fst (pit_fill pf))) !! v = topographic__elevation g !! v.
Proof.
  intros Hinit Hsized Hv. destruct (PitFiller_init_fields _ _ _ Hinit) as (Hg & _).
  unfold pit_fill. destruct (pit_fill_run pf) as [s|e s] eqn:Hrun; simpl; [|by rewrite Hg].
  destruct (pit_fill_run_levels _ _ _ _ Hinit Hsized Hrun) as (_ & _ & Hlb & _).
  apply (lb_seed _ _ _ _ _ Hlb).
  destruct Hsized as [Hlen _].
  destruct (seeded _ _ _ Hinit Hlen) as (_ & _ & _ & _ & _ & _ & _ & _ & Hseed).
  by apply Hseed.
Qed.

Lemma pit_fill_keeps_open_boundary_witness :
  topographic__elevation (_grid (fst (pit_fill pit_filler))) !! 3%nat
  = topographic__elevation pit_grid !! 3%nat.
Proof.
  apply (pit_fill_keeps_open_boundary example_bad pit_grid pit_filler 3%nat).
  - reflexivity.
  - split; reflexivity.
  - exists 1. split; [reflexivity|by left].
Defined.

(** The nodes visited are exactly those reached from the open boundary along
    neighbour lists, whatever the elevations; a node that is not reached
    keeps its elevation. *)
Theorem pit_fill_visits_reachable BAD g pf s v :
  PitFiller_init BAD g = inr pf -> grid_sized g -> pit_fill_run pf = Ok s ->
  (is_closed s v <-> graph_reach (_n pf) (_neighbors pf) (_open_boundary pf) v) /\
  (~ graph_reach (_n pf) (_neighbors pf) (_open_boundary pf) v ->
   topographic__elevation (_grid (fst (pit_fill pf))) !! v = topographic__elevation g !! v).
Proof.
  intros Hinit Hsized Hrun.
  destruct (pit_fill_run_levels _ _ _ _ Hinit Hsized Hrun) as (Hok & Hfb & Hlb & Hnone).
  assert (is_closed s v <-> graph_reach (_n pf) (_neighbors pf) (_open_boundary pf) v) as Hiff.
  { split; [apply (fb_reach _ _ _ _ Hfb)|].
    intros Hr. by destruct (drained_closed _ _ _ _ _ Hfb Hnone Hr). }
  split; [done|]. intros Hnot. unfold pit_fill. rewrite Hrun. simpl.
  destruct (closed s !! v) as [[|]|] eqn:Hc.
  - destruct Hnot. by apply Hiff.
  - by apply (lb_open _ _ _ _ _ Hlb).
  - apply lookup_ge_None in Hc. rewrite (ok_closed _ _ Hok) in Hc.
    destruct Hsized as [Hlen _].
    destruct (PitFiller_init_fields _ _ _ Hinit) as (_ & _ & Hn & _).
    rewrite (lookup_ge_None_2 (dem s)) by (by rewrite (ok_dem _ _ Hok)).
    symmetry. apply lookup_ge_None_2. rewrite Hlen, <- Hn. done.
Qed.

Lemma pit_fill_visits_reachable_witness :
  (is_closed (mkState [5; 5; 1] [true; true; false] [] []) 2%nat <->
   graph_reach 3 (_neighbors wrap_filler) (_open_boundary wrap_filler) 2%nat) /\
  (~ graph_reach 3 (_neighbors wrap_filler) (_open_boundary wrap_filler) 2%nat ->
   topographic__elevation (_grid (fst (pit_fill wrap_filler))) !! 2%nat
   = topographic__elevation wrap_grid !! 2%nat).
Proof.
  apply (pit_fill_visits_reachable example_bad wrap_grid wrap_filler
           (mkState [5; 5; 1] [true; true; false] [] []) 2%nat).
  - reflexivity.
  - split; reflexivity.
  - vm_compute. reflexivity.
Defined.

(** *** The fill is the least depression-free surface above the input *)

Lemma surface_rising_level n nbrs opens z0 y v :
  raised_from z0 y -> length z0 = n ->
  surface_rising n nbrs opens y v ->
  exists L ey, flood_level n nbrs opens z0 v L /\ y !! v = Some ey /\ L <= ey.
Proof.
  intros Hy Hz0.
  assert (forall w, (w < n)%nat -> exists e ey, z0 !! w = Some e /\ y !! w = Some ey /\ e <= ey)
    as Hat.
  { intros w Hw. destruct (lookup_lt_is_Some_2 z0 w) as [e He]; [lia|].
    destruct (Forall2_lookup_l _ _ _ _ _ Hy He) as (ey & Hey & Hle). by exists e, ey. }
  induction 1 as [v Hv|u v Hu (L & eu & HL & Heu & HLe) Hedge (yu & yv & Hyu & Hyv & Hle)].
  - destruct Hv as (i & Hi & Hiv).
    destruct (Hat v) as (e & ey & He & Hey & Hle); [by eapply py_index_lt|].
    exists e, ey. split; [|done]. apply level_seed; [by exists i|done].
  - destruct Hedge as (row & k & Hrow & Hk & Hk1 & Hkv).
    destruct (Hat v) as (e & ey & He & Hey & Hle'); [by eapply py_index_lt|].
    exists (Z.max L e), ey. split; [|split; [done|]].
    + eapply level_step; [exact HL|by exists row, k|done].
    + rewrite Heu in Hyu. injection Hyu as <-. rewrite Hey in Hyv. injection Hyv as <-. lia.
Qed.

(** Any surface that lies on or above the input and has, for every node
    reachable from the open boundary, a walk from the boundary that never
    steps down, lies on or above the filled surface at every visited node:
    the fill raises no more than it must. *)
Theorem pit_fill_least BAD g pf s y v :
  PitFiller_init BAD g = inr pf -> grid_sized g -> pit_fill_run pf = Ok s ->
  raised_from (topographic__elevation g) y ->
  filled (_n pf) (_neighbors pf) (_open_boundary pf) y ->
  is_closed s v ->
  exists e ey, topographic__elevation (_grid (fst (pit_fill pf))) !! v = Some e /\
               y !! v = Some ey /\ e <= ey.
Proof.
  intros Hinit Hsized Hrun Hy Hfilled Hv.
  destruct (pit_fill_run_levels _ _ _ _ Hinit Hsized Hrun) as (Hok & Hfb & Hlb & Hnone).
  destruct (PitFiller_init_fields _ _ _ Hinit) as (_ & _ & Hn & _).
  pose proof (fb_reach _ _ _ _ Hfb v Hv) as Hreach.
  destruct (surface_rising_level _ _ _ _ _ _ Hy (eq_trans (proj1 Hsized) (eq_sym Hn))
              (Hfilled v Hreach)) as (L & ey & HL & Hey & HLe).
  destruct (drained_level _ _ _ _ _ _ _ Hfb Hlb Hnone HL) as (_ & e & He & Hle).
  exists e, ey. split; [unfold pit_fill; by rewrite Hrun|]. split; [done|lia].
Qed.

(** A surface at one elevation everywhere has no depression. *)
Lemma flat_filled n nbrs opens e :
  filled n nbrs opens (replicate n e).
Proof.
  intros v. induction 1 as [v Hv|u v Hu IH Hedge]; [by apply srising_seed|].
  eapply srising_step; [exact IH|exact Hedge|].
  assert (forall w, graph_reach n nbrs opens w -> (w < n)%nat) as Hlt.
  { intros w [w' (i & _ & Hi)|u' w' _ (row & k & _ & _ & _ & Hk)]; by eapply py_index_lt. }
  exists e, e. rewrite !lookup_replicate_2; [|apply Hlt; by eapply reach_step|by apply Hlt].
  split; [done|]. split; [done|lia].
Qed.

Lemma pit_fill_least_witness :
  exists e ey, topographic__elevation (_grid (fst (pit_fill pit_filler))) !! 4%nat = Some e /\
               replicate 9 6 !! 4%nat = Some ey /\ e <= ey.
Proof.
  apply (pit_fill_least example_bad pit_grid pit_filler
           (mkState [5; 5; 5; 2; 2; 5; 5; 5; 5] (replicate 9 true) [] [])).
  - reflexivity.
  - split; reflexivity.
  - vm_compute. reflexivity.
  - repeat constructor; lia.
  - apply flat_filled.
  - reflexivity.
Defined.

(** *** A higher input gives a higher fill *)

Lemma flood_level_mono n nbrs opens z1 z2 v L2 :
  raised_from z1 z2 -> flood_level n nbrs opens z2 v L2 ->
  exists L1, flood_level n nbrs opens z1 v L1 /\ L1 <= L2.
Proof.
  intros Hz. induction 1 as [v e Hv He|u v L e Hu (L1 & HL1 & Hle) Hedge He].
  - destruct (Forall2_lookup_r _ _ _ _ _ Hz He) as (e1 & He1 & Hle).
    exists e1. split; [by apply level_seed|done].
  - destruct (Forall2_lookup_r _ _ _ _ _ Hz He) as (e1 & He1 & Hle1).
    exists (Z.max L1 e1). split; [by eapply level_step|lia].
Qed.

(** Filling is monotone in the input: on the same grid, a surface that lies
    on or above another one fills to a surface on or above the other's
    fill. *)
Theorem pit_fill_monotone BAD g pf z2 pf1 pf2 :
  PitFiller_init BAD g = inr pf -> grid_sized g ->
  raised_from (topographic__elevation g) z2 ->
  pit_fill pf = (pf1, None) ->
  pit_fill (with_dem pf (set_elevation g z2) z2) = (pf2, None) ->
  raised_from (topographic__elevation (_grid pf1)) (topographic__elevation (_grid pf2)).
Proof.
  intros Hinit Hsized Hz Hf1 Hf2.
  pose proof (PitFiller_init_refill BAD g pf z2 Hinit) as Hinit2.
  destruct (PitFiller_init_fields _ _ _ Hinit) as (_ & _ & Hn & _).
  assert (length z2 = length (topographic__elevation g)) as Hlen2.
  { symmetry. by eapply Forall2_length. }
  assert (grid_sized (set_elevation g z2)) as Hsized2.
  { destruct Hsized as [H1 H2]. split; simpl; [by rewrite Hlen2|done]. }
  set (pfb := with_dem pf (set_elevation g z2) z2) in *.
  unfold pit_fill in Hf1, Hf2.
  destruct (pit_fill_run pf) as [s1|? ?] eqn:Hrun1; [|done]. injection Hf1 as <-.
  destruct (pit_fill_run pfb) as [s2|? ?] eqn:Hrun2; [|done]. injection Hf2 as <-.
  simpl.
  destruct (pit_fill_run_levels _ _ _ _ Hinit Hsized Hrun1) as (Hok1 & Hfb1 & Hlb1 & Hnone1).
  destruct (pit_fill_run_levels _ _ _ _ Hinit2 Hsized2 Hrun2) as (Hok2 & Hfb2 & Hlb2 & Hnone2).
  change (_n pfb) with (_n pf) in *. change (_neighbors pfb) with (_neighbors pf) in *.
  change (_open_boundary pfb) with (_open_boundary pf) in *. simpl in Hlb2.
  apply Forall2_same_length_lookup. split.
  { by rewrite (ok_dem _ _ Hok1), (ok_dem _ _ Hok2). }
  intros v e1 e2 He1 He2.
  destruct (closed s2 !! v) as [[|]|] eqn:Hc2.
  - destruct (lb_attained _ _ _ _ _ Hlb2 v Hc2) as (e2' & He2' & Hlev2).
    rewrite He2 in He2'. injection He2' as <-.
    destruct (flood_level_mono _ _ _ _ _ _ _ Hz Hlev2) as (L1 & HL1 & Hle).
    destruct (drained_level _ _ _ _ _ _ _ Hfb1 Hlb1 Hnone1 HL1) as (_ & e1' & He1' & Hle1).
    rewrite He1 in He1'. injection He1' as <-. lia.
  - assert (closed s1 !! v = Some false) as Hc1.
    { destruct (closed s1 !! v) as [[|]|] eqn:Hc1; [|done|].
      - pose proof (fb_reach _ _ _ _ Hfb1 v Hc1) as Hr.
        destruct (drained_closed _ _ _ _ _ Hfb2 Hnone2 Hr) as [Hcl _].
        unfold is_closed in Hcl. congruence.
      - apply lookup_ge_None in Hc1. apply lookup_lt_Some in Hc2.
        rewrite (ok_closed _ _ Hok1) in Hc1. rewrite (ok_closed _ _ Hok2) in Hc2. lia. }
    rewrite (lb_open _ _ _ _ _ Hlb1 v Hc1) in He1.
    rewrite (lb_open _ _ _ _ _ Hlb2 v Hc2) in He2.
    destruct (Forall2_lookup_l _ _ _ _ _ Hz He1) as (e2' & He2' & Hle).
    rewrite He2 in He2'. by injection He2' as <-.
  - apply lookup_ge_None in Hc2. apply lookup_lt_Some in He2.
    rewrite (ok_closed _ _ Hok2) in Hc2. rewrite (ok_dem _ _ Hok2) in He2. lia.
Qed.

Lemma pit_fill_monotone_witness :
  raised_from
    (topographic__elevation (_grid (fst (pit_fill pit_filler))))
    (topographic__elevation
       (_grid (fst (pit_fill (with_dem pit_filler (set_elevation pit_grid higher_surface)
                                       higher_surface))))).
Proof.
  apply (pit_fill_monotone example_bad pit_grid pit_filler higher_surface).
  - reflexivity.
  - split; reflexivity.
  - repeat constructor; lia.
  - vm_compute. reflexivity.
  - vm_compute. reflexivity.
Defined.

(** *** Surfaces the fill leaves alone *)

Lemma graph_reach_lt n nbrs opens v : graph_reach n nbrs opens v -> (v < n)%nat.
Proof.
  intros [w (i & _ & Hi)|u w _ (row & k & _ & _ & _ & Hk)]; by eapply py_index_lt.
Qed.

(** A surface without depressions (every node reachable from the open
    boundary has a walk from the boundary that never steps down) is returned
    as it is, when every adjacency entry is the no-neighbour mark or a node. *)
Theorem pit_fill_leaves_filled BAD g pf :
  PitFiller_init BAD g = inr pf -> grid_sized g ->
  adjacency_ok (_n pf) (_neighbors pf) ->
  filled (_n pf) (_neighbors pf) (_open_boundary pf) (topographic__elevation g) ->
  snd (pit_fill pf) = None /\
  topographic__elevation (_grid (fst (pit_fill pf))) = topographic__elevation g.
Proof.
  intros Hinit [Hlen Hrows] [Hnb Hadj] Hfilled.
  destruct (seeded _ _ _ Hinit Hlen) as (s0 & Hs0 & Hok & Hm & Hd0 & _).
  destruct (PitFiller_init_fields _ _ _ Hinit) as (_ & Hd & _).
  pose proof (seeded_between _ _ _ _ Hinit Hlen Hs0) as Hfb.
  destruct (flood_filled (_n pf) (_n pf) (_neighbors pf) (_open_boundary pf)
              (topographic__elevation g) s0) as (s' & Hs' & Hz'); try done.
  - intros v Hv. apply graph_reach_lt in Hv.
    destruct (lookup_lt_is_Some_2 (_neighbors pf) v) as [row Hrow]; [by rewrite Hnb|].
    exists row. split; [done|]. intros k Hk. eapply Hadj; [|done].
    by eapply list_elem_of_lookup_2.
  - congruence.
  - lia.
  - lia.
  - unfold pit_fill, pit_fill_run. rewrite Hs0. simpl. rewrite Hs'. simpl. by rewrite Hz'.
Qed.

Lemma raster3_adjacency_ok status elev :
  adjacency_ok 9 (mask_bad example_bad (zip_with app (neighbors_at_node (raster3 status elev))
                                                     (diagonals_at_node (raster3 status elev)))).
Proof.
  split; [reflexivity|]. intros row k Hrow Hk.
  assert (Forall (fun r => Forall (fun j => j = -1 \/ is_Some (py_index 9 j)) r)
            (mask_bad example_bad (zip_with app (neighbors_at_node (raster3 status elev))
                                                (diagonals_at_node (raster3 status elev)))))
    as Hall by compute_done.
  eapply Forall_forall in Hall; [|exact Hrow]. by eapply Forall_forall in Hall.
Qed.

Lemma pit_fill_leaves_filled_witness :
  snd (pit_fill flat_filler) = None /\
  topographic__elevation (_grid (fst (pit_fill flat_filler))) = topographic__elevation flat_grid.
Proof.
  apply (pit_fill_leaves_filled example_bad flat_grid flat_filler).
  - reflexivity.
  - split; reflexivity.
  - exact (raster3_adjacency_ok [4; 4; 4; 1; 0; 4; 4; 4; 4] (replicate 9 7)).
  - exact (flat_filled 9 (_neighbors flat_filler) (_open_boundary flat_filler) 7).
Defined.

(** Without an open boundary nothing is visited: the call returns and the
    surface is unchanged, depressions included. *)
Theorem pit_fill_no_open_boundary BAD g pf :
  PitFiller_init BAD g = inr pf -> (forall v, ~ open_boundary g v) ->
  snd (pit_fill pf) = None /\
  topographic__elevation (_grid (fst (pit_fill pf))) = topographic__elevation g.
Proof.
  intros Hinit Hnone.
  destruct (PitFiller_init_fields _ _ _ Hinit) as (_ & Hd & _ & Ho & _).
  destruct (np_where_spec (fun s => (s =? 1) || (s =? 2)) (status_at_node g))
    as (js & Hjs & _ & Hmem).
  assert (js = []) as ->.
  { destruct js as [|j js]; [done|]. destruct (proj1 (Hmem j)) as (x & Hx & Hp); [by left|].
    destruct (Hnone j). exists x. split; [done|]. apply orb_true_iff in Hp. lia. }
  unfold pit_fill, pit_fill_run. rewrite Ho, Hjs. simpl.
  assert (flood (_n pf) (_n pf) (_neighbors pf) (initial_state pf) = Ok (initial_state pf)) as ->.
  { by destruct (_n pf). }
  simpl. by rewrite Hd.
Qed.

Lemma sealed_grid_has_no_open_boundary v : ~ open_boundary sealed_grid v.
Proof.
  intros (s & Hs & Hor). apply list_elem_of_lookup_2 in Hs. simpl in Hs.
  repeat (apply elem_of_cons in Hs as [->|Hs]; [lia|]). by apply elem_of_nil in Hs.
Qed.

Lemma pit_fill_no_open_boundary_witness :
  snd (pit_fill sealed_filler) = None /\
  topographic__elevation (_grid (fst (pit_fill sealed_filler)))
  = topographic__elevation sealed_grid.
Proof.
  apply (pit_fill_no_open_boundary example_bad sealed_grid sealed_filler).
  - reflexivity.
  - apply sealed_grid_has_no_open_boundary.
Defined.

(* ================================================================== *)
(** * Proofs: ChiFinder *)

Module ChiProofs.
Import Chi ChiSpec.

(** *** Array reads and writes that succeed *)

Lemma py_get_at {A} (d : A) (a : list A) i :
  is_Some (py_index (length a) i) -> py_get a i = Some (at_ d a i).
Proof.
  intros [k Hk]. unfold at_, py_get. rewrite Hk.
  destruct (lookup_lt_is_Some_2 a k) as [x Hx]; [by eapply py_index_lt|]. by rewrite Hx.
Qed.

Lemma py_set_set {A} (a : list A) i x :
  is_Some (py_index (length a) i) -> py_set a i x = Some (set_ a i x).
Proof. intros [k Hk]. unfold set_, py_set. by rewrite Hk. Qed.

Lemma set_length {A} (a : list A) i x : length (set_ a i x) = length a.
Proof.
  unfold set_, py_set. destruct (py_index _ _); simpl; [by rewrite length_insert|done].
Qed.

Lemma at_elem {A} (d : A) (a : list A) i :
  is_Some (py_index (length a) i) -> at_ d a i ∈ a.
Proof.
  intros H. pose proof (py_get_at d a i H) as Hg.
  apply py_get_Some in Hg as (k & _ & Hk). by eapply list_elem_of_lookup_2.
Qed.

Lemma at_index {A} (d : A) (a : list A) i k :
  py_index (length a) i = Some k -> a !! k = Some (at_ d a i).
Proof.
  intros Hk. pose proof (py_get_at d a i (ex_intro _ k Hk)) as Hg.
  apply py_get_Some in Hg as (k' & Hk' & Hx). congruence.
Qed.

Lemma take_at {A} (d : A) (a : list A) idx :
  (forall i, i ∈ idx -> is_Some (py_index (length a) i)) ->
  take a idx = inr (map (at_ d a) idx).
Proof.
  induction idx as [|i idx IH]; intros H; simpl; [done|].
  rewrite (py_get_at d) by (apply H; by left).
  rewrite IH; [done|]. intros j Hj. apply H. by right.
Qed.

Lemma select_filter {A} (p : A -> bool) (l : list A) :
  select (map p l) l = filter (fun x => p x = true) l.
Proof.
  induction l as [|x l IH]; simpl; [done|].
  rewrite filter_cons. destruct (p x) eqn:E.
  - rewrite decide_True by done. by rewrite IH.
  - rewrite decide_False by done. done.
Qed.

Lemma filter_map {A B} (f : A -> B) (P : B -> Prop) `{!forall y, Decision (P y)} (l : list A) :
  filter P (map f l) = map f (filter (fun x => P (f x)) l).
Proof.
  induction l as [|x l IH]; simpl; [done|].
  rewrite !filter_cons. destruct (decide (P (f x))); simpl; by rewrite IH.
Qed.

Lemma put_const_set {A} (a : list A) idx x :
  (forall i, i ∈ idx -> is_Some (py_index (length a) i)) ->
  put_const a idx x = inr (foldl (fun m i => set_ m i x) a idx).
Proof.
  revert a. induction idx as [|i idx IH]; intros a H; simpl; [done|].
  rewrite py_set_set by (apply H; by left).
  apply IH. intros j Hj. rewrite set_length. apply H. by right.
Qed.

Section Refinement.

Variable BAD_INDEX_VALUE : Z.
Variable CLOSED_BOUNDARY : Z.
Variable power : num -> num -> num.
Variable g : Grid.
Hypothesis Hnet : network_ok BAD_INDEX_VALUE g.

Local Abbreviation n := (number_of_nodes g).

Lemma valid_nodes_spec m : valid_nodes g m = inr (valid g m).
Proof.
  unfold valid_nodes, valid.
  rewrite (take_at NaN); simpl.
  - rewrite map_map. f_equal. apply (select_filter (fun node => nge (area g node) m)).
  - intros i Hi. rewrite (net_area _ _ Hnet). by apply (net_order _ _ Hnet).
Qed.

Lemma valid_names m node : node ∈ valid g m -> is_Some (py_index n node).
Proof.
  unfold valid. intros [_ H]%list_elem_of_filter. by apply (net_order _ _ Hnet).
Qed.

Lemma receiver_names node : is_Some (py_index n node) -> is_Some (py_index n (receiver g node)).
Proof.
  intros H. apply (net_receivers _ _ Hnet). apply at_elem. by rewrite (net_receiver _ _ Hnet).
Qed.

Lemma link_names node :
  is_Some (py_index n node) -> link BAD_INDEX_VALUE g node <> BAD_INDEX_VALUE ->
  is_Some (py_index (length (link_length g)) (link BAD_INDEX_VALUE g node)).
Proof.
  intros H Hne. apply (net_link_ids _ _ Hnet); [|done].
  apply at_elem. by rewrite (net_links _ _ Hnet).
Qed.

Lemma mean_channel_node_spacing_spec nodes :
  (forall node, node ∈ nodes -> is_Some (py_index n node)) ->
  mean_channel_node_spacing BAD_INDEX_VALUE g nodes = inr (meanSpacing BAD_INDEX_VALUE g nodes).
Proof.
  intros Hnodes. unfold mean_channel_node_spacing, meanSpacing.
  rewrite (take_at BAD_INDEX_VALUE); simpl.
  2:{ intros i Hi. rewrite (net_links _ _ Hnet). by apply Hnodes. }
  change (at_ BAD_INDEX_VALUE (links_to_flow_receiver g)) with (link BAD_INDEX_VALUE g).
  rewrite filter_map.
  rewrite (take_at NaN); simpl.
  - by rewrite map_map.
  - intros l Hl. apply list_elem_of_fmap in Hl as (node & -> & Hnode).
    apply list_elem_of_filter in Hnode as [Hne Hnode].
    apply link_names; [by apply Hnodes|done].
Qed.

Lemma foldl_set_length {A} (f : list A -> Z -> list A) (l : list Z) (a : list A) :
  (forall a i, length (f a i) = length a) -> length (foldl f a l) = length a.
Proof.
  intros Hf. revert a. induction l as [|i l IH]; intros a; simpl; [done|].
  by rewrite IH, Hf.
Qed.

Lemma uniformStep_length A0 theta c node :
  length (uniformStep power g A0 theta c node) = length c.
Proof. unfold uniformStep. apply set_length. Qed.

Lemma integrate_chi_avg_dx_loop_spec A0 theta nodes c :
  (forall node, node ∈ nodes -> is_Some (py_index n node)) -> length c = n ->
  integrate_chi_avg_dx_loop (flow_receiver g)
    (zip nodes (map (fun a => power (ndiv A0 a) theta) (map (at_ NaN (drainage_area g)) nodes))) c
  = inr (foldl (uniformStep power g A0 theta) c nodes).
Proof.
  revert c. induction nodes as [|node nodes IH]; intros c Hnodes Hc; simpl; [done|].
  assert (is_Some (py_index n node)) as Hn by (apply Hnodes; by left).
  rewrite (py_get_at 0) by (by rewrite (net_receiver _ _ Hnet)).
  fold (receiver g node).
  rewrite (py_get_at NaN) by (rewrite Hc; by apply receiver_names).
  rewrite py_set_set by (by rewrite Hc).
  apply IH; [intros; apply Hnodes; by right|].
  by rewrite ?uniformStep_length, ?set_length.
Qed.

Lemma stamp_spec c :
  length c = n ->
  stamp c (map (fun s => s =? CLOSED_BOUNDARY) (status_at_node g)) zero
  = inr (closedToZero CLOSED_BOUNDARY g c).
Proof.
  intros Hc. unfold stamp, closedToZero. rewrite length_map.
  change (length (status_at_node g)) with n. rewrite <- Hc, Nat.eqb_refl. f_equal.
  by rewrite zip_with_fmap_l.
Qed.

Lemma uniform_stage cf A0 theta m :
  _grid cf = g -> finder_sized cf ->
  bindE (mean_channel_node_spacing BAD_INDEX_VALUE g (valid g m)) (fun mean_dx =>
    integrate_chi_avg_dx g (valid g m)
      (map (fun a => power (ndiv A0 a) theta) (map (at_ NaN (drainage_area g)) (valid g m)))
      (replicate (length (chi cf)) zero) mean_dx)
  = inr (uniformChi BAD_INDEX_VALUE power g A0 theta m).
Proof.
  intros Hg [Hchi _]. rewrite Hg in Hchi.
  rewrite mean_channel_node_spacing_spec by apply valid_names. simpl.
  unfold integrate_chi_avg_dx.
  rewrite integrate_chi_avg_dx_loop_spec; [|apply valid_names|by rewrite length_replicate].
  simpl. unfold uniformChi. by rewrite Hchi.
Qed.

Lemma calculate_chi_tail cf m chi1 :
  _grid cf = g -> finder_sized cf -> length chi1 = n ->
  bindE (stamp chi1 (map (fun s => s =? CLOSED_BOUNDARY) (status_at_node g)) zero) (fun chi2 =>
  bindE (put_const (replicate (length (_mask cf)) true) (valid g m) false) (fun mask1 =>
  inr (mkChiFinder g (_reftheta cf) (min_drainage cf) (_A0 cf) (use_true_dx cf) chi2 mask1)))
  = inr (mkChiFinder g (_reftheta cf) (min_drainage cf) (_A0 cf) (use_true_dx cf)
           (closedToZero CLOSED_BOUNDARY g chi1) (outsideChannel g (valid g m))).
Proof.
  intros Hg [_ Hmask] Hlen. rewrite Hg in Hmask.
  rewrite stamp_spec by done. simpl.
  rewrite put_const_set.
  - simpl. unfold outsideChannel. by rewrite Hmask.
  - intros i Hi. rewrite length_replicate, Hmask. by eapply valid_names.
Qed.

Lemma uniformChi_length A0 theta m :
  length (uniformChi BAD_INDEX_VALUE power g A0 theta m) = n.
Proof.
  unfold uniformChi. rewrite length_map, foldl_set_length; [by rewrite length_replicate|].
  apply uniformStep_length.
Qed.

Lemma uniform_run cf theta m A0 :
  _grid cf = g -> finder_sized cf ->
  calculate_chi_with BAD_INDEX_VALUE CLOSED_BOUNDARY power cf theta m A0 false
  = inr (mkChiFinder g (_reftheta cf) (min_drainage cf) (_A0 cf) (use_true_dx cf)
           (closedToZero CLOSED_BOUNDARY g (uniformChi BAD_INDEX_VALUE power g A0 theta m))
           (outsideChannel g (valid g m))).
Proof.
  intros Hg Hsized.
  unfold calculate_chi_with. rewrite Hg, valid_nodes_spec. simpl.
  rewrite (take_at NaN).
  2:{ intros i Hi. rewrite (net_area _ _ Hnet). by eapply valid_names. }
  simpl. rewrite (uniform_stage cf A0 theta m Hg Hsized). simpl.
  apply calculate_chi_tail; [done|done|apply uniformChi_length].
Qed.

(** ** C1: uniform-spacing mode *)

(** C1, as the code has it. On a flow network as the specification assumes
    it, a call of [calculate_chi] whose parameters resolve to [theta], [m],
    [A0] and uniform spacing returns; its chi array is the one the
    specification describes (start from zeros, for each valid node in
    upstream order set chi[node] = chi[receiver] + (A0/area)^theta, then
    multiply every entry by the mean spacing) with, after that, the entry of
    every closed-boundary node set to 0; its mask is false exactly at the
    valid nodes. *)
Theorem calculate_chi_uniform cf kwds theta m A0 :
  _grid cf = g -> finder_sized cf ->
  resolve cf kwds = inr (theta, m, A0, false) ->
  calculate_chi BAD_INDEX_VALUE CLOSED_BOUNDARY power cf kwds
  = inr (mkChiFinder g (_reftheta cf) (min_drainage cf) (_A0 cf) (use_true_dx cf)
           (closedToZero CLOSED_BOUNDARY g (uniformChi BAD_INDEX_VALUE power g A0 theta m))
           (outsideChannel g (valid g m))).
Proof.
  intros Hg Hsized Hres. unfold calculate_chi. rewrite Hres. simpl.
  by apply uniform_run.
Qed.

(** *** Exact-spacing mode *)

Lemma at_resolve {A} (d : A) (a : list A) i k :
  py_index (length a) i = Some k -> at_ d a i = at_ d a (Z.of_nat k).
Proof.
  intros Hk. unfold at_, py_get. rewrite Hk.
  rewrite py_index_of_nat by (by eapply py_index_lt). done.
Qed.

Lemma half_distr a b : nadd (nmul half a) (nmul half b) = nmul half (nadd a b).
Proof.
  destruct a as [x| | |], b as [y| | |]; simpl; try reflexivity.
  f_equal. ring.
Qed.

Lemma put_each_spec {A} (F : Z -> A) (Fv : nat -> A) (len : nat) nodes (a : list A) :
  (forall node v, py_index len node = Some v -> F node = Fv v) ->
  (forall node, node ∈ nodes -> is_Some (py_index len node)) -> length a = len ->
  exists arr, put_each a nodes (map F nodes) = inr arr /\ length arr = len /\
    forall v, arr !! v =
      if decide (Exists (fun node => py_index len node = Some v) nodes)
      then Some (Fv v) else a !! v.
Proof.
  intros HF. revert a. induction nodes as [|node nodes IH]; intros a Hnodes Ha; simpl.
  - exists a. split; [done|]. split; [done|]. intros v.
    destruct (decide (Exists (fun node => py_index len node = Some v) [])) as [He|_]; [|done].
    by apply Exists_nil in He.
  - destruct (Hnodes node) as [k Hk]; [by left|].
    assert (py_set a node (F node) = Some (<[k := F node]> a)) as ->.
    { apply py_set_Some. exists k. by rewrite Ha. }
    destruct (IH (<[k := F node]> a)) as (arr & -> & Hlen & Harr).
    { intros; apply Hnodes; by right. }
    { by rewrite length_insert. }
    exists arr. split; [done|]. split; [done|]. intros v. rewrite Harr.
    destruct (decide (Exists (fun node0 => py_index len node0 = Some v) nodes)) as [He|He].
    + rewrite decide_True; [done|]. by apply Exists_cons_tl.
    + destruct (decide (k = v)) as [->|Hne].
      * rewrite decide_True by (by apply Exists_cons_hd).
        rewrite list_lookup_insert_eq by (rewrite Ha; by eapply py_index_lt).
        f_equal. by apply HF.
      * rewrite decide_False.
        -- by rewrite list_lookup_insert_ne.
        -- intros [?|?]%Exists_cons; [congruence|done].
Qed.

Lemma exactStep_length A0 theta nodes c node :
  length (exactStep BAD_INDEX_VALUE power g A0 theta nodes c node) = length c.
Proof. unfold exactStep. destruct (_ =? _); [done|apply set_length]. Qed.

Lemma integrate_chi_each_dx_loop_spec A0 theta nodes arr order c :
  length arr = n ->
  (forall v, (v < n)%nat -> arr !! v = Some (integrandAt power g A0 theta nodes v)) ->
  (forall node, node ∈ order -> is_Some (py_index n node)) -> length c = n ->
  integrate_chi_each_dx_loop BAD_INDEX_VALUE g (map (nmul half) arr) order c
  = inr (foldl (exactStep BAD_INDEX_VALUE power g A0 theta nodes) c order).
Proof.
  intros Hlen Harr.
  assert (forall node, is_Some (py_index n node) ->
            py_get (map (nmul half) arr) node
            = Some (nmul half (integrand power g A0 theta nodes node))) as Hhalf.
  { intros node [v Hv]. apply py_get_Some. exists v. rewrite length_map, Hlen.
    split; [done|]. rewrite list_lookup_fmap, Harr by (by eapply py_index_lt).
    unfold integrand. by rewrite Hv. }
  revert c. induction order as [|node order IH]; intros c Horder Hc; simpl; [done|].
  assert (is_Some (py_index n node)) as Hn by (apply Horder; by left).
  rewrite (py_get_at 0) by (by rewrite (net_receiver _ _ Hnet)).
  rewrite (py_get_at BAD_INDEX_VALUE) by (by rewrite (net_links _ _ Hnet)).
  fold (receiver g node). fold (link BAD_INDEX_VALUE g node).
  unfold exactStep at 2.
  destruct (Z.eqb_spec (link BAD_INDEX_VALUE g node) BAD_INDEX_VALUE) as [He|Hne].
  - apply IH; [intros; apply Horder; by right|done].
  - rewrite (py_get_at NaN) by (by apply link_names).
    rewrite !Hhalf by (try apply receiver_names; done).
    rewrite (py_get_at NaN) by (rewrite Hc; by apply receiver_names).
    rewrite py_set_set by (by rewrite Hc).
    rewrite half_distr. fold (linkLength BAD_INDEX_VALUE g node).
    apply IH; [intros; apply Horder; by right|by rewrite set_length].
Qed.

Lemma exactChi_length A0 theta m :
  length (exactChi BAD_INDEX_VALUE power g A0 theta m) = n.
Proof.
  unfold exactChi. rewrite foldl_set_length; [by rewrite length_replicate|].
  intros. apply exactStep_length.
Qed.

Lemma exact_run cf theta m A0 :
  _grid cf = g -> finder_sized cf ->
  calculate_chi_with BAD_INDEX_VALUE CLOSED_BOUNDARY power cf theta m A0 true
  = inr (mkChiFinder g (_reftheta cf) (min_drainage cf) (_A0 cf) (use_true_dx cf)
           (closedToZero CLOSED_BOUNDARY g (exactChi BAD_INDEX_VALUE power g A0 theta m))
           (outsideChannel g (valid g m))).
Proof.
  intros Hg Hsized.
  unfold calculate_chi_with. rewrite Hg, valid_nodes_spec. simpl.
  rewrite (take_at NaN).
  2:{ intros i Hi. rewrite (net_area _ _ Hnet). by eapply valid_names. }
  simpl. rewrite map_map.
  destruct (put_each_spec (fun node => power (ndiv A0 (area g node)) theta)
              (fun v => power (ndiv A0 (area g (Z.of_nat v))) theta)
              n (valid g m) (replicate n zero)) as (arr & Harr & Hlen & Hat).
  { intros node v Hv. unfold area. f_equal. f_equal.
    apply at_resolve. by rewrite (net_area _ _ Hnet). }
  { apply valid_names. }
  { by rewrite length_replicate. }
  unfold area in Harr. rewrite Harr. simpl.
  unfold integrate_chi_each_dx.
  destruct Hsized as [Hchi Hmask]. rewrite Hg in Hchi.
  rewrite (integrate_chi_each_dx_loop_spec A0 theta (valid g m));
    [|done| |apply valid_names|by rewrite length_replicate].
  - simpl. rewrite Hchi.
    apply calculate_chi_tail; [done|split; [by rewrite Hg|done]|apply exactChi_length].
  - intros v Hv. rewrite Hat. unfold integrandAt.
    destruct (decide _); [done|]. by apply lookup_replicate.
Qed.

(** ** C2: exact-spacing mode *)

(** C2. On a flow network as the specification assumes it, a call of
    [calculate_chi] whose parameters resolve to [theta], [m], [A0] and exact
    spacing returns, and its chi array is built as the claim says: starting
    from zeros, the valid nodes are handled in upstream order; one with a
    link to its receiver gets chi[receiver] + 0.5 * (integrand(node) +
    integrand(receiver)) * linkLength, where integrand is (A0/area)^theta at
    valid nodes and 0 elsewhere; one whose link is the no-link marker is left
    as it is. (The closed-boundary entries are then set to 0, and the mask is
    false exactly at the valid nodes.) *)
Theorem calculate_chi_exact cf kwds theta m A0 :
  _grid cf = g -> finder_sized cf ->
  resolve cf kwds = inr (theta, m, A0, true) ->
  calculate_chi BAD_INDEX_VALUE CLOSED_BOUNDARY power cf kwds
  = inr (mkChiFinder g (_reftheta cf) (min_drainage cf) (_A0 cf) (use_true_dx cf)
           (closedToZero CLOSED_BOUNDARY g (exactChi BAD_INDEX_VALUE power g A0 theta m))
           (outsideChannel g (valid g m))).
Proof.
  intros Hg Hsized Hres. unfold calculate_chi. rewrite Hres. simpl.
  by apply exact_run.
Qed.

(** *** No node meets the threshold *)

Lemma mean_nil : mean [] = NaN.
Proof. compute_done. Qed.

Lemma map_replicate_const {A B} (f : A -> B) k x : map f (replicate k x) = replicate k (f x).
Proof. induction k; simpl; [done|]. by f_equal. Qed.

(** With no valid node the uniform mode multiplies the zeros by the mean of
    an empty array: every entry that is not a closed boundary is NaN. *)
Lemma no_valid_nodes_uniform cf kwds theta m A0 :
  _grid cf = g -> finder_sized cf -> valid g m = [] ->
  resolve cf kwds = inr (theta, m, A0, false) ->
  calculate_chi BAD_INDEX_VALUE CLOSED_BOUNDARY power cf kwds
  = inr (mkChiFinder g (_reftheta cf) (min_drainage cf) (_A0 cf) (use_true_dx cf)
           (closedToZero CLOSED_BOUNDARY g (replicate n NaN)) (replicate n true)).
Proof.
  intros Hg Hsized Hvalid Hres. unfold calculate_chi. rewrite Hres. simpl.
  rewrite (uniform_run cf theta m A0 Hg Hsized).
  unfold uniformChi, outsideChannel, meanSpacing. rewrite Hvalid. simpl.
  rewrite mean_nil. by rewrite map_replicate_const.
Qed.

Lemma closedToZero_zero : closedToZero CLOSED_BOUNDARY g (replicate n zero) = replicate n zero.
Proof.
  unfold closedToZero, number_of_nodes.
  induction (status_at_node g) as [|s l IH]; simpl; [done|].
  rewrite IH. by destruct (s =? CLOSED_BOUNDARY).
Qed.

(** In the exact mode, when no node meets the threshold, the call returns
    with chi 0 everywhere and the mask true everywhere. *)
Lemma no_valid_nodes_exact cf kwds theta m A0 :
  _grid cf = g -> finder_sized cf -> valid g m = [] ->
  resolve cf kwds = inr (theta, m, A0, true) ->
  calculate_chi BAD_INDEX_VALUE CLOSED_BOUNDARY power cf kwds
  = inr (mkChiFinder g (_reftheta cf) (min_drainage cf) (_A0 cf) (use_true_dx cf)
           (replicate n zero) (replicate n true)).
Proof.
  intros Hg Hsized Hvalid Hres. unfold calculate_chi. rewrite Hres. simpl.
  rewrite (exact_run cf theta m A0 Hg Hsized).
  unfold exactChi, outsideChannel. rewrite Hvalid. simpl. by rewrite closedToZero_zero.
Qed.

(** *** Chi does not decrease upstream *)

Lemma at_set_eq {A} (d : A) (c : list A) x y v :
  is_Some (py_index (length c) x) -> py_index (length c) y = py_index (length c) x ->
  at_ d (set_ c x v) y = v.
Proof.
  intros [k Hk] Hy. unfold at_, set_, py_set, py_get. rewrite Hk. simpl.
  rewrite length_insert, Hy, Hk.
  rewrite list_lookup_insert_eq by (by eapply py_index_lt). done.
Qed.

Lemma at_set_ne {A} (d : A) (c : list A) x y v :
  py_index (length c) y <> py_index (length c) x ->
  at_ d (set_ c x v) y = at_ d c y.
Proof.
  intros Hy. unfold at_, set_, py_set, py_get.
  destruct (py_index (length c) x) as [k|] eqn:Hk; simpl; [|done].
  rewrite length_insert.
  destruct (py_index (length c) y) as [j|]; [|done].
  rewrite list_lookup_insert_ne; [done|congruence].
Qed.

Lemma at_Forall {A} (P : A -> Prop) (d : A) (c : list A) i :
  Forall P c -> is_Some (py_index (length c) i) -> P (at_ d c i).
Proof.
  intros Hc Hi. eapply Forall_forall; [exact Hc|]. by apply at_elem.
Qed.

Lemma set_Forall {A} (P : A -> Prop) (c : list A) i v :
  Forall P c -> P v -> Forall P (set_ c i v).
Proof.
  intros Hc Hv. unfold set_, py_set. destruct (py_index _ _) as [k|]; simpl; [|done].
  by apply Forall_insert.
Qed.

Lemma nonneg_zero : nonneg zero.
Proof. exists 0%Qc. split; [done|apply Qcle_refl]. Qed.

Lemma nonneg_add a b : nonneg a -> nonneg b -> nonneg (nadd a b).
Proof.
  intros (x & -> & Hx) (y & -> & Hy). exists (x + y)%Qc. split; [done|].
  by apply Qcplus_nonneg_nonneg.
Qed.

Lemma nonneg_mul a b : nonneg a -> nonneg b -> nonneg (nmul a b).
Proof.
  intros (x & -> & Hx) (y & -> & Hy). exists (x * y)%Qc. split; [done|].
  by apply Qcmult_nonneg_nonneg.
Qed.

Lemma num_le_refl a : nonneg a -> num_le a a.
Proof. intros (x & -> & _). exists x, x. split; [done|]. split; [done|apply Qcle_refl]. Qed.

Lemma num_le_trans a b c : num_le a b -> num_le b c -> num_le a c.
Proof.
  intros (x & y & -> & -> & Hxy) (y' & z & [= <-] & -> & Hyz).
  exists x, z. split; [done|]. split; [done|]. by eapply Qcle_trans.
Qed.

Lemma num_le_add a i : nonneg a -> nonneg i -> num_le a (nadd a i).
Proof.
  intros (x & -> & Hx) (y & -> & Hy). exists x, (x + y)%Qc. split; [done|]. split; [done|].
  rewrite <- (Qcplus_0_r x) at 1. by apply Qcplus_le_mono_l.
Qed.

Lemma num_le_mul_r a b c : num_le a b -> nonneg c -> num_le (nmul a c) (nmul b c).
Proof.
  intros (x & y & -> & -> & Hxy) (z & -> & Hz). exists (x * z)%Qc, (y * z)%Qc.
  split; [done|]. split; [done|]. by apply Qcmult_le_compat_r.
Qed.

Lemma num_le_zero a : nonneg a -> num_le zero a.
Proof. intros (x & -> & Hx). exists 0%Qc, x. done. Qed.

Lemma gstep_length skip inc c node : length (gstep g skip inc c node) = length c.
Proof. unfold gstep. destruct (skip node); [done|apply set_length]. Qed.

Lemma upstream_ordered_snoc l x :
  upstream_ordered g (l ++ [x]) ->
  upstream_ordered g l /\
  forall a, a ∈ l -> idx g x <> idx g a /\ idx g x <> idx g (receiver g a).
Proof.
  intros Hord. split.
  - intros i j a b Ha Hb Hij. apply (Hord i j); [by apply lookup_app_l_Some..|done].
  - intros a Ha. apply list_elem_of_lookup in Ha as [i Hi].
    apply (Hord i (length l)); [by apply lookup_app_l_Some| |by eapply lookup_lt_Some].
    rewrite lookup_app_r by done. by rewrite Nat.sub_diag.
Qed.

Lemma gfold_nondecreasing skip inc nodes c0 :
  length c0 = n -> Forall nonneg c0 ->
  (forall node, node ∈ nodes -> is_Some (idx g node)) ->
  upstream_ordered g nodes ->
  (forall node, node ∈ nodes -> skip node = false -> nonneg (inc node)) ->
  Forall nonneg (foldl (gstep g skip inc) c0 nodes) /\
  forall node, node ∈ nodes -> skip node = false ->
    num_le (at_ NaN (foldl (gstep g skip inc) c0 nodes) (receiver g node))
           (at_ NaN (foldl (gstep g skip inc) c0 nodes) node).
Proof.
  intros Hlen Hc0. induction nodes as [|x l IH] using rev_ind; intros Hnames Hord Hinc.
  { split; [done|]. by intros node ?%elem_of_nil. }
  apply upstream_ordered_snoc in Hord as [Hord Hx].
  destruct IH as [IHnn IHle]; [intros; apply Hnames, elem_of_app; by left|done|
                               intros; apply Hinc; [apply elem_of_app; by left|done]|].
  rewrite foldl_snoc. set (c := foldl (gstep g skip inc) c0 l) in *.
  assert (length c = n) as Hc.
  { subst c. rewrite foldl_set_length; [done|]. intros. apply gstep_length. }
  assert (is_Some (idx g x)) as Hxn by (apply Hnames, elem_of_app; right; by left).
  change (gstep g skip inc c x)
    with (if skip x then c else set_ c x (nadd (at_ NaN c (receiver g x)) (inc x))).
  destruct (skip x) eqn:Hskip.
  - split; [done|]. intros node [Hnode|Hnode]%elem_of_app Hs; [by apply IHle|].
    apply list_elem_of_singleton in Hnode as ->. congruence.
  - assert (nonneg (at_ NaN c (receiver g x))) as Hr.
    { apply at_Forall; [done|]. rewrite Hc. by apply receiver_names. }
    assert (nonneg (inc x)) as Hi by (apply Hinc; [apply elem_of_app; right; by left|done]).
    split; [apply set_Forall; [done|by apply nonneg_add]|].
    intros node [Hnode|Hnode]%elem_of_app Hs.
    + destruct (Hx node Hnode) as [H1 H2]. unfold idx in H1, H2.
      rewrite !at_set_ne by (rewrite Hc; congruence). by apply IHle.
    + apply list_elem_of_singleton in Hnode as ->.
      rewrite (at_set_eq NaN c x x) by (rewrite ?Hc; done).
      destruct (decide (idx g (receiver g x) = idx g x)) as [He|Hne].
      * rewrite at_set_eq by (rewrite ?Hc; done).
        apply num_le_refl. by apply nonneg_add.
      * rewrite at_set_ne by (rewrite Hc; exact Hne). by apply num_le_add.
Qed.

Lemma at_lookup {A} (d : A) (a : list A) i k x :
  py_index (length a) i = Some k -> a !! k = Some x -> at_ d a i = x.
Proof. intros Hk Hx. unfold at_, py_get. by rewrite Hk, Hx. Qed.

Lemma at_map {A B} (f : A -> B) (d : A) (d' : B) (c : list A) i :
  is_Some (py_index (length c) i) -> at_ d' (map f c) i = f (at_ d c i).
Proof.
  intros [k Hk]. apply (at_lookup _ _ _ k); [by rewrite length_map|].
  rewrite list_lookup_fmap. by rewrite (at_index d c i k Hk).
Qed.

Lemma at_closedToZero c i :
  length c = n -> is_Some (py_index n i) ->
  at_ NaN (closedToZero CLOSED_BOUNDARY g c) i
  = if at_ 0 (status_at_node g) i =? CLOSED_BOUNDARY then zero else at_ NaN c i.
Proof.
  intros Hc [k Hk]. unfold closedToZero.
  apply (at_lookup _ _ _ k).
  - rewrite length_zip_with_l_eq; [done|]. by rewrite Hc.
  - rewrite lookup_zip_with.
    rewrite (at_index 0 (status_at_node g) i k Hk).
    rewrite (at_index NaN c i k) by (by rewrite Hc). done.
Qed.

Lemma positive_gt a : ngt (Fin a) zero = true -> (0 < a)%Qc.
Proof.
  unfold ngt, nge, zero. intros [_ H]%andb_true_iff.
  apply Qcgt_alt. destruct (a ?= 0)%Qc; done.
Qed.

Lemma resolve_positive cf kwds theta m a0 dx :
  resolve cf kwds = inr (theta, m, Fin a0, dx) -> (0 < a0)%Qc.
Proof.
  unfold resolve. destruct (match default _ _ with None => _ | Some a => _ end) as [e|A0]; [done|].
  simpl. destruct (ngt A0 zero) eqn:Hgt; [|done]. intros [= _ _ -> _]. by apply positive_gt.
Qed.

Section Increments.

Variables (theta m : num) (a0 : Qc).
Hypothesis Ha0 : (0 < a0)%Qc.
Hypothesis Hpow : forall x, (0 < x)%Qc -> nonneg (power (Fin x) theta).
Hypothesis Harea : forall nd, nd ∈ valid g m -> positive (area g nd).
Hypothesis Hlens : forall nd, nd ∈ valid g m -> link BAD_INDEX_VALUE g nd <> BAD_INDEX_VALUE ->
  nonneg (linkLength BAD_INDEX_VALUE g nd).

Lemma ratio_power_nonneg a : positive a -> nonneg (power (ndiv (Fin a0) a) theta).
Proof.
  intros (x & -> & Hx). unfold ndiv.
  destruct (Qc_eq_dec x 0%Qc) as [->|_]; [by apply Qclt_not_eq in Hx|].
  apply Hpow. apply Qcmult_pos_pos; [done|by apply Qcinv_pos].
Qed.

Lemma integrand_nonneg nd :
  is_Some (py_index n nd) -> nonneg (integrand power g (Fin a0) theta (valid g m) nd).
Proof.
  intros [v Hv]. unfold integrand. rewrite Hv. unfold integrandAt.
  destruct (decide _) as [He|_]; [|apply nonneg_zero].
  apply Exists_exists in He as (nd2 & Hnd2 & Hv2).
  apply ratio_power_nonneg. unfold area.
  rewrite <- (at_resolve NaN (drainage_area g) nd2 v) by (by rewrite (net_area _ _ Hnet)).
  by apply Harea.
Qed.

Lemma half_nonneg : nonneg half.
Proof. exists (Q2Qc (1 # 2)). split; [done|]. by apply Qclt_le_weak. Qed.

Lemma uniform_fold_nondecreasing :
  upstream_ordered g (valid g m) ->
  let C := foldl (uniformStep power g (Fin a0) theta) (replicate n zero) (valid g m) in
  Forall nonneg C /\
  forall nd, nd ∈ valid g m -> num_le (at_ NaN C (receiver g nd)) (at_ NaN C nd).
Proof.
  intros Hord C.
  destruct (gfold_nondecreasing (fun _ => false)
              (fun nd => power (ndiv (Fin a0) (area g nd)) theta)
              (valid g m) (replicate n zero)) as [H1 H2].
  - by rewrite length_replicate.
  - apply Forall_replicate. apply nonneg_zero.
  - apply valid_names.
  - done.
  - intros nd Hnd _. apply ratio_power_nonneg. by apply Harea.
  - split; [exact H1|]. intros nd Hnd. by apply H2.
Qed.

Lemma exact_fold_nondecreasing :
  upstream_ordered g (valid g m) ->
  let C := exactChi BAD_INDEX_VALUE power g (Fin a0) theta m in
  Forall nonneg C /\
  forall nd, nd ∈ valid g m -> link BAD_INDEX_VALUE g nd <> BAD_INDEX_VALUE ->
    num_le (at_ NaN C (receiver g nd)) (at_ NaN C nd).
Proof.
  intros Hord C.
  destruct (gfold_nondecreasing (fun nd => link BAD_INDEX_VALUE g nd =? BAD_INDEX_VALUE)
              (fun nd => nmul (nmul half (nadd (integrand power g (Fin a0) theta (valid g m) nd)
                                               (integrand power g (Fin a0) theta (valid g m)
                                                  (receiver g nd))))
                              (linkLength BAD_INDEX_VALUE g nd))
              (valid g m) (replicate n zero)) as [H1 H2].
  - by rewrite length_replicate.
  - apply Forall_replicate. apply nonneg_zero.
  - apply valid_names.
  - done.
  - intros nd Hnd Hs. apply Z.eqb_neq in Hs.
    assert (is_Some (py_index n nd)) as Hn by (by eapply valid_names).
    apply nonneg_mul; [|by apply Hlens].
    apply nonneg_mul; [apply half_nonneg|].
    apply nonneg_add; apply integrand_nonneg; [done|by apply receiver_names].
  - split; [exact H1|]. intros nd Hnd Hl. apply H2; [done|]. by apply Z.eqb_neq.
Qed.

Lemma nsum_nonneg l : Forall nonneg l -> nonneg (nsum l).
Proof.
  induction 1 as [|a l Ha _ IH]; simpl; [apply nonneg_zero|]. by apply nonneg_add.
Qed.

Lemma mean_nonneg l : l <> [] -> Forall nonneg l -> nonneg (mean l).
Proof.
  intros Hne Hl. destruct (nsum_nonneg l Hl) as (s & Hs & Hs0).
  unfold mean. rewrite Hs. unfold ndiv.
  assert (Qc_of_Z 0 < Qc_of_Z (Z.of_nat (length l)))%Qc as Hpos.
  { apply (proj1 (Z2Qc_inj_lt 0 (Z.of_nat (length l)))). destruct l; [done|]. simpl. lia. }
  rewrite Z2Qc_inj_0 in Hpos.
  destruct (Qc_eq_dec _ 0%Qc) as [He|_]; [rewrite He in Hpos; by apply Qclt_not_eq in Hpos|].
  eexists. split; [done|]. apply Qcmult_nonneg_nonneg; [done|].
  apply Qclt_le_weak. by apply Qcinv_pos.
Qed.

Lemma meanSpacing_nonneg :
  (exists nd, nd ∈ valid g m /\ link BAD_INDEX_VALUE g nd <> BAD_INDEX_VALUE) ->
  nonneg (meanSpacing BAD_INDEX_VALUE g (valid g m)).
Proof.
  intros (nd & Hnd & Hl). unfold meanSpacing. apply mean_nonneg.
  - intros He. apply fmap_nil_inv in He.
    assert (nd ∈ filter (fun node => link BAD_INDEX_VALUE g node <> BAD_INDEX_VALUE) (valid g m))
      as Hin by (by apply list_elem_of_filter).
    rewrite He in Hin. by apply elem_of_nil in Hin.
  - apply Forall_forall. intros x Hx. apply list_elem_of_fmap in Hx as (nd' & -> & Hnd').
    apply list_elem_of_filter in Hnd' as [? ?]. by apply Hlens.
Qed.

End Increments.

Lemma closedToZero_nondecreasing c node :
  length c = n -> Forall nonneg c -> is_Some (py_index n node) ->
  at_ 0 (status_at_node g) node <> CLOSED_BOUNDARY ->
  num_le (at_ NaN c (receiver g node)) (at_ NaN c node) ->
  num_le (at_ NaN (closedToZero CLOSED_BOUNDARY g c) (receiver g node))
         (at_ NaN (closedToZero CLOSED_BOUNDARY g c) node).
Proof.
  intros Hc Hnn Hnode Hopen Hle.
  rewrite !at_closedToZero by (try apply receiver_names; done).
  destruct (Z.eqb_spec (at_ 0 (status_at_node g) node) CLOSED_BOUNDARY) as [?|_]; [done|].
  destruct (_ =? _); [|done].
  apply num_le_zero. apply at_Forall; [done|by rewrite Hc].
Qed.

(** ** C7: chi does not decrease upstream *)

(** C7, as the code has it. Take a flow network as the specification assumes
    it whose valid nodes are listed in upstream order, with a finite positive
    [A0], finite positive drainage areas and finite non-negative link lengths
    at the valid nodes, and a power that is finite and non-negative on
    positive bases. Then [calculate_chi] returns, and for every valid node
    that is not a closed boundary, chi at its receiver is at most chi at the
    node: in the exact mode when the node has a link to its receiver (so that
    its entry was assigned), in the uniform mode when at least one valid node
    has a link (so that the mean spacing exists). *)
Theorem chi_nondecreasing_upstream cf kwds theta m a0 dx node :
  _grid cf = g -> finder_sized cf ->
  resolve cf kwds = inr (theta, m, Fin a0, dx) ->
  (forall x, (0 < x)%Qc -> nonneg (power (Fin x) theta)) ->
  (forall nd, nd ∈ valid g m -> positive (area g nd)) ->
  (forall nd, nd ∈ valid g m -> link BAD_INDEX_VALUE g nd <> BAD_INDEX_VALUE ->
     nonneg (linkLength BAD_INDEX_VALUE g nd)) ->
  upstream_ordered g (valid g m) ->
  node ∈ valid g m ->
  at_ 0 (status_at_node g) node <> CLOSED_BOUNDARY ->
  (if dx then link BAD_INDEX_VALUE g node <> BAD_INDEX_VALUE
   else exists nd, nd ∈ valid g m /\ link BAD_INDEX_VALUE g nd <> BAD_INDEX_VALUE) ->
  exists cf', calculate_chi BAD_INDEX_VALUE CLOSED_BOUNDARY power cf kwds = inr cf' /\
    num_le (at_ NaN (chi cf') (receiver g node)) (at_ NaN (chi cf') node).
Proof.
  intros Hg Hsized Hres Hpow Harea Hlens Hord Hnode Hopen Hlink.
  pose proof (resolve_positive _ _ _ _ _ _ Hres) as Ha0.
  assert (is_Some (py_index n node)) as Hn by (by eapply valid_names).
  destruct dx.
  - unfold calculate_chi. rewrite Hres. simpl.
    rewrite (exact_run cf theta m (Fin a0) Hg Hsized).
    eexists. split; [done|]. simpl.
    destruct (exact_fold_nondecreasing theta m a0 Ha0 Hpow Harea Hlens Hord) as [Hnn Hle].
    apply closedToZero_nondecreasing; [apply exactChi_length|done|done|done|by apply Hle].
  - unfold calculate_chi. rewrite Hres. simpl.
    rewrite (uniform_run cf theta m (Fin a0) Hg Hsized).
    eexists. split; [done|]. simpl.
    destruct (uniform_fold_nondecreasing theta m a0 Ha0 Hpow Harea Hord) as [Hnn Hle].
    pose proof (meanSpacing_nonneg m Hlens Hlink) as Hmean.
    set (C := foldl (uniformStep power g (Fin a0) theta) (replicate n zero) (valid g m)) in *.
    assert (length C = n) as HC.
    { subst C. rewrite foldl_set_length; [by rewrite length_replicate|].
      apply uniformStep_length. }
    assert (forall i, is_Some (py_index n i) ->
              at_ NaN (uniformChi BAD_INDEX_VALUE power g (Fin a0) theta m) i
              = nmul (at_ NaN C i) (meanSpacing BAD_INDEX_VALUE g (valid g m))) as Hat.
    { intros i Hi. unfold uniformChi. fold C.
      apply (at_map (fun c => nmul c (meanSpacing BAD_INDEX_VALUE g (valid g m))) NaN NaN C i).
      by rewrite HC. }
    apply closedToZero_nondecreasing; [apply uniformChi_length| |done|done|].
    + unfold uniformChi. fold C. apply Forall_fmap. eapply Forall_impl; [exact Hnn|].
      intros c Hc. simpl. by apply nonneg_mul.
    + rewrite !Hat by (try apply receiver_names; done).
      apply num_le_mul_r; [by apply Hle|done].
Qed.

(** *** What holds of the mask, of closed nodes and of nodes below the threshold *)

Lemma calculate_chi_result cf kwds theta m A0 dx :
  _grid cf = g -> finder_sized cf -> resolve cf kwds = inr (theta, m, A0, dx) ->
  calculate_chi BAD_INDEX_VALUE CLOSED_BOUNDARY power cf kwds
  = inr (mkChiFinder g (_reftheta cf) (min_drainage cf) (_A0 cf) (use_true_dx cf)
           (closedToZero CLOSED_BOUNDARY g
              (if dx then exactChi BAD_INDEX_VALUE power g A0 theta m
               else uniformChi BAD_INDEX_VALUE power g A0 theta m))
           (outsideChannel g (valid g m))).
Proof.
  intros Hg Hsized Hres. unfold calculate_chi. rewrite Hres. simpl.
  destruct dx; [by apply exact_run|by apply uniform_run].
Qed.

Lemma foldl_set_const {A} (x : A) nodes (a : list A) v :
  length a = n -> (forall nd, nd ∈ nodes -> is_Some (py_index n nd)) ->
  foldl (fun m nd => set_ m nd x) a nodes !! v
  = if decide (Exists (fun nd => py_index n nd = Some v) nodes) then Some x else a !! v.
Proof.
  revert a. induction nodes as [|nd nodes IH]; intros a Ha Hnodes.
  - destruct (decide (Exists (fun nd => py_index n nd = Some v) [])) as [He|_]; [|done].
    by apply Exists_nil in He.
  - destruct (Hnodes nd) as [k Hk]; [by left|].
    change (foldl (fun m nd0 => set_ m nd0 x) a (nd :: nodes))
      with (foldl (fun m nd0 => set_ m nd0 x) (set_ a nd x) nodes).
    rewrite IH; [|by rewrite set_length|intros; apply Hnodes; by right].
    unfold set_, py_set. rewrite Ha, Hk. simpl.
    destruct (decide (Exists (fun nd0 => py_index n nd0 = Some v) nodes)) as [He|He].
    + rewrite decide_True; [done|]. by apply Exists_cons_tl.
    + destruct (decide (k = v)) as [->|Hne].
      * rewrite decide_True by (by apply Exists_cons_hd).
        apply list_lookup_insert_eq. rewrite Ha. by eapply py_index_lt.
      * rewrite decide_False.
        -- by rewrite list_lookup_insert_ne.
        -- intros [?|?]%Exists_cons; [congruence|done].
Qed.

(** The mask is false exactly at the positions the valid nodes name. *)
Lemma mask_false_iff_valid cf kwds theta m A0 dx cf' v :
  _grid cf = g -> finder_sized cf -> resolve cf kwds = inr (theta, m, A0, dx) ->
  calculate_chi BAD_INDEX_VALUE CLOSED_BOUNDARY power cf kwds = inr cf' -> (v < n)%nat ->
  (_mask cf' !! v = Some false <-> Exists (fun nd => py_index n nd = Some v) (valid g m)) /\
  (_mask cf' !! v = Some true <-> ~ Exists (fun nd => py_index n nd = Some v) (valid g m)).
Proof.
  intros Hg Hsized Hres Hrun Hv.
  rewrite (calculate_chi_result _ _ _ _ _ _ Hg Hsized Hres) in Hrun. injection Hrun as <-.
  simpl. unfold outsideChannel.
  rewrite foldl_set_const; [|by rewrite length_replicate|apply valid_names].
  destruct (decide _) as [He|He].
  - split; split.
    + by intros _.
    + done.
    + intros [=].
    + intros Hn. by destruct Hn.
  - rewrite lookup_replicate_2 by done. split; split.
    + intros [=].
    + intros H. by destruct He.
    + by intros _.
    + done.
Qed.

(** Closed-boundary nodes end at 0. *)
Lemma closed_chi_zero cf kwds theta m A0 dx cf' v :
  _grid cf = g -> finder_sized cf -> resolve cf kwds = inr (theta, m, A0, dx) ->
  calculate_chi BAD_INDEX_VALUE CLOSED_BOUNDARY power cf kwds = inr cf' ->
  status_at_node g !! v = Some CLOSED_BOUNDARY ->
  chi cf' !! v = Some zero.
Proof.
  intros Hg Hsized Hres Hrun Hv.
  rewrite (calculate_chi_result _ _ _ _ _ _ Hg Hsized Hres) in Hrun. injection Hrun as <-.
  simpl. unfold closedToZero. rewrite lookup_zip_with, Hv. simpl.
  assert (v < n)%nat as Hlt by (by eapply lookup_lt_Some).
  destruct (lookup_lt_is_Some_2 (if dx then exactChi BAD_INDEX_VALUE power g A0 theta m
                                 else uniformChi BAD_INDEX_VALUE power g A0 theta m) v)
    as [c Hc].
  { destruct dx; by rewrite ?exactChi_length, ?uniformChi_length. }
  rewrite Hc. simpl. by rewrite Z.eqb_refl.
Qed.

Lemma gfold_untouched skip inc nodes c0 v :
  length c0 = n -> (forall nd, nd ∈ nodes -> is_Some (py_index n nd)) ->
  ~ Exists (fun nd => py_index n nd = Some v) nodes ->
  foldl (gstep g skip inc) c0 nodes !! v = c0 !! v.
Proof.
  revert c0. induction nodes as [|nd nodes IH]; intros c0 Hc0 Hnodes Hv; [done|].
  change (foldl (gstep g skip inc) c0 (nd :: nodes))
    with (foldl (gstep g skip inc) (gstep g skip inc c0 nd) nodes).
  rewrite IH; [|by rewrite gstep_length|intros; apply Hnodes; by right|
               intros He; apply Hv; by apply Exists_cons_tl].
  unfold gstep. destruct (skip nd); [done|].
  destruct (Hnodes nd) as [k Hk]; [by left|].
  unfold set_, py_set. rewrite Hc0, Hk. simpl.
  apply list_lookup_insert_ne. intros ->. apply Hv. by apply Exists_cons_hd.
Qed.

(** A node below the threshold keeps chi = 0 in the exact mode, and in the
    uniform mode whenever the mean spacing is finite. *)
Lemma below_threshold_zero cf kwds theta m A0 dx cf' v :
  _grid cf = g -> finder_sized cf -> resolve cf kwds = inr (theta, m, A0, dx) ->
  calculate_chi BAD_INDEX_VALUE CLOSED_BOUNDARY power cf kwds = inr cf' -> (v < n)%nat ->
  ~ Exists (fun nd => py_index n nd = Some v) (valid g m) ->
  (dx = false -> exists mu, meanSpacing BAD_INDEX_VALUE g (valid g m) = Fin mu) ->
  chi cf' !! v = Some zero.
Proof.
  intros Hg Hsized Hres Hrun Hv Hnot Hmean.
  rewrite (calculate_chi_result _ _ _ _ _ _ Hg Hsized Hres) in Hrun. injection Hrun as <-.
  simpl. unfold closedToZero. rewrite lookup_zip_with.
  destruct (lookup_lt_is_Some_2 (status_at_node g) v Hv) as [s ->]. simpl.
  assert (forall skip inc, foldl (gstep g skip inc) (replicate n zero) (valid g m) !! v
                           = Some zero) as Hkeep.
  { intros skip inc. rewrite gfold_untouched;
      [by apply lookup_replicate_2|by rewrite length_replicate|apply valid_names|done]. }
  destruct dx.
  - unfold exactChi.
    change (foldl (exactStep BAD_INDEX_VALUE power g A0 theta (valid g m)))
      with (foldl (gstep g (fun nd => link BAD_INDEX_VALUE g nd =? BAD_INDEX_VALUE)
              (fun nd => nmul (nmul half (nadd (integrand power g A0 theta (valid g m) nd)
                                               (integrand power g A0 theta (valid g m)
                                                  (receiver g nd))))
                              (linkLength BAD_INDEX_VALUE g nd)))).
    rewrite Hkeep. simpl. by destruct (s =? CLOSED_BOUNDARY).
  - destruct (Hmean eq_refl) as [mu Hmu]. unfold uniformChi.
    change (foldl (uniformStep power g A0 theta))
      with (foldl (gstep g (fun _ => false) (fun nd => power (ndiv A0 (area g nd)) theta))).
    rewrite list_lookup_fmap, Hkeep, Hmu. simpl.
    rewrite Qcmult_0_l. by destruct (s =? CLOSED_BOUNDARY).
Qed.

(** *** The recurrence holds of the finished array *)

Lemma upstream_ordered_fresh l x :
  upstream_ordered g (l ++ [x]) -> ~ Exists (fun nd => idx g nd = idx g x) l.
Proof.
  intros Hord He. apply Exists_exists in He as (a & Ha & Hax).
  apply upstream_ordered_snoc in Hord as [_ Hx]. destruct (Hx a Ha) as [H1 _].
  simpl in Hax. by rewrite Hax in H1.
Qed.

Lemma gfold_recurrence skip inc nodes c0 :
  length c0 = n ->
  (forall node, node ∈ nodes -> is_Some (idx g node)) ->
  upstream_ordered g nodes ->
  forall node, node ∈ nodes -> skip node = false ->
    at_ NaN (foldl (gstep g skip inc) c0 nodes) node
    = nadd (if decide (idx g (receiver g node) = idx g node) then at_ NaN c0 node
            else at_ NaN (foldl (gstep g skip inc) c0 nodes) (receiver g node))
           (inc node).
Proof.
  intros Hlen. induction nodes as [|x l IH] using rev_ind; intros Hnames Hord node Hnode Hs.
  { by apply elem_of_nil in Hnode. }
  pose proof (upstream_ordered_fresh _ _ Hord) as Hfresh.
  apply upstream_ordered_snoc in Hord as [Hord Hx].
  rewrite foldl_snoc. set (c := foldl (gstep g skip inc) c0 l) in *.
  assert (length c = n) as Hc.
  { subst c. rewrite foldl_set_length; [done|]. intros. apply gstep_length. }
  assert (is_Some (idx g x)) as Hxn by (apply Hnames, elem_of_app; right; by left).
  assert (forall nd, nd ∈ l -> is_Some (idx g nd)) as Hnl.
  { intros. apply Hnames, elem_of_app. by left. }
  change (gstep g skip inc c x)
    with (if skip x then c else set_ c x (nadd (at_ NaN c (receiver g x)) (inc x))).
  apply elem_of_app in Hnode as [Hnode|Hnode].
  - destruct (Hx node Hnode) as [H1 H2]. unfold idx in H1, H2.
    assert (forall y, (if skip x then c else set_ c x (nadd (at_ NaN c (receiver g x)) (inc x)))
                      = y -> at_ NaN y node = at_ NaN c node /\
                             at_ NaN y (receiver g node) = at_ NaN c (receiver g node)) as Hsame.
    { intros y <-. destruct (skip x); [done|].
      rewrite !at_set_ne by (rewrite Hc; congruence). done. }
    destruct (Hsame _ eq_refl) as [-> ->]. by apply IH.
  - apply list_elem_of_singleton in Hnode as ->. rewrite Hs.
    rewrite (at_set_eq NaN c x x) by (rewrite ?Hc; done).
    destruct (decide (idx g (receiver g x) = idx g x)) as [He|Hne].
    + f_equal. rewrite (at_resolve NaN c (receiver g x) (default 0%nat (idx g x))).
      2:{ rewrite Hc. fold (idx g (receiver g x)). rewrite He. by destruct Hxn as [k ->]. }
      rewrite <- (at_resolve NaN c x (default 0%nat (idx g x))).
      2:{ rewrite Hc. fold (idx g x). by destruct Hxn as [k ->]. }
      destruct Hxn as [k Hk].
      apply (at_lookup NaN c x k); [by rewrite Hc|].
      subst c. rewrite gfold_untouched; [|done|done|].
      * apply at_index. by rewrite Hlen.
      * intros Hex. apply Hfresh. apply Exists_exists in Hex as (a & Ha & Hak).
        apply Exists_exists. exists a. split; [done|]. simpl in Hak.
        unfold idx in *. by rewrite Hak, Hk.
    + f_equal. rewrite at_set_ne by (rewrite Hc; exact Hne). done.
Qed.

Lemma closedToZero_length c : length c = n -> length (closedToZero CLOSED_BOUNDARY g c) = n.
Proof. intros Hc. unfold closedToZero. rewrite length_zip_with_l_eq; [done|]. by rewrite Hc. Qed.

Lemma outsideChannel_length nodes : length (outsideChannel g nodes) = n.
Proof.
  unfold outsideChannel. rewrite foldl_set_length; [by rewrite length_replicate|].
  intros. apply set_length.
Qed.

Lemma at_zeros node : is_Some (py_index n node) -> at_ NaN (replicate n zero) node = zero.
Proof.
  intros [k Hk]. apply (at_lookup _ _ _ k); [by rewrite length_replicate|].
  apply lookup_replicate_2. by eapply py_index_lt.
Qed.

(** In the exact mode the finished chi array satisfies the trapezoid rule
    between every valid node and its receiver: for a valid node with a link
    that is not a closed boundary, chi is chi at its receiver (0 when the
    node is its own receiver) plus half the sum of the two integrands times
    the link length, provided the valid nodes are in upstream order and the
    receiver is not a closed boundary. *)
Theorem exact_chi_recurrence cf kwds theta m A0 node :
  _grid cf = g -> finder_sized cf ->
  resolve cf kwds = inr (theta, m, A0, true) ->
  upstream_ordered g (valid g m) ->
  node ∈ valid g m ->
  link BAD_INDEX_VALUE g node <> BAD_INDEX_VALUE ->
  at_ 0 (status_at_node g) node <> CLOSED_BOUNDARY ->
  (idx g (receiver g node) <> idx g node ->
   at_ 0 (status_at_node g) (receiver g node) <> CLOSED_BOUNDARY) ->
  exists cf', calculate_chi BAD_INDEX_VALUE CLOSED_BOUNDARY power cf kwds = inr cf' /\
    at_ NaN (chi cf') node
    = nadd (if decide (idx g (receiver g node) = idx g node) then zero
            else at_ NaN (chi cf') (receiver g node))
           (nmul (nmul half (nadd (integrand power g A0 theta (valid g m) node)
                                  (integrand power g A0 theta (valid g m) (receiver g node))))
                 (linkLength BAD_INDEX_VALUE g node)).
Proof.
  intros Hg Hsized Hres Hord Hnode Hlink Hopen Hropen.
  assert (is_Some (py_index n node)) as Hn by (by eapply valid_names).
  rewrite (calculate_chi_result _ _ _ _ _ _ Hg Hsized Hres).
  eexists. split; [done|]. simpl.
  rewrite at_closedToZero by (done || apply exactChi_length).
  destruct (Z.eqb_spec (at_ 0 (status_at_node g) node) CLOSED_BOUNDARY) as [?|_]; [done|].
  unfold exactChi.
  change (foldl (exactStep BAD_INDEX_VALUE power g A0 theta (valid g m)))
    with (foldl (gstep g (fun nd => link BAD_INDEX_VALUE g nd =? BAD_INDEX_VALUE)
            (fun nd => nmul (nmul half (nadd (integrand power g A0 theta (valid g m) nd)
                                             (integrand power g A0 theta (valid g m)
                                                (receiver g nd))))
                            (linkLength BAD_INDEX_VALUE g nd)))).
  rewrite gfold_recurrence;
    [|by rewrite length_replicate|apply valid_names|done|done|by apply Z.eqb_neq].
  f_equal. destruct (decide _) as [He|Hne]; [by apply at_zeros|].
  rewrite at_closedToZero.
  - destruct (Z.eqb_spec (at_ 0 (status_at_node g) (receiver g node)) CLOSED_BOUNDARY)
      as [Hcl|_]; [by destruct (Hropen Hne)|done].
  - rewrite foldl_set_length; [by rewrite length_replicate|]. intros. apply gstep_length.
  - by apply receiver_names.
Qed.

(** In the uniform mode the loop builds an unscaled sum [u] and the mean
    spacing multiplies it once, afterwards. When the valid nodes are in
    upstream order, [calculate_chi] returns, [mean_channel_node_spacing]
    gives some [mu], and there is an array [u] with one entry per node such
    that: at every valid node [u] is [u] at its receiver (0 when the node is
    its own receiver) plus (A0/area)^theta; [u] is 0 at every node that is
    not valid; and chi is [u * mu] at every node that is not a closed
    boundary, 0 at the closed ones. *)
Theorem uniform_chi_recurrence cf kwds theta m A0 :
  _grid cf = g -> finder_sized cf ->
  resolve cf kwds = inr (theta, m, A0, false) ->
  upstream_ordered g (valid g m) ->
  exists cf' mu u,
    calculate_chi BAD_INDEX_VALUE CLOSED_BOUNDARY power cf kwds = inr cf' /\
    mean_channel_node_spacing BAD_INDEX_VALUE g (valid g m) = inr mu /\
    length u = n /\
    (forall node, node ∈ valid g m ->
       at_ NaN u node
       = nadd (if decide (idx g (receiver g node) = idx g node) then zero
               else at_ NaN u (receiver g node))
              (power (ndiv A0 (area g node)) theta)) /\
    (forall v, (v < n)%nat ->
       ~ Exists (fun nd => idx g nd = Some v) (valid g m) -> u !! v = Some zero) /\
    (forall node, is_Some (idx g node) ->
       at_ NaN (chi cf') node
       = if at_ 0 (status_at_node g) node =? CLOSED_BOUNDARY then zero
         else nmul (at_ NaN u node) mu).
Proof.
  intros Hg Hsized Hres Hord.
  rewrite (calculate_chi_result _ _ _ _ _ _ Hg Hsized Hres).
  set (mu := meanSpacing BAD_INDEX_VALUE g (valid g m)).
  set (u := foldl (uniformStep power g A0 theta) (replicate n zero) (valid g m)).
  assert (length u = n) as Hu.
  { subst u. rewrite foldl_set_length; [by rewrite length_replicate|].
    apply uniformStep_length. }
  exists (mkChiFinder g (_reftheta cf) (min_drainage cf) (_A0 cf) (use_true_dx cf)
            (closedToZero CLOSED_BOUNDARY g (uniformChi BAD_INDEX_VALUE power g A0 theta m))
            (outsideChannel g (valid g m))), mu, u.
  split; [done|]. split; [apply mean_channel_node_spacing_spec, valid_names|].
  split; [done|]. split; [|split].
  - intros node Hnode.
    assert (is_Some (py_index n node)) as Hn by (by eapply valid_names).
    subst u.
    change (foldl (uniformStep power g A0 theta))
      with (foldl (gstep g (fun _ => false) (fun nd => power (ndiv A0 (area g nd)) theta))).
    rewrite gfold_recurrence;
      [|by rewrite length_replicate|apply valid_names|done|done|done].
    f_equal. destruct (decide _) as [He|Hne]; [by apply at_zeros|done].
  - intros v Hv Hnot. subst u.
    change (foldl (uniformStep power g A0 theta))
      with (foldl (gstep g (fun _ => false) (fun nd => power (ndiv A0 (area g nd)) theta))).
    rewrite gfold_untouched; [|by rewrite length_replicate|apply valid_names|exact Hnot].
    by apply lookup_replicate_2.
  - intros node Hnode. simpl.
    rewrite at_closedToZero by (done || apply uniformChi_length).
    destruct (_ =? _); [done|]. unfold uniformChi. fold u. fold mu.
    apply (at_map (fun c => nmul c mu) NaN NaN u node). by rewrite Hu.
Qed.

(** *** Calls do not accumulate *)

(** What a call leaves in [chi] and in the mask does not depend on what they
    held before: two components on the same grid whose parameters resolve
    alike end with the same arrays. *)
Theorem calculate_chi_overwrites cf cf' kwds theta m A0 dx :
  _grid cf = g -> _grid cf' = g -> finder_sized cf -> finder_sized cf' ->
  resolve cf kwds = inr (theta, m, A0, dx) -> resolve cf' kwds = inr (theta, m, A0, dx) ->
  exists r r', calculate_chi BAD_INDEX_VALUE CLOSED_BOUNDARY power cf kwds = inr r /\
               calculate_chi BAD_INDEX_VALUE CLOSED_BOUNDARY power cf' kwds = inr r' /\
               chi r = chi r' /\ _mask r = _mask r'.
Proof.
  intros Hg Hg' Hs Hs' Hres Hres'.
  rewrite (calculate_chi_result _ _ _ _ _ _ Hg Hs Hres).
  rewrite (calculate_chi_result _ _ _ _ _ _ Hg' Hs' Hres').
  eexists _, _. done.
Qed.

(** Calling [calculate_chi] again with the same arguments changes nothing,
    and no call alters the parameters stored at construction. *)
Theorem calculate_chi_twice cf kwds cf1 :
  _grid cf = g -> finder_sized cf ->
  calculate_chi BAD_INDEX_VALUE CLOSED_BOUNDARY power cf kwds = inr cf1 ->
  calculate_chi BAD_INDEX_VALUE CLOSED_BOUNDARY power cf1 kwds = inr cf1 /\
  (_reftheta cf1, min_drainage cf1, _A0 cf1, use_true_dx cf1)
  = (_reftheta cf, min_drainage cf, _A0 cf, use_true_dx cf).
Proof.
  intros Hg Hs Hrun.
  destruct (resolve cf kwds) as [e|[[[theta m] A0] dx]] eqn:Hres.
  { unfold calculate_chi in Hrun. by rewrite Hres in Hrun. }
  rewrite (calculate_chi_result _ _ _ _ _ _ Hg Hs Hres) in Hrun. injection Hrun as <-.
  split; [|done].
  rewrite (calculate_chi_result _ kwds theta m A0 dx); [done|done| |].
  - split; simpl; [|apply outsideChannel_length].
    apply closedToZero_length. destruct dx; [apply exactChi_length|apply uniformChi_length].
  - unfold resolve in *. simpl. by rewrite Hg in Hres.
Qed.

End Refinement.

(** *** The example channel is a flow network *)

Import ChiExamples.

Lemma channel_network_ok status areas len0 len1 :
  length status = 3%nat -> length areas = 3%nat ->
  network_ok example_bad (channel_with status areas len0 len1).
Proof.
  intros Hs Ha.
  assert (forall k, k ∈ [0; 0; 1] ∨ k ∈ [0; 1; 2] -> is_Some (py_index 3 k)) as Hids.
  { intros k [Hk|Hk]; repeat (apply elem_of_cons in Hk as [->|Hk]; [by eexists|]);
      by apply elem_of_nil in Hk. }
  split; unfold number_of_nodes; simpl; rewrite ?length_map, ?Hs; try done.
  - intros node Hnode. apply Hids. by right.
  - intros r Hr. apply Hids. by left.
  - intros l Hl Hne.
    repeat (apply elem_of_cons in Hl as [->|Hl]; [try done; by eexists|]).
    by apply elem_of_nil in Hl.
Qed.

Lemma calculate_chi_uniform_witness :
  run (finder (channel [1; 0; 0] 1 1) 1 false) no_kwds
  = inr (mkChiFinder (channel [1; 0; 0] 1 1) (num_of_Z 1) (num_of_Z 1) (num_of_Z 3) false
           (closedToZero example_closed (channel [1; 0; 0] 1 1)
              (uniformChi example_bad power_example (channel [1; 0; 0] 1 1)
                 (num_of_Z 3) (num_of_Z 1) (num_of_Z 1)))
           (outsideChannel (channel [1; 0; 0] 1 1) (valid (channel [1; 0; 0] 1 1) (num_of_Z 1)))).
Proof.
  apply (calculate_chi_uniform example_bad example_closed power_example
           (channel [1; 0; 0] 1 1) (channel_network_ok [1; 0; 0] [3; 3; 3] 1 1 eq_refl eq_refl)
           (finder (channel [1; 0; 0] 1 1) 1 false) no_kwds).
  - reflexivity.
  - split; reflexivity.
  - vm_compute. reflexivity.
Defined.

Lemma calculate_chi_exact_witness :
  run (finder (channel [1; 0; 0] 2 4) 1 true) no_kwds
  = inr (mkChiFinder (channel [1; 0; 0] 2 4) (num_of_Z 1) (num_of_Z 1) (num_of_Z 3) true
           (closedToZero example_closed (channel [1; 0; 0] 2 4)
              (exactChi example_bad power_example (channel [1; 0; 0] 2 4)
                 (num_of_Z 3) (num_of_Z 1) (num_of_Z 1)))
           (outsideChannel (channel [1; 0; 0] 2 4) (valid (channel [1; 0; 0] 2 4) (num_of_Z 1)))).
Proof.
  apply (calculate_chi_exact example_bad example_closed power_example
           (channel [1; 0; 0] 2 4) (channel_network_ok [1; 0; 0] [3; 3; 3] 2 4 eq_refl eq_refl)
           (finder (channel [1; 0; 0] 2 4) 1 true) no_kwds).
  - reflexivity.
  - split; reflexivity.
  - vm_compute. reflexivity.
Defined.

(** The exact-mode example, by direct arithmetic: the outlet keeps 0, node 1
    gets 0 + 0.5 * (1 + 1) * 2 = 2, node 2 gets 2 + 0.5 * (1 + 1) * 4 = 6. *)
Example exact_channel_values :
  exactChi example_bad power_example (channel [1; 0; 0] 2 4) (num_of_Z 3) (num_of_Z 1) (num_of_Z 1)
  = [num_of_Z 0; num_of_Z 2; num_of_Z 6].
Proof. compute_done. Qed.

(** C1 as stated fails: with node 2 a closed boundary whose drainage area
    meets the threshold, the recurrence followed by the scaling gives
    1, 2, 3, but the chi array [calculate_chi] leaves is 1, 2, 0. *)
Lemma closed_node_is_zeroed_after_scaling :
  uniformChi example_bad power_example (channel [1; 0; 4] 1 1) (num_of_Z 3) (num_of_Z 1) (num_of_Z 1)
  = [num_of_Z 1; num_of_Z 2; num_of_Z 3] /\
  chi (force_finder (run (finder (channel [1; 0; 4] 1 1) 1 false) no_kwds))
  = [num_of_Z 1; num_of_Z 2; num_of_Z 0] /\
  chi (force_finder (run (finder (channel [1; 0; 4] 1 1) 1 false) no_kwds))
  <> uniformChi example_bad power_example (channel [1; 0; 4] 1 1)
       (num_of_Z 3) (num_of_Z 1) (num_of_Z 1).
Proof.
  split; [compute_done|]. split; compute_done.
Qed.

(** ** C5: no node meets the threshold *)

(** C5, evaluated. On the example channel with the default threshold 1e6 no
    drainage area meets the threshold. The call returns in both modes and
    the mask is true everywhere; in the exact mode chi is 0 everywhere, but
    in the uniform mode chi is NaN at every node, not 0. *)
Theorem no_channel_uniform_gives_nan :
  valid (channel [1; 0; 0] 1 1) (num_of_Z 1000000) = [] /\
  chi (force_finder (run (finder (channel [1; 0; 0] 1 1) 1000000 false) no_kwds))
  = [NaN; NaN; NaN] /\
  _mask (force_finder (run (finder (channel [1; 0; 0] 1 1) 1000000 false) no_kwds))
  = [true; true; true] /\
  chi (force_finder (run (finder (channel [1; 0; 0] 1 1) 1000000 true) no_kwds))
  = [zero; zero; zero] /\
  _mask (force_finder (run (finder (channel [1; 0; 0] 1 1) 1000000 true) no_kwds))
  = [true; true; true].
Proof. repeat split; compute_done. Qed.

(** ** C6: nodes below the threshold *)

(** C6, evaluated. On the example channel with drainage areas 5, 3, 3 and
    threshold 4 only the outlet is valid, and it has no link. In the uniform
    mode the mask is false exactly at the outlet, as claimed, but chi at the
    two nodes below the threshold is NaN, not 0. *)
Theorem below_threshold_uniform_gives_nan :
  valid (channel_with [1; 0; 0] [5; 3; 3] 1 1) (num_of_Z 4) = [0] /\
  chi (force_finder (run (finder (channel_with [1; 0; 0] [5; 3; 3] 1 1) 4 false) no_kwds))
  = [NaN; NaN; NaN] /\
  _mask (force_finder (run (finder (channel_with [1; 0; 0] [5; 3; 3] 1 1) 4 false) no_kwds))
  = [false; true; true].
Proof. repeat split; compute_done. Qed.

(** *** The example channel meets the assumptions of C7 *)

Lemma power_example_one x : (0 < x)%Qc -> nonneg (power_example (Fin x) (num_of_Z 1)).
Proof.
  intros Hx. exists (x * 1)%Qc. split; [done|].
  rewrite Qcmult_1_r. by apply Qclt_le_weak.
Qed.

Lemma channel_valid_all status len0 len1 :
  valid (channel status len0 len1) (num_of_Z 1) = [0; 1; 2].
Proof. compute_done. Qed.

Lemma channel_areas_positive status len0 len1 nd :
  nd ∈ valid (channel status len0 len1) (num_of_Z 1) ->
  positive (area (channel status len0 len1) nd).
Proof.
  rewrite channel_valid_all. intros Hnd.
  repeat (apply elem_of_cons in Hnd as [->|Hnd];
          [exists (Qc_of_Z 3); split; compute_done|]).
  by apply elem_of_nil in Hnd.
Qed.

Lemma channel_lengths_nonneg status nd :
  nd ∈ valid (channel status 1 1) (num_of_Z 1) ->
  link example_bad (channel status 1 1) nd <> example_bad ->
  nonneg (linkLength example_bad (channel status 1 1) nd).
Proof.
  rewrite channel_valid_all. intros Hnd Hl.
  apply elem_of_cons in Hnd as [->|Hnd]; [by destruct Hl|].
  repeat (apply elem_of_cons in Hnd as [->|Hnd];
          [exists (Qc_of_Z 1); split; compute_done|]).
  by apply elem_of_nil in Hnd.
Qed.

Lemma channel_upstream_ordered s0 s1 s2 len0 len1 :
  upstream_ordered (channel [s0; s1; s2] len0 len1)
                   (valid (channel [s0; s1; s2] len0 len1) (num_of_Z 1)).
Proof.
  rewrite channel_valid_all. intros i j a b Ha Hb Hij.
  destruct i as [|[|[|i]]], j as [|[|[|j]]]; simpl in Ha, Hb; try lia; try done;
    injection Ha as <-; injection Hb as <-; split; compute_done.
Qed.

Lemma chi_nondecreasing_upstream_witness :
  exists cf', run (finder (channel [1; 0; 0] 1 1) 1 false) no_kwds = inr cf' /\
    num_le (at_ NaN (chi cf') (receiver (channel [1; 0; 0] 1 1) 2))
           (at_ NaN (chi cf') 2).
Proof.
  apply (chi_nondecreasing_upstream example_bad example_closed power_example
           (channel [1; 0; 0] 1 1) (channel_network_ok [1; 0; 0] [3; 3; 3] 1 1 eq_refl eq_refl)
           (finder (channel [1; 0; 0] 1 1) 1 false) no_kwds
           (num_of_Z 1) (num_of_Z 1) (Qc_of_Z 3) false 2).
  - reflexivity.
  - split; reflexivity.
  - vm_compute. reflexivity.
  - apply power_example_one.
  - apply channel_areas_positive.
  - apply channel_lengths_nonneg.
  - apply channel_upstream_ordered.
  - compute_done.
  - compute_done.
  - exists 1. split; compute_done.
Defined.

(** C7 as stated fails at a closed boundary whose drainage area meets the
    threshold: node 2 is valid and its chi was assigned from its receiver,
    node 1, yet after the call chi is 0 at node 2 and positive at node 1, in
    both modes. *)
Lemma closed_node_below_its_receiver :
  2 ∈ valid (channel [1; 0; 4] 1 1) (num_of_Z 1) /\
  receiver (channel [1; 0; 4] 1 1) 2 = 1 /\
  link example_bad (channel [1; 0; 4] 1 1) 2 <> example_bad /\
  chi (force_finder (run (finder (channel [1; 0; 4] 1 1) 1 false) no_kwds))
  = [num_of_Z 1; num_of_Z 2; num_of_Z 0] /\
  chi (force_finder (run (finder (channel [1; 0; 4] 1 1) 1 true) no_kwds))
  = [num_of_Z 0; num_of_Z 1; num_of_Z 0] /\
  nge (at_ NaN (chi (force_finder (run (finder (channel [1; 0; 4] 1 1) 1 false) no_kwds))) 2)
      (at_ NaN (chi (force_finder (run (finder (channel [1; 0; 4] 1 1) 1 false) no_kwds))) 1)
  = false /\
  nge (at_ NaN (chi (force_finder (run (finder (channel [1; 0; 4] 1 1) 1 true) no_kwds))) 2)
      (at_ NaN (chi (force_finder (run (finder (channel [1; 0; 4] 1 1) 1 true) no_kwds))) 1)
  = false.
Proof. repeat split; compute_done. Qed.

(** *** Failures *)

Lemma take_out_of_range {A} (a : list A) idx i :
  i ∈ idx -> py_index (length a) i = None -> take a idx = inl IndexError.
Proof.
  intros Hi Hnone. induction idx as [|j idx IH]; [by apply elem_of_nil in Hi|]. simpl.
  apply elem_of_cons in Hi as [->|Hi].
  - by rewrite (proj2 (py_get_None a j) Hnone).
  - rewrite (IH Hi). by destruct (py_get a j).
Qed.

(** An id in the upstream order that is out of range for the node arrays
    makes [calculate_chi] raise [IndexError]. *)
Theorem calculate_chi_bad_order_id BAD CLOSED power cf kwds p node :
  resolve cf kwds = inr p ->
  node ∈ upstream_node_order (_grid cf) ->
  py_index (length (drainage_area (_grid cf))) node = None ->
  calculate_chi BAD CLOSED power cf kwds = inl IndexError.
Proof.
  intros Hres Hnode Hnone. unfold calculate_chi. rewrite Hres.
  destruct p as [[[theta m] A0] dx]. simpl.
  unfold calculate_chi_with, valid_nodes. by rewrite (take_out_of_range _ _ node).
Qed.

Lemma calculate_chi_bad_order_id_witness :
  run (finder broken_order 1 false) no_kwds = inl IndexError.
Proof.
  apply (calculate_chi_bad_order_id example_bad example_closed power_example
           (finder broken_order 1 false) no_kwds
           (num_of_Z 1, num_of_Z 1, num_of_Z 3, false) 7).
  - vm_compute. reflexivity.
  - compute_done.
  - reflexivity.
Defined.

(** On a grid with no core node, constructing with [reference_area=None]
    succeeds with a NaN reference area (the mean of no cell areas), and it is
    every later [calculate_chi] without a [reference_area] that raises
    [AssertionError]. *)
Theorem no_core_nodes_defers_failure g theta m dx :
  core_nodes g = [] -> length (cell_area_at_node g) <> 1%nat ->
  exists cf, ChiFinder_init g theta m None dx = inr cf /\ _A0 cf = NaN /\
    forall BAD CLOSED power kwds, kw_reference_area kwds = None ->
      calculate_chi BAD CLOSED power cf kwds = inl AssertionError.
Proof.
  intros Hcore Hlen. unfold ChiFinder_init.
  assert (default_reference_area g = inr NaN) as ->.
  { unfold default_reference_area. rewrite Hcore.
    destruct (cell_area_at_node g) as [|a [|b l]]; [|by destruct Hlen|];
      exact (f_equal inr mean_nil). }
  simpl. eexists. split; [done|]. split; [done|].
  intros BAD CLOSED power kwds Hk. unfold calculate_chi, resolve. simpl. by rewrite Hk.
Qed.

Lemma no_core_nodes_defers_failure_witness :
  exists cf, ChiFinder_init no_core (num_of_Z 1) (num_of_Z 1) None false = inr cf /\
    _A0 cf = NaN /\
    forall BAD CLOSED power kwds, kw_reference_area kwds = None ->
      calculate_chi BAD CLOSED power cf kwds = inl AssertionError.
Proof.
  apply (no_core_nodes_defers_failure no_core (num_of_Z 1) (num_of_Z 1) false).
  - reflexivity.
  - simpl. lia.
Defined.

(** *** The statements above, on the example channel *)

Lemma mask_false_iff_valid_witness :
  (_mask (force_finder (run (finder (channel_with [1; 0; 0] [5; 3; 3] 1 1) 4 true) no_kwds))
     !! 1%nat = Some false <->
   Exists (fun nd => py_index 3 nd = Some 1%nat)
          (valid (channel_with [1; 0; 0] [5; 3; 3] 1 1) (num_of_Z 4))) /\
  (_mask (force_finder (run (finder (channel_with [1; 0; 0] [5; 3; 3] 1 1) 4 true) no_kwds))
     !! 1%nat = Some true <->
   ~ Exists (fun nd => py_index 3 nd = Some 1%nat)
            (valid (channel_with [1; 0; 0] [5; 3; 3] 1 1) (num_of_Z 4))).
Proof.
  apply (mask_false_iff_valid example_bad example_closed power_example
           (channel_with [1; 0; 0] [5; 3; 3] 1 1)
           (channel_network_ok [1; 0; 0] [5; 3; 3] 1 1 eq_refl eq_refl)
           (finder (channel_with [1; 0; 0] [5; 3; 3] 1 1) 4 true) no_kwds
           (num_of_Z 1) (num_of_Z 4) (num_of_Z 3) true).
  - reflexivity.
  - split; reflexivity.
  - vm_compute. reflexivity.
  - vm_compute. reflexivity.
  - unfold number_of_nodes. simpl. lia.
Defined.

Lemma closed_chi_zero_witness :
  chi (force_finder (run (finder (channel [1; 0; 4] 1 1) 1 false) no_kwds)) !! 2%nat
  = Some zero.
Proof.
  apply (closed_chi_zero example_bad example_closed power_example
           (channel [1; 0; 4] 1 1) (channel_network_ok [1; 0; 4] [3; 3; 3] 1 1 eq_refl eq_refl)
           (finder (channel [1; 0; 4] 1 1) 1 false) no_kwds
           (num_of_Z 1) (num_of_Z 1) (num_of_Z 3) false).
  - reflexivity.
  - split; reflexivity.
  - vm_compute. reflexivity.
  - vm_compute. reflexivity.
  - reflexivity.
Defined.

Lemma below_threshold_zero_witness :
  chi (force_finder (run (finder (channel_with [1; 0; 0] [5; 5; 3] 1 1) 4 false) no_kwds))
    !! 2%nat = Some zero.
Proof.
  apply (below_threshold_zero example_bad example_closed power_example
           (channel_with [1; 0; 0] [5; 5; 3] 1 1)
           (channel_network_ok [1; 0; 0] [5; 5; 3] 1 1 eq_refl eq_refl)
           (finder (channel_with [1; 0; 0] [5; 5; 3] 1 1) 4 false) no_kwds
           (num_of_Z 1) (num_of_Z 4) (num_of_Z 3) false).
  - reflexivity.
  - split; reflexivity.
  - vm_compute. reflexivity.
  - vm_compute. reflexivity.
  - unfold number_of_nodes. simpl. lia.
  - compute_done.
  - intros _. exists (Qc_of_Z 1). compute_done.
Defined.

Lemma no_valid_nodes_exact_witness :
  run (finder (channel [1; 0; 0] 1 1) 1000000 true) no_kwds
  = inr (mkChiFinder (channel [1; 0; 0] 1 1) (num_of_Z 1) (num_of_Z 1000000) (num_of_Z 3) true
           (replicate 3 zero) (replicate 3 true)).
Proof.
  apply (no_valid_nodes_exact example_bad example_closed power_example
           (channel [1; 0; 0] 1 1) (channel_network_ok [1; 0; 0] [3; 3; 3] 1 1 eq_refl eq_refl)
           (finder (channel [1; 0; 0] 1 1) 1000000 true) no_kwds
           (num_of_Z 1) (num_of_Z 1000000) (num_of_Z 3)).
  - reflexivity.
  - split; reflexivity.
  - compute_done.
  - vm_compute. reflexivity.
Defined.

Lemma exact_chi_recurrence_witness :
  exists cf', run (finder (channel [1; 0; 0] 2 4) 1 true) no_kwds = inr cf' /\
    at_ NaN (chi cf') 2
    = nadd (if decide (idx (channel [1; 0; 0] 2 4) (receiver (channel [1; 0; 0] 2 4) 2)
                       = idx (channel [1; 0; 0] 2 4) 2) then zero
            else at_ NaN (chi cf') (receiver (channel [1; 0; 0] 2 4) 2))
           (nmul (nmul half
                    (nadd (integrand power_example (channel [1; 0; 0] 2 4) (num_of_Z 3)
                             (num_of_Z 1) (valid (channel [1; 0; 0] 2 4) (num_of_Z 1)) 2)
                          (integrand power_example (channel [1; 0; 0] 2 4) (num_of_Z 3)
                             (num_of_Z 1) (valid (channel [1; 0; 0] 2 4) (num_of_Z 1))
                             (receiver (channel [1; 0; 0] 2 4) 2))))
                 (linkLength example_bad (channel [1; 0; 0] 2 4) 2)).
Proof.
  apply (exact_chi_recurrence example_bad example_closed power_example
           (channel [1; 0; 0] 2 4) (channel_network_ok [1; 0; 0] [3; 3; 3] 2 4 eq_refl eq_refl)
           (finder (channel [1; 0; 0] 2 4) 1 true) no_kwds
           (num_of_Z 1) (num_of_Z 1) (num_of_Z 3) 2).
  - reflexivity.
  - split; reflexivity.
  - vm_compute. reflexivity.
  - apply channel_upstream_ordered.
  - compute_done.
  - compute_done.
  - compute_done.
  - intros _. compute_done.
Defined.

Lemma uniform_chi_recurrence_witness :
  exists cf' mu u,
    run (finder (channel [1; 0; 0] 1 1) 1 false) no_kwds = inr cf' /\
    mean_channel_node_spacing example_bad (channel [1; 0; 0] 1 1)
      (valid (channel [1; 0; 0] 1 1) (num_of_Z 1)) = inr mu /\
    length u = number_of_nodes (channel [1; 0; 0] 1 1) /\
    (forall node, node ∈ valid (channel [1; 0; 0] 1 1) (num_of_Z 1) ->
       at_ NaN u node
       = nadd (if decide (idx (channel [1; 0; 0] 1 1) (receiver (channel [1; 0; 0] 1 1) node)
                          = idx (channel [1; 0; 0] 1 1) node) then zero
               else at_ NaN u (receiver (channel [1; 0; 0] 1 1) node))
              (power_example (ndiv (num_of_Z 3) (area (channel [1; 0; 0] 1 1) node))
                 (num_of_Z 1))) /\
    (forall v, Nat.lt v (number_of_nodes (channel [1; 0; 0] 1 1)) ->
       ~ Exists (fun nd => idx (channel [1; 0; 0] 1 1) nd = Some v)
           (valid (channel [1; 0; 0] 1 1) (num_of_Z 1)) -> u !! v = Some zero) /\
    (forall node, is_Some (idx (channel [1; 0; 0] 1 1) node) ->
       at_ NaN (chi cf') node
       = if at_ 0 (status_at_node (channel [1; 0; 0] 1 1)) node =? example_closed then zero
         else nmul (at_ NaN u node) mu).
Proof.
  apply (uniform_chi_recurrence example_bad example_closed power_example
           (channel [1; 0; 0] 1 1) (channel_network_ok [1; 0; 0] [3; 3; 3] 1 1 eq_refl eq_refl)
           (finder (channel [1; 0; 0] 1 1) 1 false) no_kwds
           (num_of_Z 1) (num_of_Z 1) (num_of_Z 3)).
  - reflexivity.
  - split; reflexivity.
  - vm_compute. reflexivity.
  - apply channel_upstream_ordered.
Defined.

Lemma calculate_chi_overwrites_witness :
  exists r r',
    run (finder (channel [1; 0; 0] 1 1) 1 false) no_kwds = inr r /\
    run (stale (finder (channel [1; 0; 0] 1 1) 1 false)) no_kwds = inr r' /\
    chi r = chi r' /\ _mask r = _mask r'.
Proof.
  apply (calculate_chi_overwrites example_bad example_closed power_example
           (channel [1; 0; 0] 1 1) (channel_network_ok [1; 0; 0] [3; 3; 3] 1 1 eq_refl eq_refl)
           (finder (channel [1; 0; 0] 1 1) 1 false)
           (stale (finder (channel [1; 0; 0] 1 1) 1 false)) no_kwds
           (num_of_Z 1) (num_of_Z 1) (num_of_Z 3) false).
  - reflexivity.
  - reflexivity.
  - split; reflexivity.
  - split; reflexivity.
  - vm_compute. reflexivity.
  - vm_compute. reflexivity.
Defined.

Lemma calculate_chi_twice_witness :
  run (force_finder (run (finder (channel [1; 0; 0] 1 1) 1 false) no_kwds)) no_kwds
  = inr (force_finder (run (finder (channel [1; 0; 0] 1 1) 1 false) no_kwds)) /\
  (_reftheta (force_finder (run (finder (channel [1; 0; 0] 1 1) 1 false) no_kwds)),
   min_drainage (force_finder (run (finder (channel [1; 0; 0] 1 1) 1 false) no_kwds)),
   _A0 (force_finder (run (finder (channel [1; 0; 0] 1 1) 1 false) no_kwds)),
   use_true_dx (force_finder (run (finder (channel [1; 0; 0] 1 1) 1 false) no_kwds)))
  = (_reftheta (finder (channel [1; 0; 0] 1 1) 1 false),
     min_drainage (finder (channel [1; 0; 0] 1 1) 1 false),
     _A0 (finder (channel [1; 0; 0] 1 1) 1 false),
     use_true_dx (finder (channel [1; 0; 0] 1 1) 1 false)).
Proof.
  apply (calculate_chi_twice example_bad example_closed power_example
           (channel [1; 0; 0] 1 1) (channel_network_ok [1; 0; 0] [3; 3; 3] 1 1 eq_refl eq_refl)
           (finder (channel [1; 0; 0] 1 1) 1 false) no_kwds).
  - reflexivity.
  - split; reflexivity.
  - vm_compute. reflexivity.
Defined.

Lemma no_valid_nodes_uniform_witness :
  run (finder (channel [1; 0; 4] 1 1) 1000000 false) no_kwds
  = inr (mkChiFinder (channel [1; 0; 4] 1 1) (num_of_Z 1) (num_of_Z 1000000) (num_of_Z 3) false
           (closedToZero example_closed (channel [1; 0; 4] 1 1) (replicate 3 NaN))
           (replicate 3 true)).
Proof.
  apply (no_valid_nodes_uniform example_bad example_closed power_example
           (channel [1; 0; 4] 1 1) (channel_network_ok [1; 0; 4] [3; 3; 3] 1 1 eq_refl eq_refl)
           (finder (channel [1; 0; 4] 1 1) 1000000 false) no_kwds
           (num_of_Z 1) (num_of_Z 1000000) (num_of_Z 3)).
  - reflexivity.
  - split; reflexivity.
  - compute_done.
  - vm_compute. reflexivity.
Defined.

End ChiProofs.
